(** * ESO Build Optimizer companion: table-literal parser and sync engine

    A shallow embedding of [companion/watcher.py] ([LuaTableParser]) and of
    [companion/sync.py] ([RateLimiter], [LocalCache], [SyncClient]) together
    with the properties established about them.

    Conventions.
    - Python [int] is [Z]; positions and counts that the code only ever
      increments from 0 are [nat].
    - Text is a [list ascii]; a character stands for the code point of the
      same number (Latin-1).  [isspace], [isalpha] and the regular
      expression classes are given for that range.
    - A Python [float] is the exact rational (or infinity) it denotes;
      [float(token)] rounds the decimal literal to the nearest binary64
      value, ties to even.  Wall-clock readings and delays are rationals.
    - Exceptions are explicit: every fallible function returns a [res].
      Functions whose Python original loops or recurses without a structural
      argument take a [fuel] and answer [OutOfFuel] when it runs out; the
      adequacy lemmas show how much fuel always suffices.
    - Python's recursion limit and the interpreter's limit on the length of
      decimal integer strings are not modelled. *)

From Stdlib Require Import ZArith QArith Lqa List String Ascii Bool Lia Arith.
From Stdlib Require Import DecimalString Permutation Sorted.
Import ListNotations.
Close Scope Q_scope.

Set Implicit Arguments.
Set Warnings "-register-all".

(* ===================================================================== *)
(** * Python values, exceptions and dictionaries                          *)
(* ===================================================================== *)

Module Py.

(** The exceptions that the modelled code raises or lets escape. *)
Inductive exn : Type :=
| LuaParseError
| ValueError
| TypeError
| KeyError
| IndexError.

Inductive res (A : Type) : Type :=
| Ok (a : A)
| Raise (e : exn)
| OutOfFuel.

Arguments Ok {A} a.
Arguments Raise {A} e.
Arguments OutOfFuel {A}.

Definition bind {A B : Type} (m : res A) (k : A -> res B) : res B :=
  match m with
  | Ok a => k a
  | Raise e => Raise e
  | OutOfFuel => OutOfFuel
  end.

(** A float: a finite value, kept as the exact rational, or an infinity. *)
Inductive num : Type :=
| NFin (q : Q)
| NInf (negative : bool).

Definition num_eqb (a b : num) : bool :=
  match a, b with
  | NFin x, NFin y => Qeq_bool x y
  | NInf s, NInf t => Bool.eqb s t
  | _, _ => false
  end.

Inductive pyval : Type :=
| VNone
| VBool (b : bool)
| VInt (z : Z)
| VFloat (f : num)
| VStr (s : string)
| VList (items : list pyval)
| VDict (items : list (pyval * pyval)).

(** A [dict] keeps its items in insertion order. *)
Definition pydict : Type := list (pyval * pyval).

(** The number a [bool], [int] or [float] stands for in comparisons. *)
Definition num_of (v : pyval) : option num :=
  match v with
  | VBool b => Some (NFin (inject_Z (if b then 1 else 0)))
  | VInt z => Some (NFin (inject_Z z))
  | VFloat f => Some f
  | _ => None
  end.

(** [a == b] for the values that can be dictionary keys. *)
Definition key_eqb (a b : pyval) : bool :=
  match a, b with
  | VNone, VNone => true
  | VStr s, VStr t => String.eqb s t
  | _, _ =>
      match num_of a, num_of b with
      | Some x, Some y => num_eqb x y
      | _, _ => false
      end
  end.

(** [key != n] for an [int] [n]: lists, dicts, strings and [None] differ
    from every number. *)
Definition ne_int (key : pyval) (n : Z) : bool :=
  match num_of key with
  | Some x => negb (num_eqb x (NFin (inject_Z n)))
  | None => true
  end.

(** [isinstance(k, int)]: [bool] is a subclass of [int]. *)
Definition isinstance_int (k : pyval) : bool :=
  match k with
  | VInt _ | VBool _ => true
  | _ => false
  end.

Definition int_of (k : pyval) : Z :=
  match k with
  | VInt z => z
  | VBool b => if b then 1%Z else 0%Z
  | _ => 0%Z
  end.

Definition hashable (k : pyval) : bool :=
  match k with
  | VList _ | VDict _ => false
  | _ => true
  end.

Fixpoint assoc_set {K V : Type} (eqb : K -> K -> bool)
         (d : list (K * V)) (k : K) (v : V) : list (K * V) :=
  match d with
  | [] => [(k, v)]
  | (k', v') :: rest =>
      if eqb k' k then (k', v) :: rest
      else (k', v') :: assoc_set eqb rest k v
  end.

Fixpoint assoc_get {K V : Type} (eqb : K -> K -> bool)
         (d : list (K * V)) (k : K) : option V :=
  match d with
  | [] => None
  | (k', v') :: rest => if eqb k' k then Some v' else assoc_get eqb rest k
  end.

(** [d[k] = v]: an equal key keeps its place and its first spelling. *)
Definition setitem (d : pydict) (k v : pyval) : res pydict :=
  if hashable k then Ok (assoc_set key_eqb d k v) else Raise TypeError.

(** [d[k]]. *)
Definition getitem (d : pydict) (k : pyval) : res pyval :=
  match assoc_get key_eqb d k with
  | Some v => Ok v
  | None => Raise KeyError
  end.

Definition keys {K V : Type} (d : list (K * V)) : list K := map fst d.

(** [max(ks)] over [int]-like keys: the first of the largest. *)
Fixpoint max_key (ks : list pyval) : option pyval :=
  match ks with
  | [] => None
  | k :: rest =>
      match max_key rest with
      | None => Some k
      | Some m => if (int_of k <? int_of m)%Z then Some m else Some k
      end
  end.

(** ** Rounding to binary64 *)

Definition round_half_even (n d : Z) : Z :=
  let q := (n / d)%Z in
  match (2 * (n mod d) ?= d)%Z with
  | Lt => q
  | Gt => (q + 1)%Z
  | Eq => if Z.even q then q else (q + 1)%Z
  end.

(** The fraction [n / (d * 2^k)]. *)
Definition scaled (n d k : Z) : Z * Z :=
  if (0 <=? k)%Z then (n, d * 2 ^ k)%Z else (n * 2 ^ (- k), d)%Z.

Definition float_of_Q (x : Q) : num :=
  let n := Z.abs (Qnum x) in
  let d := Z.pos (Qden x) in
  let negative := (Qnum x <? 0)%Z in
  if (n =? 0)%Z then NFin 0 else
  let e0 := (Z.log2 n - Z.log2 d)%Z in
  let '(n0, d0) := scaled n d e0 in
  let e := if (d0 <=? n0)%Z then e0 else (e0 - 1)%Z in
  let k := Z.max (e - 52) (-1074) in
  let '(n1, d1) := scaled n d k in
  let m := round_half_even n1 d1 in
  let s := if negative then (- m)%Z else m in
  if (0 <=? k)%Z then
    if (2 ^ 1024 <=? m * 2 ^ k)%Z then NInf negative
    else NFin (inject_Z (s * 2 ^ k))
  else NFin (Qmake s (Z.to_pos (2 ^ (- k)))).

End Py.

(* ===================================================================== *)
(** * companion/watcher.py: [LuaTableParser]                              *)
(* ===================================================================== *)

Module Watcher.
Import Py.

Definition text : Type := list ascii.

Definition code (c : ascii) : nat := nat_of_ascii c.

(** ** Character classes *)

Definition in_range (lo hi n : nat) : bool := (lo <=? n) && (n <=? hi).

(** [str.isspace] and the regular expression class [\s]. *)
Definition isspace (c : ascii) : bool :=
  let n := code c in
  in_range 9 13 n || in_range 28 32 n || (n =? 133) || (n =? 160).

Definition is_upper (c : ascii) : bool := in_range 65 90 (code c).
Definition is_lower (c : ascii) : bool := in_range 97 122 (code c).

(** [\d] *)
Definition is_digit (c : ascii) : bool := in_range 48 57 (code c).

(** [str.isalpha] *)
Definition isalpha (c : ascii) : bool :=
  let n := code c in
  is_upper c || is_lower c || (n =? 170) || (n =? 181) || (n =? 186)
  || in_range 192 214 n || in_range 216 246 n || in_range 248 255 n.

(** [[a-zA-Z_]] and [[a-zA-Z0-9_]] *)
Definition is_ident_start (c : ascii) : bool :=
  is_upper c || is_lower c || (code c =? 95).
Definition is_ident_char (c : ascii) : bool :=
  is_ident_start c || is_digit c.

(** [[0-9a-fA-F]] *)
Definition is_hex_digit (c : ascii) : bool :=
  is_digit c || in_range 65 70 (code c) || in_range 97 102 (code c).

(** ** Text primitives *)

Definition newline : ascii := ascii_of_nat 10.
Definition tab : ascii := ascii_of_nat 9.
Definition carriage_return : ascii := ascii_of_nat 13.
Definition dquote : ascii := ascii_of_nat 34.
Definition squote : ascii := ascii_of_nat 39.

Definition lit (s : string) : text := list_ascii_of_string s.

Definition ceqb (a b : ascii) : bool := Ascii.eqb a b.

Fixpoint teqb (a b : text) : bool :=
  match a, b with
  | [], [] => true
  | x :: a', y :: b' => ceqb x y && teqb a' b'
  | _, _ => false
  end.

(** [len(content)] *)
Definition len (content : text) : nat := List.length content.

(** [content[pos]], defined when [pos < len(content)]. *)
Definition char_at (content : text) (pos : nat) : option ascii :=
  nth_error content pos.

Definition char_is (content : text) (pos : nat) (c : ascii) : bool :=
  match char_at content pos with
  | Some x => ceqb x c
  | None => false
  end.

(** [content[a:b]] *)
Definition slice (content : text) (a b : nat) : text :=
  firstn (b - a) (skipn a content).

(** [content[pos:]] *)
Definition tail_from (content : text) (pos : nat) : text := skipn pos content.

Fixpoint starts_with (prefix s : text) : bool :=
  match prefix, s with
  | [], _ => true
  | p :: prefix', c :: s' => ceqb p c && starts_with prefix' s'
  | _ :: _, [] => false
  end.

Fixpoint find_in (needle rest : text) (at_ : nat) : option nat :=
  if starts_with needle rest then Some at_
  else match rest with
       | [] => None
       | _ :: rest' => find_in needle rest' (S at_)
       end.

(** [content.find(needle, start)]; [None] stands for [-1]. *)
Definition find (content needle : text) (start : nat) : option nat :=
  if start <=? len content then find_in needle (skipn start content) start
  else None.

Fixpoint take_while (p : ascii -> bool) (s : text) : text :=
  match s with
  | c :: s' => if p c then c :: take_while p s' else []
  | [] => []
  end.

Fixpoint contains (p : ascii -> bool) (s : text) : bool :=
  match s with
  | c :: s' => p c || contains p s'
  | [] => false
  end.

(** [str.lower] on one character. *)
Definition lower (c : ascii) : ascii :=
  let n := code c in
  if in_range 65 90 n || in_range 192 214 n || in_range 216 222 n
  then ascii_of_nat (n + 32) else c.

(** ** Regular expressions of the parser *)

(** [[a-zA-Z_][a-zA-Z0-9_]*] at the head of [s]. *)
Definition match_identifier (s : text) : option text :=
  match s with
  | c :: r => if is_ident_start c then Some (c :: take_while is_ident_char r)
              else None
  | [] => None
  end.

(** An optional character of class [p] at the head of [s]. *)
Definition optional (p : ascii -> bool) (s : text) : text * text :=
  match s with
  | c :: r => if p c then ([c], r) else ([], s)
  | [] => ([], s)
  end.

Definition is_minus (c : ascii) : bool := ceqb c "-".
Definition is_dot (c : ascii) : bool := ceqb c ".".
Definition is_sign (c : ascii) : bool := ceqb c "+" || ceqb c "-".
Definition is_e (c : ascii) : bool := ceqb c "e" || ceqb c "E".

(** [0x[0-9a-fA-F]+] *)
Definition match_hex (s : text) : option text :=
  match s with
  | z :: x :: r =>
      if ceqb z "0" && ceqb x "x" then
        match take_while is_hex_digit r with
        | [] => None
        | h => Some (z :: x :: h)
        end
      else None
  | _ => None
  end.

(** [(?:[eE][+-]?\d+)?] *)
Definition match_exponent (s : text) : text :=
  match s with
  | e :: r =>
      if is_e e then
        let (sg, r1) := optional is_sign r in
        match take_while is_digit r1 with
        | [] => []
        | ds => e :: sg ++ ds
        end
      else []
  | [] => []
  end.

(** [\d+\.?\d*(?:[eE][+-]?\d+)?] *)
Definition match_decimal (s : text) : option text :=
  match take_while is_digit s with
  | [] => None
  | ds =>
      let s1 := skipn (List.length ds) s in
      let (dot, s2) := optional is_dot s1 in
      let fs := take_while is_digit s2 in
      let s3 := skipn (List.length fs) s2 in
      Some (ds ++ dot ++ fs ++ match_exponent s3)
  end.

(** [-?(?:0x[0-9a-fA-F]+|\d+\.?\d*(?:[eE][+-]?\d+)?)] *)
Definition match_number (s : text) : option text :=
  let (sg, s1) := optional is_minus s in
  match match_hex s1 with
  | Some t => Some (sg ++ t)
  | None =>
      match match_decimal s1 with
      | Some t => Some (sg ++ t)
      | None => None
      end
  end.

(** The token expression of [_parse_value]: a number, [true], [false],
    [nil] or an identifier, tried in that order. *)
Definition match_token (s : text) : option text :=
  match match_number s with
  | Some t => Some t
  | None =>
      if starts_with (lit "true") s then Some (lit "true")
      else if starts_with (lit "false") s then Some (lit "false")
      else if starts_with (lit "nil") s then Some (lit "nil")
      else match_identifier s
  end.

(** The key expression of [_parse_table], an identifier, [\s*] and [=]:
    the name and the length of the match. *)
Definition match_ident_equals (s : text) : option (text * nat) :=
  match match_identifier s with
  | Some name =>
      let s1 := skipn (List.length name) s in
      let ws := take_while isspace s1 in
      match skipn (List.length ws) s1 with
      | c :: _ =>
          if ceqb c "=" then Some (name, List.length name + List.length ws + 1)
          else None
      | [] => None
      end
  | None => None
  end.

(** [assignment_pattern] (an identifier, [\s*], [=], [\s*] and an opening
    brace) at the head of [s]: the name and the offset of the brace. *)
Definition match_assignment (s : text) : option (text * nat) :=
  match match_ident_equals s with
  | Some (name, n) =>
      let s1 := skipn n s in
      let ws := take_while isspace s1 in
      match skipn (List.length ws) s1 with
      | c :: _ => if ceqb c "{" then Some (name, n + List.length ws) else None
      | [] => None
      end
  | None => None
  end.

Fixpoint search_in (rest : text) (at_ : nat) : option (text * nat * nat) :=
  match match_assignment rest with
  | Some (name, off) => Some (name, at_ + off, at_ + off + 1)
  | None =>
      match rest with
      | [] => None
      | _ :: rest' => search_in rest' (S at_)
      end
  end.

(** [assignment_pattern.search(lua_content, pos)]: [match.group(1)],
    [match.start(2)] and [match.end()] of the leftmost match. *)
Definition assignment_search (content : text) (pos : nat)
  : option (text * nat * nat) :=
  search_in (skipn pos content) pos.

(** ** Number conversions *)

Definition digit_value (c : ascii) : Z :=
  let n := code c in
  if in_range 48 57 n then Z.of_nat (n - 48)
  else if in_range 97 102 n then Z.of_nat (n - 87)
  else Z.of_nat (n - 55).

Definition digits_value (base : Z) (ds : text) : Z :=
  fold_left (fun acc c => (acc * base + digit_value c)%Z) ds 0%Z.

Definition signed (negative : bool) (z : Z) : Z :=
  if negative then (- z)%Z else z.

Definition is_nil {A : Type} (l : list A) : bool :=
  match l with [] => true | _ => false end.

(** [int(token)] on a token [-?\d+]. *)
Definition py_int (token : text) : res Z :=
  let (sg, ds) := optional is_minus token in
  if negb (is_nil ds) && forallb is_digit ds
  then Ok (signed (negb (is_nil sg)) (digits_value 10 ds))
  else Raise ValueError.

(** [int(token, 16)] on a token [-?0x[0-9a-fA-F]+]. *)
Definition py_int16 (token : text) : res Z :=
  let (sg, s1) := optional is_minus token in
  let hs := if starts_with (lit "0x") s1 then skipn 2 s1 else s1 in
  if negb (is_nil hs) && forallb is_hex_digit hs
  then Ok (signed (negb (is_nil sg)) (digits_value 16 hs))
  else Raise ValueError.

(** The rational [m * 10^e]. *)
Definition decimal (m e : Z) : Q :=
  if (0 <=? e)%Z then inject_Z (m * 10 ^ e)
  else Qmake m (Z.to_pos (10 ^ (- e))).

(** [float(token)] on the tokens the parser passes: a decimal literal with
    an optional fraction and exponent is rounded to binary64, anything else
    (a [0x] literal in particular) is a [ValueError]. *)
Definition py_float (token : text) : res num :=
  let (sg, s1) := optional is_minus token in
  let ds := take_while is_digit s1 in
  let s2 := skipn (List.length ds) s1 in
  let (dot, s3) := optional is_dot s2 in
  let fs := take_while is_digit s3 in
  let s4 := skipn (List.length fs) s3 in
  let m := signed (negb (is_nil sg)) (digits_value 10 (ds ++ fs)) in
  let shift := Z.of_nat (List.length fs) in
  if is_nil ds && is_nil fs then Raise ValueError
  else
    match s4 with
    | [] => Ok (float_of_Q (decimal m (- shift)))
    | e :: r =>
        let (esg, es) := optional is_sign r in
        if is_e e && negb (is_nil es) && forallb is_digit es then
          let ex := signed (teqb esg (lit "-")) (digits_value 10 es) in
          Ok (float_of_Q (decimal m (ex - shift)))
        else Raise ValueError
    end.

(** The number branch of [_parse_value]. *)
Definition number_of_token (token : text) : res pyval :=
  if contains is_dot token || contains is_e (map lower token) then
    bind (py_float token) (fun f => Ok (VFloat f))
  else if starts_with (lit "0x") token || starts_with (lit "-0x") token then
    bind (py_int16 token) (fun z => Ok (VInt z))
  else
    bind (py_int token) (fun z => Ok (VInt z)).

(** ** [_skip_whitespace] *)

Fixpoint skip_ws_loop (fuel : nat) (content : text) (pos : nat) : nat :=
  match fuel with
  | O => pos
  | S fuel' =>
      match char_at content pos with
      | None => pos
      | Some c =>
          if isspace c then skip_ws_loop fuel' content (pos + 1)
          else if teqb (slice content pos (pos + 2)) (lit "--") then
            if teqb (slice content pos (pos + 4)) (lit "--[[") then
              match find content (lit "]]") (pos + 4) with
              | None => len content
              | Some e => skip_ws_loop fuel' content (e + 2)
              end
            else
              match find content [newline] pos with
              | None => len content
              | Some e => skip_ws_loop fuel' content (e + 1)
              end
          else pos
      end
  end.

(** Every round of the loop moves [pos] forward, so [len content] rounds
    and the closing test are all it can make. *)
Definition _skip_whitespace (content : text) (pos : nat) : nat :=
  skip_ws_loop (S (len content)) content pos.

(** ** [_is_identifier_start] *)

Definition _is_identifier_start (content : text) (pos : nat) : bool :=
  match char_at content pos with
  | None => false
  | Some c => isalpha c || ceqb c "_"
  end.

(** ** [_parse_string] and [_parse_long_string] *)

Definition unescape (quote next_char : ascii) : ascii :=
  if ceqb next_char "n" then newline
  else if ceqb next_char "t" then tab
  else if ceqb next_char "r" then carriage_return
  else if ceqb next_char "\" then "\"%char
  else if ceqb next_char quote then quote
  else next_char.

(** The loop of [_parse_string]; [rest] is [content[pos:]]. *)
Fixpoint string_loop (rest : text) (pos : nat) (quote : ascii) (result : text)
  : res (string * nat) :=
  match rest with
  | [] => Raise LuaParseError
  | char :: rest' =>
      if ceqb char quote then Ok (string_of_list_ascii result, pos + 1)
      else if ceqb char "\" then
        match rest' with
        | [] => Raise LuaParseError
        | next_char :: rest'' =>
            string_loop rest'' (pos + 2) quote
                        (result ++ [unescape quote next_char])
        end
      else string_loop rest' (pos + 1) quote (result ++ [char])
  end.

Definition _parse_string (content : text) (pos : nat) (quote : ascii)
  : res (string * nat) :=
  match char_at content pos with
  | None => Raise IndexError
  | Some c =>
      if ceqb c quote
      then string_loop (tail_from content (pos + 1)) (pos + 1) quote []
      else Raise LuaParseError
  end.

Definition _parse_long_string (content : text) (pos : nat)
  : res (string * nat) :=
  if teqb (slice content pos (pos + 2)) (lit "[[") then
    match find content (lit "]]") (pos + 2) with
    | None => Raise LuaParseError
    | Some e => Ok (string_of_list_ascii (slice content (pos + 2) e), e + 2)
    end
  else Raise LuaParseError.

(** ** [_parse_table] and [_parse_value] *)

(** The locals [result], [array_index] and [is_array] of [_parse_table]. *)
Record table_state : Type := {
  result : pydict;
  array_index : Z;
  is_array : bool
}.

Definition initial_state : table_state :=
  {| result := []; array_index := 1%Z; is_array := true |}.

(** What one round of the loop has read: [[key] = value],
    [identifier = value] or a bare [value]. *)
Inductive entry : Type :=
| Bracketed (key value : pyval)
| Named (key : string) (value : pyval)
| Bare (value : pyval).

(** The bookkeeping of one round, ending in [result[key] = value]. *)
Definition record_entry (st : table_state) (e : entry) : res table_state :=
  match e with
  | Bracketed key value =>
      let index := if ne_int key (array_index st) then array_index st
                   else (array_index st + 1)%Z in
      let flag := if ne_int key (array_index st) then false
                  else is_array st in
      bind (setitem (result st) key value) (fun r =>
      Ok {| result := r; array_index := index; is_array := flag |})
  | Named key value =>
      bind (setitem (result st) (VStr key) value) (fun r =>
      Ok {| result := r; array_index := array_index st; is_array := false |})
  | Bare value =>
      bind (setitem (result st) (VInt (array_index st)) value) (fun r =>
      Ok {| result := r; array_index := (array_index st + 1)%Z;
            is_array := is_array st |})
  end.

(** [range(a, b)] *)
Definition py_range (a b : Z) : list Z :=
  map (fun k => (a + Z.of_nat k)%Z) (seq 0 (Z.to_nat (b - a))).

Fixpoint collect (d : pydict) (indices : list Z) : res (list pyval) :=
  match indices with
  | [] => Ok []
  | i :: rest =>
      bind (getitem d (VInt i)) (fun v =>
      bind (collect d rest) (fun vs => Ok (v :: vs)))
  end.

(** The conversion at the end of [_parse_table]. *)
Definition finish_table (st : table_state) : res pyval :=
  if is_array st && negb (is_nil (result st))
     && forallb isinstance_int (keys (result st)) then
    match max_key (keys (result st)) with
    | Some m =>
        if (int_of m =? Z.of_nat (List.length (result st)))%Z then
          bind (collect (result st) (py_range 1 (int_of m + 1)))
               (fun items => Ok (VList items))
        else Ok (VDict (result st))
    | None => Raise ValueError
    end
  else Ok (VDict (result st)).

(** [pos >= len(content) or content[pos] != c] *)
Definition missing (content : text) (pos : nat) (c : ascii) : bool :=
  negb (char_is content pos c).

(** The separator step closing a round of the table loop. *)
Definition skip_separator (content : text) (pos : nat) : nat :=
  let pos := _skip_whitespace content pos in
  if char_is content pos "," || char_is content pos ";" then pos + 1 else pos.

(** The part of a round of the table loop that reads a key-value pair or an
    array element at [pos], where [content[pos]] is [c]; [parse_value] is
    [_parse_value] on [content]. *)
Definition read_entry (parse_value : nat -> res (pyval * nat))
           (content : text) (pos : nat) (c : ascii) : res (entry * nat) :=
  if ceqb c "[" then
    let pos := _skip_whitespace content (pos + 1) in
    bind (parse_value pos) (fun '(key, pos) =>
    let pos := _skip_whitespace content pos in
    if missing content pos "]" then Raise LuaParseError else
    let pos := _skip_whitespace content (pos + 1) in
    if missing content pos "=" then Raise LuaParseError else
    let pos := _skip_whitespace content (pos + 1) in
    bind (parse_value pos) (fun '(value, pos) =>
    Ok (Bracketed key value, pos)))
  else if _is_identifier_start content pos then
    match match_ident_equals (tail_from content pos) with
    | Some (key, n) =>
        let pos := _skip_whitespace content (pos + n) in
        bind (parse_value pos) (fun '(value, pos) =>
        Ok (Named (string_of_list_ascii key) value, pos))
    | None =>
        bind (parse_value pos) (fun '(value, pos) => Ok (Bare value, pos))
    end
  else
    bind (parse_value pos) (fun '(value, pos) => Ok (Bare value, pos)).

Fixpoint _parse_value (fuel : nat) (content : text) (pos : nat) {struct fuel}
  : res (pyval * nat) :=
  match fuel with
  | O => OutOfFuel
  | S fuel' =>
      let pos := _skip_whitespace content pos in
      match char_at content pos with
      | None => Raise LuaParseError
      | Some char =>
          if ceqb char "{" then _parse_table fuel' content pos
          else if ceqb char dquote then
            bind (_parse_string content pos dquote)
                 (fun '(s, p) => Ok (VStr s, p))
          else if ceqb char squote then
            bind (_parse_string content pos squote)
                 (fun '(s, p) => Ok (VStr s, p))
          else if teqb (slice content pos (pos + 2)) (lit "[[") then
            bind (_parse_long_string content pos)
                 (fun '(s, p) => Ok (VStr s, p))
          else
            match match_token (tail_from content pos) with
            | Some token =>
                let new_pos := pos + List.length token in
                if teqb token (lit "true") then Ok (VBool true, new_pos)
                else if teqb token (lit "false") then Ok (VBool false, new_pos)
                else if teqb token (lit "nil") then Ok (VNone, new_pos)
                else
                  match match_number token with
                  | Some _ =>
                      bind (number_of_token token) (fun v => Ok (v, new_pos))
                  | None => Ok (VStr (string_of_list_ascii token), new_pos)
                  end
            | None => Raise LuaParseError
            end
      end
  end

with _parse_table (fuel : nat) (content : text) (start : nat) {struct fuel}
  : res (pyval * nat) :=
  match fuel with
  | O => OutOfFuel
  | S fuel' =>
      match char_at content start with
      | None => Raise IndexError
      | Some c =>
          if ceqb c "{" then
            bind (table_loop fuel' content (start + 1) initial_state [])
                 (fun '(st, _, pos) =>
                    if missing content pos "}" then Raise LuaParseError
                    else bind (finish_table st) (fun v => Ok (v, pos + 1)))
          else Raise LuaParseError
      end
  end

(** The [while] loop of [_parse_table].  [seen] is not in the source: it
    lists the entries read so far, for the statements about the loop. *)
with table_loop (fuel : nat) (content : text) (pos : nat) (st : table_state)
                (seen : list entry) {struct fuel}
  : res (table_state * list entry * nat) :=
  match fuel with
  | O => OutOfFuel
  | S fuel' =>
      if pos <? len content then
        let pos := _skip_whitespace content pos in
        match char_at content pos with
        | None => Raise LuaParseError
        | Some c =>
            if ceqb c "}" then Ok (st, seen, pos)
            else
              bind (read_entry (_parse_value fuel' content) content pos c)
                   (fun '(e, pos) =>
              bind (record_entry st e) (fun st' =>
              table_loop fuel' content (skip_separator content pos) st'
                         (seen ++ [e])))
        end
      else Ok (st, seen, pos)
  end.

(** ** Vocabulary of the statements about tables *)

(** The bookkeeping of several rounds in a row. *)
Fixpoint record_entries (st : table_state) (entries : list entry)
  : res table_state :=
  match entries with
  | [] => Ok st
  | e :: rest => bind (record_entry st e) (fun st' => record_entries st' rest)
  end.

Definition entry_value (e : entry) : pyval :=
  match e with
  | Bracketed _ value | Named _ value | Bare value => value
  end.

(** The entries are bare values or bracketed [int] keys, each key equal to
    the index its entry has when counting from [index]. *)
Fixpoint in_sequence (index : Z) (entries : list entry) : bool :=
  match entries with
  | [] => true
  | Bare _ :: rest => in_sequence (index + 1) rest
  | Bracketed key _ :: rest =>
      negb (ne_int key index) && isinstance_int key
      && in_sequence (index + 1) rest
  | Named _ _ :: _ => false
  end.

(** The keys of [d] equal [from], [from + 1], ... in this order. *)
Fixpoint numbered (from : Z) (d : pydict) : Prop :=
  match d with
  | [] => True
  | (k, _) :: rest => ne_int k from = false /\ numbered (from + 1) rest
  end.

(** An entry that keeps the array pattern at index [index]. *)
Definition in_order_entry (index : Z) (e : entry) : bool :=
  match e with
  | Bare _ => true
  | Bracketed key _ => negb (ne_int key index)
  | Named _ _ => false
  end.

Fixpoint in_order (index : Z) (entries : list entry) : bool :=
  match entries with
  | [] => true
  | e :: rest => in_order_entry index e && in_order (index + 1) rest
  end.

Definition int_key (e : entry) : bool :=
  match e with
  | Bracketed key _ => isinstance_int key
  | _ => true
  end.

(** The item an in-order entry adds to [result]. *)
Definition item_of_entry (index : Z) (e : entry) : pyval * pyval :=
  match e with
  | Bracketed key value => (key, value)
  | Named key value => (VStr key, value)
  | Bare value => (VInt index, value)
  end.

Fixpoint items_of_entries (index : Z) (entries : list entry) : pydict :=
  match entries with
  | [] => []
  | e :: rest => item_of_entry index e :: items_of_entries (index + 1) rest
  end.

(** Fuel that always suffices for a table of [content] (see
    [parse_table_fuel]). *)
Definition enough (content : text) : nat := 3 * len content + 3.

(** ** [parse_table_string] *)

(** [str.strip]: whitespace off both ends. *)
Fixpoint lstrip (s : text) : text :=
  match s with
  | c :: s' => if isspace c then lstrip s' else s
  | [] => []
  end.

Definition strip (s : text) : text := rev (lstrip (rev (lstrip s))).

Definition parse_table_string (table_string : text) : res pyval :=
  let table_string := strip table_string in
  if starts_with (lit "{") table_string then
    bind (_parse_table (enough table_string) table_string 0)
         (fun '(value, _) => Ok value)
  else Raise LuaParseError.

(** ** [parse] *)

(** The [while] loop of [parse]; [result] maps variable names to values. *)
Fixpoint parse_loop (fuel : nat) (lua_content : text) (pos : nat)
         (result : list (string * pyval)) : res (list (string * pyval)) :=
  match fuel with
  | O => OutOfFuel
  | S fuel' =>
      if pos <? len lua_content then
        match assignment_search lua_content pos with
        | None => Ok result
        | Some (var_name, table_start, match_end) =>
            match _parse_table (enough lua_content) lua_content table_start with
            | Ok (table_value, end_pos) =>
                parse_loop fuel' lua_content end_pos
                           (assoc_set String.eqb result
                                      (string_of_list_ascii var_name)
                                      table_value)
            | Raise LuaParseError =>
                parse_loop fuel' lua_content match_end result
            | Raise e => Raise e
            | OutOfFuel => OutOfFuel
            end
        end
      else Ok result
  end.

Definition parse_from (lua_content : text) (pos : nat)
           (result : list (string * pyval)) : res (list (string * pyval)) :=
  parse_loop (S (len lua_content)) lua_content pos result.

Definition parse (lua_content : text) : res (list (string * pyval)) :=
  parse_from lua_content 0 [].

(** ** Vocabulary of further statements about the parser *)

(** [body] with a backslash before every [quote] and every backslash. *)
Definition escaped (quote : ascii) (body : text) : text :=
  flat_map (fun c => if ceqb c quote || ceqb c "\" then ["\"%char; c] else [c])
           body.

(** [body] written as a string literal between [quote]s. *)
Definition quoted_literal (quote : ascii) (body : text) : text :=
  quote :: escaped quote body ++ [quote].

(** A number token is a hexadecimal literal with an [e] or [E] among its
    digits. *)
Definition hex_with_e (token : text) : bool :=
  (starts_with (lit "0x") token || starts_with (lit "-0x") token)
  && contains is_e (map lower token).

(** ** [SavedVariablesWatcher._process_combat_runs] *)

Definition MAX_CACHED_RUNS : Z := 10000.

(** [bool(v)] *)
Definition truthy (v : pyval) : bool :=
  match v with
  | VNone => false
  | VBool b => b
  | VInt z => negb (z =? 0)%Z
  | VFloat (NFin q) => negb (Qeq_bool q 0)
  | VFloat (NInf _) => true
  | VStr s => negb (String.eqb s EmptyString)
  | VList items => negb (is_nil items)
  | VDict items => negb (is_nil items)
  end.

(** [d.get(key, default)] for a string key. *)
Definition dict_get (d : pydict) (key : string) (default : pyval) : pyval :=
  match assoc_get key_eqb d (VStr key) with
  | Some v => v
  | None => default
  end.

(** [run_data.get('run_id', run_data.get('runId', ''))], the default
    being the empty string. *)
Definition run_id_of (run_data : pydict) : pyval :=
  dict_get run_data "run_id" (dict_get run_data "runId" (VStr EmptyString)).

(** [run_id in self._last_combat_runs], the set being kept as the list of
    its members: a list or a dictionary cannot be hashed. *)
Definition set_contains (members : list pyval) (v : pyval) : res bool :=
  if hashable v then Ok (existsb (key_eqb v) members) else Raise TypeError.

(** The value of [combat_runs] that the loop goes through: the list under
    [combatRuns] or [combat_runs], the values of a dictionary there, and
    nothing for any other value (the method returns).  [sv_data] is a
    dictionary, as the signature has it. *)
Definition combat_runs_of (sv_data : pydict) : list pyval :=
  match dict_get sv_data "combatRuns"
                 (dict_get sv_data "combat_runs" (VList [])) with
  | VList runs => runs
  | VDict members => map snd members
  | _ => []
  end.

Section RunCache.

(** [list(s)] for the set with the members [s]: the order in which a set
    is iterated is not specified, so it is left open. *)
Variable iteration : list pyval -> list pyval.

(** The trimming of the cache once it holds more than [MAX_CACHED_RUNS]
    ids: [set(runs_list[excess:])]. *)
Definition trim (cache : list pyval) : list pyval :=
  if (MAX_CACHED_RUNS <? Z.of_nat (List.length cache))%Z then
    let excess := Z.to_nat (Z.of_nat (List.length cache) - MAX_CACHED_RUNS) in
    skipn excess (iteration cache)
  else cache.

(** The loop over the runs: the runs detected as new, for which
    [_create_combat_run] and the callback are called, in order, and the
    cache of known ids afterwards.  What these calls raise is caught and
    logged inside the loop. *)
Fixpoint process_runs (runs : list pyval) (cache : list pyval)
         (detected : list pydict) : res (list pydict * list pyval) :=
  match runs with
  | [] => Ok (detected, cache)
  | VDict run_data :: rest =>
      let run_id := run_id_of run_data in
      if negb (truthy run_id) then process_runs rest cache detected
      else
        bind (set_contains cache run_id) (fun known =>
        if known then process_runs rest cache detected
        else process_runs rest (trim (cache ++ [run_id]))
                          (detected ++ [run_data]))
  | _ :: rest => process_runs rest cache detected
  end.

Definition _process_combat_runs (sv_data : pydict) (cache : list pyval)
  : res (list pydict * list pyval) :=
  process_runs (combat_runs_of sv_data) cache [].

End RunCache.

(** A run that the loop passes over when the cache holds [cache]: not a
    dictionary, without a truthy id, or with an id in the cache. *)
Definition passed_over (cache : list pyval) (run : pyval) : Prop :=
  match run with
  | VDict run_data =>
      truthy (run_id_of run_data) = false
      \/ set_contains cache (run_id_of run_data) = Ok true
  | _ => True
  end.


(** ** The scan of [parse] *)


End Watcher.

(* ===================================================================== *)
(** * companion/sync.py: configuration, backoff, request pipeline         *)
(* ===================================================================== *)

Module Sync.

Local Open Scope Q_scope.

(** The fields of [SyncConfig] that the modelled code reads. *)
Record SyncConfig : Type := {
  max_batch_size : Z;
  max_retries : Z;
  base_retry_delay : Q;
  max_retry_delay : Q;
  requests_per_minute : Z;
  requests_per_hour : Z
}.

Definition default_config : SyncConfig :=
  {| max_batch_size := 50;
     max_retries := 5;
     base_retry_delay := 1;
     max_retry_delay := 60;
     requests_per_minute := 60;
     requests_per_hour := 1000 |}.

Inductive sync_exn : Type :=
| SyncError (message : string)
| AuthenticationError (message : string)
| RateLimitError (retry_after : Z)
| NetworkError
| HTTPStatusError (status_code : Z).

(** [isinstance(e, SyncError)]: the httpx error is not one. *)
Definition is_sync_error (e : sync_exn) : bool :=
  match e with
  | HTTPStatusError _ => false
  | _ => true
  end.

(** [min(a, b)]: the first argument unless the second is smaller. *)
Definition py_min (a b : Q) : Q :=
  if Qlt_le_dec b a then b else a.

(** ** [SyncClient._calculate_backoff]

    [clock_hash] is the value of [hash(time.time())]. *)
Definition _calculate_backoff (config : SyncConfig) (attempt : nat)
           (clock_hash : Z) : Q :=
  let delay := base_retry_delay config * inject_Z (2 ^ Z.of_nat attempt) in
  let jitter := delay * (25 # 100) * inject_Z (clock_hash mod 100) / 100 in
  py_min (delay + jitter) (max_retry_delay config).

(** ** [SyncClient._request] *)

(** What one [client.request] call comes back with: a response, of which
    the code reads the status and the [Retry-After] header (a number of
    seconds, when present), or an [httpx.RequestError]. *)
Inductive reply : Type :=
| Response (status_code : Z) (retry_after_header : option Z)
| RequestError.

(** How [token_manager._refresh_token] ends. *)
Inductive refresh_outcome : Type :=
| Refreshed
| RefreshRejected
| RefreshUnreachable.

(** What [token_manager.get_valid_token()] finds when [_request] starts: no
    token, in memory or in the cache; a token that does not need a refresh;
    or a token inside the refresh buffer, which [get_valid_token] refreshes
    itself, with the outcome given. *)
Inductive token_state : Type :=
| NoToken
| FreshToken
| StaleToken (first_refresh : refresh_outcome).

(** The surroundings of one [_request] call: the token found at the start,
    the reply to the request of each attempt, the fate of the token refresh
    that a 401 sets off, and the clock hash read when the backoff of an
    attempt is computed. *)
Record network : Type := {
  stored_token : token_state;
  server : nat -> reply;
  refresh : refresh_outcome;
  clock_hash : nat -> Z
}.

(** What the pipeline does, in order. *)
Inductive action : Type :=
| Acquire
| Send (attempt : nat)
| Refresh
| Sleep (seconds : Q).

Inductive outcome : Type :=
| Returned (status_code : Z)
| Raised (e : sync_exn).

Definition run : Type := (list action * outcome)%type.

Definition after (done : list action) (r : run) : run :=
  (done ++ fst r, snd r).

(** [response.raise_for_status()] returns on a 2xx status. *)
Definition is_success (status_code : Z) : bool :=
  ((200 <=? status_code) && (status_code <=? 299))%Z.

(** The [for attempt in range(max_retries)] loop and the final [raise];
    [remaining] counts the attempts still to be made.  [acquire] appears as
    an action only (how long it waits is the matter of [RateLimiter]
    below). *)
Fixpoint request_loop (config : SyncConfig) (net : network)
         (remaining attempt : nat) (last_exception : option sync_exn) : run :=
  match remaining with
  | O =>
      ([], Raised match last_exception with
                  | Some e => e
                  | None => SyncError "Max retries exceeded"
                  end)
  | S remaining' =>
      let next := request_loop config net remaining' (S attempt) in
      let backoff := _calculate_backoff config attempt (clock_hash net attempt) in
      match server net attempt with
      | RequestError =>
          after [Acquire; Send attempt; Sleep backoff] (next (Some NetworkError))
      | Response status_code header =>
          if (status_code =? 429)%Z then
            let retry_after := match header with Some n => n | None => 60%Z end in
            let wait_time := if (retry_after =? 0)%Z then backoff
                             else inject_Z retry_after in
            after [Acquire; Send attempt; Sleep wait_time]
                  (next (Some (RateLimitError retry_after)))
          else if (status_code =? 401)%Z then
            if (attempt =? 0)%nat then
              match refresh net with
              | Refreshed =>
                  after [Acquire; Send attempt; Refresh] (next last_exception)
              | RefreshRejected =>
                  ([Acquire; Send attempt; Refresh],
                   Raised (AuthenticationError "Refresh token expired. Please login again."))
              | RefreshUnreachable =>
                  ([Acquire; Send attempt; Refresh], Raised NetworkError)
              end
            else
              ([Acquire; Send attempt],
               Raised (AuthenticationError "Authentication failed"))
          else if is_success status_code then
            ([Acquire; Send attempt], Returned status_code)
          else if (500 <=? status_code)%Z then
            after [Acquire; Send attempt; Sleep backoff]
                  (next (Some (HTTPStatusError status_code)))
          else
            ([Acquire; Send attempt], Raised (SyncError "API error"))
      end
  end.

(** What a failed [_refresh_token] raises. *)
Definition refresh_error (o : refresh_outcome) : sync_exn :=
  match o with
  | RefreshUnreachable => NetworkError
  | _ => AuthenticationError "Refresh token expired. Please login again."
  end.

(** [_request]: [get_valid_token()] first, which raises when no token is
    stored and refreshes a token inside the refresh buffer, the error of a
    failed refresh leaving [_request]; [get_auth_header()] then finds the
    token in memory, and the loop starts. *)
Definition _request (config : SyncConfig) (net : network) : run :=
  let attempts := request_loop config net (Z.to_nat (max_retries config)) 0 None in
  match stored_token net with
  | NoToken =>
      ([], Raised (AuthenticationError
                     "No authentication token available. Please login."))
  | FreshToken => attempts
  | StaleToken Refreshed => after [Refresh] attempts
  | StaleToken failure => ([Refresh], Raised (refresh_error failure))
  end.

Definition is_refresh (a : action) : bool :=
  match a with Refresh => true | _ => false end.

Definition is_send (a : action) : bool :=
  match a with Send _ => true | _ => false end.

Definition count (p : action -> bool) (trace : list action) : nat :=
  List.length (filter p trace).

(** ** [RateLimiter] *)

Record RateLimiter : Type := {
  rpm_limit : Z;
  rph_limit : Z;
  minute_window : list Q;
  hour_window : list Q
}.

Definition new_limiter (requests_per_minute requests_per_hour : Z)
  : RateLimiter :=
  {| rpm_limit := requests_per_minute;
     rph_limit := requests_per_hour;
     minute_window := [];
     hour_window := [] |}.

(** The clock: its current reading, and how much time passes before each of
    the coming [time.time()] calls.  The list is also the fuel of the
    waiting loops, which read the clock once per round. *)
Record clock : Type := {
  now : Q;
  ticks : list Q
}.

Definition Qltb (a b : Q) : bool := if Qlt_le_dec a b then true else false.

(** [while window and window[0] < cutoff: window.popleft()] *)
Fixpoint prune (window : list Q) (cutoff : Q) : list Q :=
  match window with
  | t :: rest => if Qltb t cutoff then prune rest cutoff else window
  | [] => []
  end.

(** [await asyncio.sleep(wait_time)] behind [if wait_time > 0]. *)
Definition sleep_if_positive (wait_time : Q) (time : Q) : Q :=
  if Qltb 0 wait_time then time + wait_time else time.

(** One of the two [while len(window) >= limit] loops; [span] is 60 or
    3600 and [cutoff] the value of [minute_ago] or [hour_ago] on entry. *)
Fixpoint wait_for_room (limit : Z) (span : Q) (ticks : list Q) (time : Q)
         (window : list Q) (cutoff : Q) : Py.res (list Q * clock) :=
  if (limit <=? Z.of_nat (List.length window))%Z then
    match window with
    | [] => Py.Raise Py.IndexError
    | oldest :: _ =>
        let time := sleep_if_positive (oldest - cutoff) time in
        match ticks with
        | [] => Py.OutOfFuel
        | d :: ticks' =>
            let now := time + d in
            let cutoff := now - span in
            wait_for_room limit span ticks' now (prune window cutoff) cutoff
        end
    end
  else Py.Ok (window, {| now := time; ticks := ticks |}).

(** [RateLimiter.acquire]: the limiter and the clock afterwards, and the
    timestamp recorded for the grant. *)
Definition acquire (limiter : RateLimiter) (c : clock)
  : Py.res (Q * RateLimiter * clock) :=
  match ticks c with
  | [] => Py.OutOfFuel
  | d :: ticks0 =>
      let now0 := now c + d in
      let minute_ago := now0 - 60 in
      let hour_ago := now0 - 3600 in
      let minute0 := prune (minute_window limiter) minute_ago in
      let hour0 := prune (hour_window limiter) hour_ago in
      Py.bind (wait_for_room (rpm_limit limiter) 60 ticks0 now0 minute0 minute_ago)
              (fun '(minute1, c1) =>
      Py.bind (wait_for_room (rph_limit limiter) 3600 (ticks c1) (now c1) hour0 hour_ago)
              (fun '(hour1, c2) =>
      match ticks c2 with
      | [] => Py.OutOfFuel
      | d' :: ticks3 =>
          let stamp := now c2 + d' in
          Py.Ok (stamp,
                 {| rpm_limit := rpm_limit limiter;
                    rph_limit := rph_limit limiter;
                    minute_window := minute1 ++ [stamp];
                    hour_window := hour1 ++ [stamp] |},
                 {| now := stamp; ticks := ticks3 |})
      end))
  end.

(** [n] calls of [acquire] one after the other, and the timestamps they
    recorded, oldest first. *)
Fixpoint acquire_n (n : nat) (limiter : RateLimiter) (c : clock)
  : Py.res (list Q * RateLimiter * clock) :=
  match n with
  | O => Py.Ok ([], limiter, c)
  | S n' =>
      Py.bind (acquire limiter c) (fun '(stamp, limiter1, c1) =>
      Py.bind (acquire_n n' limiter1 c1) (fun '(stamps, limiter2, c2) =>
      Py.Ok (stamp :: stamps, limiter2, c2)))
  end.

(** The number of timestamps not older than [cutoff]. *)
Definition count_since (cutoff : Q) (stamps : list Q) : nat :=
  List.length (filter (fun t => negb (Qltb t cutoff)) stamps).

(** [remaining_minute] at clock reading [time]. *)
Definition remaining_minute (limiter : RateLimiter) (time : Q) : Z :=
  Z.max 0 (rpm_limit limiter
           - Z.of_nat (count_since (time - 60) (minute_window limiter))).

(** ** Vocabulary of the statements about the limiter *)

(** What ties a window to the timestamps recorded so far: the window is the
    tail of the record, and what it has dropped is older than [span] at
    clock reading [time]. *)
Definition tracks (span : Q) (stamps window : list Q) (time : Q) : Prop :=
  exists dropped,
    stamps = (dropped ++ window)%list
    /\ Forall (fun t => t < time - span) dropped.

(** Any [n + 1] consecutive timestamps span more than [span]. *)
Definition spaced (n : nat) (span : Q) (stamps : list Q) : Prop :=
  forall i t g,
    nth_error stamps i = Some t ->
    nth_error stamps (i + n) = Some g ->
    t + span < g.

(** The clock does not run backwards. *)
Definition steady (ticks : list Q) : Prop := Forall (fun d => 0 <= d) ticks.

(** The invariant of a limiter, its clock and the timestamps it has
    recorded. *)
Definition sound (limiter : RateLimiter) (c : clock) (stamps : list Q) : Prop :=
  tracks 60 stamps (minute_window limiter) (now c)
  /\ tracks 3600 stamps (hour_window limiter) (now c)
  /\ (Z.of_nat (List.length (minute_window limiter)) <= rpm_limit limiter)%Z
  /\ (Z.of_nat (List.length (hour_window limiter)) <= rph_limit limiter)%Z
  /\ spaced (Z.to_nat (rpm_limit limiter)) 60 stamps
  /\ spaced (Z.to_nat (rph_limit limiter)) 3600 stamps
  /\ steady (ticks c).

(** ** Vocabulary of further statements about the pipeline *)


(** The lengths of the sleeps of a trace, in order. *)
Definition sleeps (trace : list action) : list Q :=
  flat_map (fun a => match a with Sleep seconds => [seconds] | _ => [] end)
           trace.

(** A reply after which the loop sleeps and goes on with the next attempt:
    a request error, a 429, or a status of 500 and more. *)
Definition transient (r : reply) : bool :=
  match r with
  | RequestError => true
  | Response status_code _ => ((status_code =? 429) || (500 <=? status_code))%Z
  end.

(** [int(response.headers.get("Retry-After", 60))] *)
Definition retry_after_of (header : option Z) : Z :=
  match header with Some n => n | None => 60%Z end.

(** The exception that a transient reply leaves in [last_exception]. *)
Definition exception_of (r : reply) : sync_exn :=
  match r with
  | RequestError => NetworkError
  | Response status_code header =>
      if (status_code =? 429)%Z then RateLimitError (retry_after_of header)
      else HTTPStatusError status_code
  end.


(** The reply is a 401. *)
Definition unauthorized (r : reply) : bool :=
  match r with
  | Response status_code _ => (status_code =? 401)%Z
  | RequestError => false
  end.

(** [get_valid_token()] returns a token: one is stored, and when it was
    inside the refresh buffer its refresh succeeded. *)
Definition token_available (t : token_state) : bool :=
  match t with
  | FreshToken | StaleToken Refreshed => true
  | _ => false
  end.

(** The refreshes that [get_valid_token()] makes. *)
Definition lookup_refreshes (t : token_state) : nat :=
  match t with
  | StaleToken _ => 1
  | _ => 0
  end.
Local Close Scope Q_scope.
Import Py.

(** ** JSON

    The text that [json.dumps] writes and [json.loads] reads is kept as the
    document it spells. *)
Inductive json : Type :=
| JNull
| JBool (b : bool)
| JInt (z : Z)
| JFloat (f : num)
| JString (s : string)
| JArray (items : list json)
| JObject (members : list (string * json)).

(** What the Python runtime supplies: [datetime] with [isoformat] and
    [fromisoformat], [repr] of a float, and the hash of the canonical
    encoding, [hashlib.sha256(json.dumps(data, sort_keys=True,
    default=str).encode()).hexdigest()]. *)
Class Runtime : Type := {
  datetime : Type;
  isoformat : datetime -> string;
  fromisoformat : string -> datetime;
  float_repr : num -> string;
  sha256_of_canonical_json : pyval -> string
}.

Section Store.

Context {runtime : Runtime}.

(** [str(z)] *)
Definition str_of_int (z : Z) : string := NilZero.string_of_int (Z.to_int z).

(** The member name [json.dumps] writes for a dictionary key. *)
Definition json_key (k : pyval) : res string :=
  match k with
  | VStr s => Ok s
  | VFloat f => Ok (float_repr f)
  | VBool true => Ok "true"%string
  | VBool false => Ok "false"%string
  | VNone => Ok "null"%string
  | VInt z => Ok (str_of_int z)
  | _ => Raise TypeError
  end.

(** [json.dumps(v)] *)
Fixpoint json_dumps (v : pyval) : res json :=
  match v with
  | VNone => Ok JNull
  | VBool b => Ok (JBool b)
  | VInt z => Ok (JInt z)
  | VFloat f => Ok (JFloat f)
  | VStr s => Ok (JString s)
  | VList items =>
      bind ((fix each (l : list pyval) : res (list json) :=
               match l with
               | [] => Ok []
               | x :: rest =>
                   bind (json_dumps x) (fun j =>
                   bind (each rest) (fun js => Ok (j :: js)))
               end) items)
           (fun js => Ok (JArray js))
  | VDict members =>
      bind ((fix each (l : list (pyval * pyval)) : res (list (string * json)) :=
               match l with
               | [] => Ok []
               | (k, x) :: rest =>
                   bind (json_key k) (fun name =>
                   bind (json_dumps x) (fun j =>
                   bind (each rest) (fun ms => Ok ((name, j) :: ms))))
               end) members)
           (fun ms => Ok (JObject ms))
  end.

(** [json.loads(j)]: a repeated member name keeps its first place and its
    last value. *)
Fixpoint json_loads (j : json) : pyval :=
  match j with
  | JNull => VNone
  | JBool b => VBool b
  | JInt z => VInt z
  | JFloat f => VFloat f
  | JString s => VStr s
  | JArray items => VList (map json_loads items)
  | JObject members =>
      VDict ((fix each (l : list (string * json)) (d : pydict) : pydict :=
                match l with
                | [] => d
                | (name, x) :: rest =>
                    each rest (assoc_set key_eqb d (VStr name) (json_loads x))
                end) members [])
  end.

(** ** [SyncItem] *)

Inductive SyncStatus : Type :=
| PENDING | UPLOADING | UPLOADED | FAILED | CONFLICT.

Inductive SyncDirection : Type :=
| UPLOAD | DOWNLOAD.

Definition status_value (s : SyncStatus) : string :=
  match s with
  | PENDING => "pending"
  | UPLOADING => "uploading"
  | UPLOADED => "uploaded"
  | FAILED => "failed"
  | CONFLICT => "conflict"
  end.

Definition direction_value (d : SyncDirection) : string :=
  match d with
  | UPLOAD => "upload"
  | DOWNLOAD => "download"
  end.

(** [SyncStatus(value)] *)
Definition status_of_value (value : string) : res SyncStatus :=
  if String.eqb value "pending" then Ok PENDING
  else if String.eqb value "uploading" then Ok UPLOADING
  else if String.eqb value "uploaded" then Ok UPLOADED
  else if String.eqb value "failed" then Ok FAILED
  else if String.eqb value "conflict" then Ok CONFLICT
  else Raise ValueError.

(** [SyncDirection(value)] *)
Definition direction_of_value (value : string) : res SyncDirection :=
  if String.eqb value "upload" then Ok UPLOAD
  else if String.eqb value "download" then Ok DOWNLOAD
  else Raise ValueError.

Record SyncItem : Type := {
  id : string;
  item_type : string;
  data : pyval;
  direction : SyncDirection;
  status : SyncStatus;
  created_at : datetime;
  updated_at : datetime;
  attempts : Z;
  last_error : option string;
  checksum : option string
}.

Definition _calculate_checksum (item : SyncItem) : string :=
  sha256_of_canonical_json (data item).

Definition __post_init__ (item : SyncItem) : SyncItem :=
  match checksum item with
  | None =>
      {| id := id item; item_type := item_type item; data := data item;
         direction := direction item; status := status item;
         created_at := created_at item; updated_at := updated_at item;
         attempts := attempts item; last_error := last_error item;
         checksum := Some (_calculate_checksum item) |}
  | Some _ => item
  end.

(** ** [LocalCache]: the [sync_queue] table *)

Record row : Type := {
  row_id : string;
  row_item_type : string;
  row_direction : string;
  row_status : string;
  row_data : json;
  row_checksum : option string;
  row_created_at : string;
  row_updated_at : string;
  row_attempts : Z;
  row_last_error : option string
}.

(** The rows in the order they were inserted; [id] is the primary key. *)
Definition sync_queue : Type := list row.

(** [enqueue]: INSERT OR REPLACE drops the row of the same [id], if any,
    and adds the new one. *)
Definition enqueue (queue : sync_queue) (item : SyncItem) : res sync_queue :=
  bind (json_dumps (data item)) (fun text =>
  Ok (filter (fun r => negb (String.eqb (row_id r) (id item))) queue
      ++ [{| row_id := id item;
             row_item_type := item_type item;
             row_direction := direction_value (direction item);
             row_status := status_value (status item);
             row_data := text;
             row_checksum := checksum item;
             row_created_at := isoformat (created_at item);
             row_updated_at := isoformat (updated_at item);
             row_attempts := attempts item;
             row_last_error := last_error item |}])).

(** ORDER BY created_at ASC: the texts are compared, and rows with equal
    texts stay in table order.  [r] stands in the table before the rows of
    [sorted], so it goes before the first of them whose text is not
    smaller than its own. *)
Fixpoint insert_by_created_at (r : row) (sorted : list row) : list row :=
  match sorted with
  | [] => [r]
  | r' :: rest =>
      if String.leb (row_created_at r) (row_created_at r')
      then r :: sorted
      else r' :: insert_by_created_at r rest
  end.

Definition order_by_created_at (rows : list row) : list row :=
  fold_right insert_by_created_at [] rows.

(** LIMIT: a negative limit is no limit. *)
Definition sql_limit (limit : Z) (rows : list row) : list row :=
  if (limit <? 0)%Z then rows else firstn (Z.to_nat limit) rows.

(** The [SyncItem(...)] call on one fetched row. *)
Definition item_of_row (r : row) : res SyncItem :=
  bind (direction_of_value (row_direction r)) (fun d =>
  bind (status_of_value (row_status r)) (fun s =>
  Ok (__post_init__
        {| id := row_id r;
           item_type := row_item_type r;
           data := json_loads (row_data r);
           direction := d;
           status := s;
           created_at := fromisoformat (row_created_at r);
           updated_at := fromisoformat (row_updated_at r);
           attempts := row_attempts r;
           last_error := row_last_error r;
           checksum := row_checksum r |}))).

Fixpoint items_of_rows (rows : list row) : res (list SyncItem) :=
  match rows with
  | [] => Ok []
  | r :: rest =>
      bind (item_of_row r) (fun item =>
      bind (items_of_rows rest) (fun items => Ok (item :: items)))
  end.

Definition dequeue_batch (queue : sync_queue) (direction : SyncDirection)
           (status : SyncStatus) (limit : Z) : res (list SyncItem) :=
  let rows :=
    sql_limit limit
      (order_by_created_at
         (filter (fun r => String.eqb (row_direction r) (direction_value direction)
                           && String.eqb (row_status r) (status_value status))
                 queue)) in
  items_of_rows rows.

(** The UPDATE of [update_item_status] on one row. *)
Definition set_status (status : SyncStatus) (error : option string)
           (time : datetime) (r : row) : row :=
  {| row_id := row_id r;
     row_item_type := row_item_type r;
     row_direction := row_direction r;
     row_status := status_value status;
     row_data := row_data r;
     row_checksum := row_checksum r;
     row_created_at := row_created_at r;
     row_updated_at := isoformat time;
     row_attempts := (row_attempts r + 1)%Z;
     row_last_error := error |}.

(** [update_item_status]; [time] is [datetime.now(timezone.utc)]. *)
Definition update_item_status (queue : sync_queue) (item_id : string)
           (status : SyncStatus) (error : option string) (time : datetime)
  : sync_queue :=
  map (fun r => if String.eqb (row_id r) item_id
                then set_status status error time r else r) queue.

Definition remove_item (queue : sync_queue) (item_id : string) : sync_queue :=
  filter (fun r => negb (String.eqb (row_id r) item_id)) queue.

(** [clear_completed]; [cutoff] is the text of the cutoff time.  The rows
    left and the number deleted. *)
Definition clear_completed (queue : sync_queue) (cutoff : string)
  : sync_queue * Z :=
  let doomed r := String.eqb (row_status r) (status_value UPLOADED)
                  && String.ltb (row_updated_at r) cutoff in
  (filter (fun r => negb (doomed r)) queue,
   Z.of_nat (List.length (filter doomed queue))).

(** ** [SyncClient._process_upload_batch] *)

(** One element of the [results] list of a batch response. *)
Record item_result : Type := {
  result_id : string;
  success : bool;
  error : option string
}.

(** How the [_request] of one batch ends: a response carrying per-item
    results, or an exception. *)
Inductive upload_reply : Type :=
| Results (results : list item_result)
| Failure (e : sync_exn).

(** The server side of a batch upload and the clock read by the updates. *)
Record backend : Type := {
  respond : string -> list SyncItem -> upload_reply;
  time_at : nat -> datetime
}.

Record SyncResult : Type := {
  result_success : bool;
  items_processed : Z;
  items_failed : Z;
  errors : list string
}.

(** The store, the number of clock readings so far and the [results]
    dictionary while a batch is processed. *)
Record progress : Type := {
  queue : sync_queue;
  readings : nat;
  processed : Z;
  failed : Z;
  error_log : list string
}.

(** [str(e)], without the details the messages interpolate. *)
Definition str_of_exn (e : sync_exn) : string :=
  match e with
  | SyncError message => message
  | AuthenticationError message => message
  | RateLimitError _ => "Rate limit exceeded"
  | NetworkError => "Network error"
  | HTTPStatusError _ => "HTTP status error"
  end.

(** [by_type.setdefault(item.item_type, []).append(item)] *)
Fixpoint add_to_group (by_type : list (string * list SyncItem))
         (item : SyncItem) : list (string * list SyncItem) :=
  match by_type with
  | [] => [(item_type item, [item])]
  | (t, type_items) :: rest =>
      if String.eqb t (item_type item) then (t, type_items ++ [item]) :: rest
      else (t, type_items) :: add_to_group rest item
  end.

Definition group_by_type (items : list SyncItem)
  : list (string * list SyncItem) :=
  fold_left add_to_group items [].

(** The body of [for item_result in response_data.get("results", [])]. *)
Definition apply_result (b : backend) (p : progress) (r : item_result)
  : progress :=
  if success r then
    {| queue := update_item_status (queue p) (result_id r) UPLOADED None
                                   (time_at b (readings p));
       readings := S (readings p);
       processed := (processed p + 1)%Z;
       failed := failed p;
       error_log := error_log p |}
  else
    let message := match error r with
                   | Some m => m
                   | None => "Unknown error"%string
                   end in
    {| queue := update_item_status (queue p) (result_id r) FAILED (Some message)
                                   (time_at b (readings p));
       readings := S (readings p);
       processed := processed p;
       failed := (failed p + 1)%Z;
       error_log := error_log p ++ [(result_id r ++ ": " ++ message)%string] |}.

(** The body of [for item in type_items] in the [except SyncError] branch. *)
Definition fail_item (b : backend) (message : string) (p : progress)
           (item : SyncItem) : progress :=
  {| queue := update_item_status (queue p) (id item) FAILED (Some message)
                                 (time_at b (readings p));
     readings := S (readings p);
     processed := processed p;
     failed := (failed p + 1)%Z;
     error_log := error_log p ++ [(id item ++ ": " ++ message)%string] |}.

(** The loop over the groups; an exception that is not a [SyncError]
    escapes with the store as it is by then. *)
Fixpoint process_groups (b : backend) (groups : list (string * list SyncItem))
         (p : progress) : progress * option sync_exn :=
  match groups with
  | [] => (p, None)
  | (t, type_items) :: rest =>
      match respond b t type_items with
      | Results results =>
          process_groups b rest (fold_left (apply_result b) results p)
      | Failure e =>
          if is_sync_error e then
            process_groups b rest
                           (fold_left (fail_item b (str_of_exn e)) type_items p)
          else (p, Some e)
      end
  end.

(** [_process_upload_batch]: the store afterwards and the [SyncResult]
    returned or the exception raised. *)
Definition _process_upload_batch (b : backend) (store : sync_queue)
           (items : list SyncItem) : sync_queue * (SyncResult + sync_exn) :=
  match items with
  | [] =>
      (store, inl {| result_success := true; items_processed := 0;
                     items_failed := 0; errors := [] |})
  | _ =>
      let start := {| queue := store; readings := 0; processed := 0;
                      failed := 0; error_log := [] |} in
      match process_groups b (group_by_type items) start with
      | (p, None) =>
          (queue p, inl {| result_success := (failed p =? 0)%Z;
                           items_processed := processed p;
                           items_failed := failed p;
                           errors := error_log p |})
      | (p, Some e) => (queue p, inr e)
      end
  end.

(** The status recorded for [item_id], if the store has it. *)
Definition stored_status (store : sync_queue) (item_id : string)
  : option string :=
  match find (fun r => String.eqb (row_id r) item_id) store with
  | Some r => Some (row_status r)
  | None => None
  end.

(** ** Vocabulary of the statements about the store *)

(** The status text that [_process_upload_batch] writes for a verdict of
    the server. *)
Definition verdict_status (ok : bool) : string :=
  status_value (if ok then UPLOADED else FAILED).

(** The result by which a server reports [ok item] (and the error
    [why item]) for [item]. *)
Definition verdict (ok : SyncItem -> bool) (why : SyncItem -> option string)
           (item : SyncItem) : item_result :=
  {| result_id := id item; success := ok item; error := why item |}.

(** The status the results [rs], applied in order, leave for the item [j]
    that had status [old]. *)
Fixpoint status_after (rs : list item_result) (j : string) (old : string)
  : string :=
  match rs with
  | [] => old
  | r :: rest =>
      status_after rest j
        (if String.eqb j (result_id r) then verdict_status (success r) else old)
  end.

Definition is_str (v : pyval) : bool :=
  match v with VStr _ => true | _ => false end.

Fixpoint distinct_keys (ks : list pyval) : bool :=
  match ks with
  | [] => true
  | k :: rest => negb (existsb (key_eqb k) rest) && distinct_keys rest
  end.

(** The values that JSON has as they are: every dictionary key is a string
    (and, the dictionary being one, occurs once). *)
Fixpoint json_native (v : pyval) : bool :=
  match v with
  | VList items => forallb json_native items
  | VDict members =>
      forallb (fun kv => is_str (fst kv) && json_native (snd kv)) members
      && distinct_keys (keys members)
  | _ => true
  end.

(** The inner loops of [json_dumps] and [json_loads], by name. *)
Definition dumps_items :=
  fix each (l : list pyval) : res (list json) :=
    match l with
    | [] => Ok []
    | x :: rest =>
        bind (json_dumps x) (fun j =>
        bind (each rest) (fun js => Ok (j :: js)))
    end.

Definition dumps_members :=
  fix each (l : list (pyval * pyval)) : res (list (string * json)) :=
    match l with
    | [] => Ok []
    | (k, x) :: rest =>
        bind (json_key k) (fun name =>
        bind (json_dumps x) (fun j =>
        bind (each rest) (fun ms => Ok ((name, j) :: ms))))
    end.

Definition loads_members :=
  fix each (l : list (string * json)) (d : pydict) : pydict :=
    match l with
    | [] => d
    | (name, x) :: rest =>
        each rest (assoc_set key_eqb d (VStr name) (json_loads x))
    end.

(** ** Vocabulary of further statements about the store *)

(** The rows that the SELECT of [dequeue_batch] fetches. *)
Definition selected_rows (queue : sync_queue) (direction : SyncDirection)
           (status : SyncStatus) (limit : Z) : list row :=
  sql_limit limit
    (order_by_created_at
       (filter (fun r => String.eqb (row_direction r) (direction_value direction)
                         && String.eqb (row_status r) (status_value status))
               queue)).

(** The WHERE clause of [dequeue_batch]. *)
Definition selects (direction : SyncDirection) (status : SyncStatus) (r : row)
  : bool :=
  String.eqb (row_direction r) (direction_value direction)
  && String.eqb (row_status r) (status_value status).

(** The place in the table of the row of an id, counted from 0 (the length
    of the table when no row has the id). *)
Fixpoint place (item_id : string) (queue : sync_queue) : nat :=
  match queue with
  | [] => 0
  | r :: rest =>
      if String.eqb (row_id r) item_id then 0 else S (place item_id rest)
  end.

(** One row is older than another: its [created_at] text is the smaller
    one or, the texts being equal, it stands earlier in the table. *)
Definition older (queue : sync_queue) (r r' : row) : Prop :=
  String.ltb (row_created_at r) (row_created_at r') = true
  \/ (row_created_at r = row_created_at r'
      /\ place (row_id r) queue < place (row_id r') queue).

(** [rows] are the [limit] oldest of the rows of the table that have the
    direction and the status (all of them when there are fewer, or when the
    limit is negative), the oldest first: they are such rows, as many as
    said, each older than those after it, and each older than every such
    row that is left out. *)
Definition oldest_first (queue : sync_queue) (direction : SyncDirection)
           (status : SyncStatus) (limit : Z) (rows : list row) : Prop :=
  (forall r, In r rows -> In r queue /\ selects direction status r = true)
  /\ List.length rows
     = (let matching := List.length (filter (selects direction status) queue) in
        if (limit <? 0)%Z then matching
        else Nat.min (Z.to_nat limit) matching)
  /\ StronglySorted (older queue) rows
  /\ (forall r r',
        In r rows -> In r' queue -> selects direction status r' = true ->
        ~ In r' rows -> older queue r r').

(** The columns that [update_item_status] does not write. *)
Definition fixed_columns (r : row)
  : string * string * string * json * option string * string :=
  (row_id r, row_item_type r, row_direction r, row_data r, row_checksum r,
   row_created_at r).

Definition has_id (item_id : string) (r : row) : bool :=
  String.eqb (row_id r) item_id.

Definition has_status (status : string) (r : row) : bool :=
  String.eqb (row_status r) status.

Definition has_type (t : string) (item : SyncItem) : bool :=
  String.eqb (item_type item) t.

(** ** [LocalCache.get_queue_stats]

    The rows of the SELECT that counts per status, made into a dictionary:
    one entry for each status that some row has. *)
Fixpoint count_row (stats : list (string * Z)) (status : string)
  : list (string * Z) :=
  match stats with
  | [] => [(status, 1%Z)]
  | (s, n) :: rest =>
      if String.eqb s status then (s, (n + 1)%Z) :: rest
      else (s, n) :: count_row rest status
  end.

Definition get_queue_stats (queue : sync_queue) : list (string * Z) :=
  fold_left (fun stats r => count_row stats (row_status r)) queue [].

(** ** [SyncClient.flush_upload_queue] *)

Definition flush_upload_queue (b : backend) (config : SyncConfig)
           (store : sync_queue)
  : res (sync_queue * (SyncResult + sync_exn)) :=
  bind (dequeue_batch store UPLOAD PENDING (max_batch_size config))
       (fun pending =>
          match pending with
          | [] => Ok (store, inl {| result_success := true;
                                    items_processed := 0;
                                    items_failed := 0;
                                    errors := [] |})
          | _ => Ok (_process_upload_batch b store pending)
          end).

End Store.

End Sync.

(* ===================================================================== *)
(** * Inputs of the examples                                               *)
(* ===================================================================== *)

Module Examples.
Import Py Watcher Sync.

(** [s] between double quotes. *)
Definition quoted (s : string) : text := dquote :: lit s ++ [dquote].

(** The table with the keys 2 and 1, in this order, and double-quoted
    values b and a. *)
Definition out_of_order : text :=
  lit "{ [2]=" ++ quoted "b" ++ lit ", [1]=" ++ quoted "a" ++ lit " }".

Definition mixed_table : text := lit "{ 'a', [2]='b' }".

(** One assignment, [a], whose table ends in an unterminated string and
    holds the pair [b = { 1 }]. *)
Definition broken_file : text :=
  lit "a = { b = { 1 }, " ++ [dquote] ++ lit "x".

(** A 503 first, 401 from then on. *)
Definition late_401 : network :=
  {| stored_token := FreshToken;
     server := fun k => match k with
                        | 0 => Response 503 None
                        | _ => Response 401 None
                        end;
     refresh := Refreshed;
     clock_hash := fun _ => 0%Z |}.

(** A 401 first, 200 from then on. *)
Definition early_401 : network :=
  {| stored_token := FreshToken;
     server := fun k => match k with
                        | 0 => Response 401 None
                        | _ => Response 200 None
                        end;
     refresh := Refreshed;
     clock_hash := fun _ => 0%Z |}.

Definition single_attempt : SyncConfig :=
  {| max_batch_size := 50; max_retries := 1; base_retry_delay := 1;
     max_retry_delay := 60; requests_per_minute := 60;
     requests_per_hour := 1000 |}.

Definition limited_once (header : option Z) : network :=
  {| stored_token := FreshToken;
     server := fun k => match k with
                        | 0 => Response 429 header
                        | _ => Response 200 None
                        end;
     refresh := Refreshed;
     clock_hash := fun _ => 0%Z |}.

(** A runtime for the examples: a time is its ISO text; the float
    [repr] and the hash are stand-ins that the examples do not look at. *)
Definition text_runtime : Runtime :=
  {| datetime := string;
     isoformat := fun d => d;
     fromisoformat := fun s => s;
     float_repr := fun _ => "0.0"%string;
     sha256_of_canonical_json := fun _ => "sha256"%string |}.

(** A pending upload with the given id. *)
Definition upload (n : string) : SyncItem (runtime := text_runtime) :=
  @Build_SyncItem text_runtime
    n "combat_run"
    (VDict [(VStr "run_id", VStr n); (VStr "success", VBool true)])
    UPLOAD PENDING
    ("2024-01-01T00:00:0" ++ n ++ "+00:00")%string
    ("2024-01-01T00:00:0" ++ n ++ "+00:00")%string
    0%Z None (Some "sha256"%string).

Definition batch : list SyncItem :=
  map upload ["1"; "2"; "3"; "4"; "5"]%string.

(** The store after the items of [batch] were enqueued. *)
Definition batch_store : sync_queue :=
  fold_left (fun store item => match enqueue store item with
                               | Ok store' => store'
                               | _ => store
                               end) batch [].

Definition third_row : row :=
  {| row_id := "3";
     row_item_type := "combat_run";
     row_direction := "upload";
     row_status := "pending";
     row_data := JObject [("run_id", JString "3"); ("success", JBool true)]%string;
     row_checksum := Some "sha256"%string;
     row_created_at := "2024-01-01T00:00:03+00:00";
     row_updated_at := "2024-01-01T00:00:03+00:00";
     row_attempts := 0%Z;
     row_last_error := None |}.

(** A store whose only row is a failed upload. *)
Definition settled_store : sync_queue :=
  update_item_status (runtime := text_runtime) [third_row] "3" FAILED
                     (Some "rejected"%string) "2024-01-02T00:00:00+00:00"%string.

(** The server accepts every item but the one with id 3. *)
Definition accepted (item : SyncItem (runtime := text_runtime)) : bool :=
  negb (String.eqb (id item) "3").

Definition complaint (item : SyncItem (runtime := text_runtime))
  : option string :=
  if accepted item then None else Some "rejected"%string.

Definition picky_server : backend :=
  @Build_backend text_runtime
    (fun _ type_items => Results (map (verdict accepted complaint) type_items))
    (fun _ => "2024-01-02T00:00:00+00:00"%string).

(** An upload whose payload is a table with the integer key 5, as
    [{ [5] = 'x' }] parses. *)
Definition keyed_upload : SyncItem (runtime := text_runtime) :=
  @Build_SyncItem text_runtime
    "k" "combat_run" (VDict [(VInt 5, VStr "x")]) UPLOAD PENDING
    "2024-01-01T00:00:00+00:00"%string "2024-01-01T00:00:00+00:00"%string
    0%Z None (Some "sha256"%string).

(** A clock at 0 of which every reading comes one second after the one
    before. *)
Definition busy_clock : clock :=
  {| now := 0%Q; ticks := repeat 1%Q 7 |}.



(** A limiter of one request per minute that granted one at time 0. *)
Definition used_limiter : RateLimiter :=
  {| rpm_limit := 1; rph_limit := 10;
     minute_window := [0%Q]; hour_window := [0%Q] |}.

(** The store after the third item of [batch] was enqueued once more. *)
Definition requeued_store : sync_queue :=
  match enqueue batch_store (upload "3") with
  | Ok store' => store'
  | _ => []
  end.

(** Every batch request ends in a network error. *)
Definition outage : backend :=
  @Build_backend text_runtime
    (fun _ _ => Failure NetworkError)
    (fun _ => "2024-01-02T00:00:00+00:00"%string).

(** Every batch request ends in the error of a 503 after the retries. *)
Definition broken_server : backend :=
  @Build_backend text_runtime
    (fun _ _ => Failure (HTTPStatusError 503))
    (fun _ => "2024-01-02T00:00:00+00:00"%string).

(** Batches of two. *)
Definition small_batches : SyncConfig :=
  {| max_batch_size := 2; max_retries := 5; base_retry_delay := 1;
     max_retry_delay := 60; requests_per_minute := 60;
     requests_per_hour := 1000 |}.

(** The text [say "hi"], with its two double quotes. *)
Definition quotation : text := lit "say " ++ quoted "hi".

(** Saved data with four combat runs: one with the id r1, one with the id
    r2 under the other spelling of the key, the first once more, and one
    without an id. *)
Definition first_run : pydict := [(VStr "run_id", VStr "r1")].
Definition second_run : pydict := [(VStr "runId", VStr "r2")].
Definition saved_runs : pydict :=
  [(VStr "combatRuns",
    VList [VDict first_run; VDict second_run; VDict first_run; VDict []])].

(** A pending upload of the other item type. *)
Definition snapshot : SyncItem (runtime := text_runtime) :=
  @Build_SyncItem text_runtime
    "6" "build_snapshot" (VDict [(VStr "class", VStr "Sorcerer")])
    UPLOAD PENDING
    "2024-01-01T00:00:06+00:00"%string "2024-01-01T00:00:06+00:00"%string
    0%Z None (Some "sha256"%string).

Definition mixed_batch : list SyncItem := batch ++ [snapshot].

Definition mixed_store : sync_queue :=
  match enqueue batch_store snapshot with
  | Ok store' => store'
  | _ => []
  end.

(** The requests for build snapshots end in a network error. *)
Definition snapshots_fail (t : string) : option sync_exn :=
  if String.eqb t "build_snapshot" then Some NetworkError else None.

Definition moody_server : backend :=
  @Build_backend text_runtime
    (fun t type_items =>
       match snapshots_fail t with
       | Some e => Failure e
       | None => Results (map (verdict accepted complaint) type_items)
       end)
    (fun _ => "2024-01-02T00:00:00+00:00"%string).

(** Saved data in which the id of the second run is the table [{ 1 }]. *)
Definition tabled_runs : pydict :=
  [(VStr "combatRuns",
    VList [VDict first_run; VDict [(VStr "run_id", VList [VInt 1])];
           VDict second_run])].


(** A stored token inside the refresh buffer, and a server that answers the
    first request with a 401 all the same. *)
Definition stale_401 : network :=
  {| stored_token := StaleToken Refreshed;
     server := fun k => match k with
                        | 0 => Response 401 None
                        | _ => Response 200 None
                        end;
     refresh := Refreshed;
     clock_hash := fun _ => 0%Z |}.


(** An upload created at the one time that all its like are created at. *)
Definition same_time (n : string) : SyncItem (runtime := text_runtime) :=
  @Build_SyncItem text_runtime
    n "combat_run"
    (VDict [(VStr "run_id", VStr n); (VStr "success", VBool true)])
    UPLOAD PENDING
    "2024-01-01T00:00:00+00:00"%string
    "2024-01-01T00:00:00+00:00"%string
    0%Z None (Some "sha256"%string).

(** The store after three such uploads were enqueued. *)
Definition tied_store : sync_queue :=
  fold_left (fun store item => match enqueue store item with
                               | Ok store' => store'
                               | _ => store
                               end)
            (map same_time ["b"; "e"; "h"]%string) [].



End Examples.
Unset Implicit Arguments.

(* ===================================================================== *)
(** * The retry delay                                                     *)
(* ===================================================================== *)

Section Backoff.
Import Sync.
Local Open Scope Q_scope.

Lemma py_min_le_r (a b : Q) : py_min a b <= b.
Proof. unfold py_min. destruct (Qlt_le_dec b a); lra. Qed.

Lemma py_min_le_l (a b : Q) : py_min a b <= a.
Proof. unfold py_min. destruct (Qlt_le_dec b a); lra. Qed.

Lemma py_min_mono (a a' b : Q) : a <= a' -> py_min a b <= py_min a' b.
Proof.
  unfold py_min. intros H.
  destruct (Qlt_le_dec b a), (Qlt_le_dec b a'); lra.
Qed.

(** [hash(time.time()) % 100] lies in 0..99, so the jitter is between 0 and
    24.75 percent of the delay. *)
Lemma jitter_share_bounds (h : Z) :
  0 <= inject_Z (h mod 100) /\ inject_Z (h mod 100) <= 99.
Proof.
  assert (H : (0 <= h mod 100 < 100)%Z) by (apply Z.mod_pos_bound; lia).
  split.
  - change 0 with (inject_Z 0). rewrite <- Zle_Qle. lia.
  - change 99 with (inject_Z 99). rewrite <- Zle_Qle. lia.
Qed.

Lemma pow2_doubles (a b : nat) :
  (a < b)%nat -> 2 * inject_Z (2 ^ Z.of_nat a) <= inject_Z (2 ^ Z.of_nat b).
Proof.
  intros H. change 2 with (inject_Z 2). rewrite <- inject_Z_mult, <- Zle_Qle.
  replace (Z.of_nat b) with (Z.of_nat a + 1 + Z.of_nat (b - a - 1))%Z by lia.
  rewrite !Z.pow_add_r by lia.
  assert (0 < 2 ^ Z.of_nat a)%Z by (apply Z.pow_pos_nonneg; lia).
  assert (0 < 2 ^ Z.of_nat (b - a - 1))%Z by (apply Z.pow_pos_nonneg; lia).
  change (2 ^ 1)%Z with 2%Z. nia.
Qed.

Lemma pow2_positive (a : nat) : 0 < inject_Z (2 ^ Z.of_nat a).
Proof.
  change 0 with (inject_Z 0). rewrite <- Zlt_Qlt. apply Z.pow_pos_nonneg; lia.
Qed.

(** C8.  No computed delay exceeds [max_retry_delay].  With a base delay
    that is not negative, the delay computed for an attempt is at most every
    delay that can be computed for a later attempt, whatever the two clock
    hashes (hence whatever the two jitters, which range over 0 to 24.75
    percent of the uncapped delay). *)
Theorem backoff_monotone_and_capped
        (config : SyncConfig) (a b : nat) (h1 h2 : Z) :
  _calculate_backoff config a h1 <= max_retry_delay config
  /\ (0 <= base_retry_delay config ->
      (a < b)%nat ->
      _calculate_backoff config a h1 <= _calculate_backoff config b h2).
Proof.
  unfold _calculate_backoff. split; [apply py_min_le_r |].
  intros Hbase Hab. apply py_min_mono.
  pose proof (pow2_doubles a b Hab) as Hpow.
  pose proof (pow2_positive a) as Ha.
  destruct (jitter_share_bounds h1) as [L1 U1].
  destruct (jitter_share_bounds h2) as [L2 U2].
  set (A := inject_Z (2 ^ Z.of_nat a)) in *.
  set (B := inject_Z (2 ^ Z.of_nat b)) in *.
  set (m1 := inject_Z (h1 mod 100)) in *.
  set (m2 := inject_Z (h2 mod 100)) in *.
  set (base := base_retry_delay config) in *.
  assert (HX : 0 <= base * A) by (apply Qmult_le_0_compat; lra).
  assert (HY : 2 * (base * A) <= base * B).
  { assert (0 <= base * (B - 2 * A)) by (apply Qmult_le_0_compat; lra).
    lra. }
  assert (P1 : base * A * m1 <= base * A * 99).
  { assert (0 <= base * A * (99 - m1)) by (apply Qmult_le_0_compat; lra).
    lra. }
  assert (P2 : 0 <= base * B * m2) by (apply Qmult_le_0_compat; lra).
  setoid_replace (base * A + base * A * (25 # 100) * m1 / 100)
    with (base * A + base * A * m1 * (1 # 400)) by field.
  setoid_replace (base * B + base * B * (25 # 100) * m2 / 100)
    with (base * B + base * B * m2 * (1 # 400)) by field.
  lra.
Qed.

Lemma backoff_monotone_and_capped_witness :
  _calculate_backoff default_config 0 99 <= _calculate_backoff default_config 1 0.
Proof.
  apply (proj2 (backoff_monotone_and_capped default_config 0 1 99 0)).
  - unfold Qle. simpl. lia.
  - lia.
Defined.

End Backoff.

(* ===================================================================== *)
(** * The request pipeline                                                *)
(* ===================================================================== *)

Section Request.
Import Sync Examples.

Lemma count_app (p : action -> bool) (xs ys : list action) :
  count p (xs ++ ys) = count p xs + count p ys.
Proof. unfold count. rewrite filter_app, length_app. reflexivity. Qed.

Lemma count_after (p : action -> bool) (done : list action) (r : run) :
  count p (fst (after done r)) = count p done + count p (fst r).
Proof. unfold after. simpl. apply count_app. Qed.

(** After the first attempt no token refresh takes place. *)
Lemma no_refresh_after_first config net n k last :
  count is_refresh (fst (request_loop config net n (S k) last)) = 0.
Proof.
  revert k last. induction n as [| n IH]; intros k last; [reflexivity |].
  cbn [request_loop].
  destruct (server net (S k)) as [status header |].
  - destruct (status =? 429)%Z.
    + rewrite count_after, IH. reflexivity.
    + destruct (status =? 401)%Z; [reflexivity |].
      destruct (is_success status); [reflexivity |].
      destruct (500 <=? status)%Z; [| reflexivity].
      rewrite count_after, IH. reflexivity.
  - rewrite count_after, IH. reflexivity.
Qed.

(** Each attempt sends one request. *)
Lemma sends_bounded config net n k last :
  count is_send (fst (request_loop config net n k last)) <= n.
Proof.
  revert k last. induction n as [| n IH]; intros k last; [unfold count; simpl; lia |].
  assert (step : forall done last',
             count is_send done = 1 ->
             count is_send
               (fst (after done (request_loop config net n (S k) last')))
             <= S n).
  { intros done last' Hd. rewrite count_after, Hd.
    specialize (IH (S k) last'). lia. }
  cbn [request_loop].
  destruct (server net k) as [status header |]; [| apply step; reflexivity].
  destruct (status =? 429)%Z; [apply step; reflexivity |].
  destruct (status =? 401)%Z.
  - destruct (k =? 0); [| unfold count; simpl; lia].
    destruct (refresh net); [apply step; reflexivity | |];
      unfold count; simpl; lia.
  - destruct (is_success status); [unfold count; simpl; lia |].
    destruct (500 <=? status)%Z; [apply step; reflexivity |].
    unfold count; simpl; lia.
Qed.

(** What the token lookup leaves of a [_request] call: nothing when no token
    is stored, a lone refresh when the refresh of a stale token fails, and
    otherwise the loop, after the refresh of a stale token. *)
Lemma request_with_token config net :
  token_available (stored_token net) = true ->
  _request config net
  = after (repeat Refresh (lookup_refreshes (stored_token net)))
          (request_loop config net (Z.to_nat (max_retries config)) 0 None).
Proof.
  unfold _request, after.
  destruct (stored_token net) as [| | [| |]]; try discriminate; intros _;
    cbn [lookup_refreshes repeat app]; [| reflexivity].
  destruct (request_loop _ _ _ _ _); reflexivity.
Qed.

Lemma request_without_token config net :
  token_available (stored_token net) = false ->
  exists e,
    _request config net
    = (repeat Refresh (lookup_refreshes (stored_token net)), Raised e).
Proof.
  unfold _request.
  destruct (stored_token net) as [| | [| |]]; try discriminate; intros _;
    eexists; reflexivity.
Qed.

Lemma count_repeat_refresh (p : action -> bool) n :
  count p (repeat Refresh n) = if p Refresh then n else 0.
Proof.
  unfold count. induction n as [| n IH]; cbn [repeat filter].
  - destruct (p Refresh); reflexivity.
  - destruct (p Refresh); cbn [List.length]; rewrite IH; reflexivity.
Qed.

(** The refreshes of the loop: one when the first reply is a 401. *)
Lemma loop_refreshes config net n last :
  count is_refresh (fst (request_loop config net n 0 last))
  = if (0 <? n) && unauthorized (server net 0) then 1 else 0.
Proof.
  destruct n as [| n]; [reflexivity |].
  cbn [request_loop Nat.ltb Nat.leb andb unauthorized].
  destruct (server net 0) as [status header |]; cbn [unauthorized];
    [| rewrite count_after, no_refresh_after_first; reflexivity].
  destruct (status =? 429)%Z eqn:E429.
  - rewrite count_after, no_refresh_after_first.
    assert (E : (status =? 401)%Z = false) by lia. rewrite E. reflexivity.
  - destruct (status =? 401)%Z.
    + cbn [Nat.eqb]. destruct (refresh net); [| reflexivity | reflexivity].
      rewrite count_after, no_refresh_after_first. reflexivity.
    + destruct (is_success status); [reflexivity |].
      destruct (500 <=? status)%Z; [| reflexivity].
      rewrite count_after, no_refresh_after_first. reflexivity.
Qed.

(** The loop numbers its requests from the attempt it starts at. *)
Lemma sends_from config net n :
  forall k last j,
    In (Send j) (fst (request_loop config net n k last)) -> k <= j.
Proof.
  induction n as [| n IH]; intros k last j Hin; [destruct Hin |].
  assert (step : forall done last',
             (forall i, In (Send i) done -> i = k) ->
             In (Send j) (fst (after done (request_loop config net n (S k) last'))) ->
             k <= j).
  { intros done last' Hd H. unfold after in H. cbn [fst] in H.
    apply in_app_or in H as [H | H].
    - apply Hd in H. lia.
    - apply IH in H. lia. }
  assert (only : forall i tail,
             Forall (fun a => is_send a = false) tail ->
             In (Send i) (Acquire :: Send k :: tail) -> i = k).
  { intros i tail Ht [H | [H | H]]; [discriminate | congruence |].
    rewrite Forall_forall in Ht. apply Ht in H. discriminate. }
  cbn [request_loop] in Hin.
  destruct (server net k) as [status header |].
  - destruct (status =? 429)%Z.
    { eapply step; [| exact Hin]. intros i. apply only. repeat constructor. }
    destruct (status =? 401)%Z.
    + destruct (k =? 0).
      * destruct (refresh net).
        -- eapply step; [| exact Hin]. intros i. apply only. repeat constructor.
        -- cbn [fst] in Hin. apply only in Hin; [lia | repeat constructor].
        -- cbn [fst] in Hin. apply only in Hin; [lia | repeat constructor].
      * cbn [fst] in Hin. apply only in Hin; [lia | constructor].
    + destruct (is_success status).
      { cbn [fst] in Hin. apply only in Hin; [lia | constructor]. }
      destruct (500 <=? status)%Z.
      * eapply step; [| exact Hin]. intros i. apply only. repeat constructor.
      * cbn [fst] in Hin. apply only in Hin; [lia | constructor].
  - eapply step; [| exact Hin]. intros i. apply only. repeat constructor.
Qed.

(** A 401 to a request that is not the first ends the loop. *)
Lemma later_401_ends_loop config net n :
  forall k last j header,
    In (Send (S j)) (fst (request_loop config net n k last)) ->
    server net (S j) = Response 401 header ->
    snd (request_loop config net n k last)
    = Raised (AuthenticationError "Authentication failed")
    /\ exists before,
         fst (request_loop config net n k last)
         = before ++ [Acquire; Send (S j)].
Proof.
  induction n as [| n IH]; intros k last j header Hin Hs; [destruct Hin |].
  destruct (Nat.eq_dec k (S j)) as [-> | Hne].
  { cbn [request_loop]. rewrite Hs. cbn. split; [reflexivity |].
    exists []. reflexivity. }
  assert (step : forall done last',
             (forall i, In (Send i) done -> i = k) ->
             request_loop config net (S n) k last
             = after done (request_loop config net n (S k) last') ->
             snd (request_loop config net (S n) k last)
             = Raised (AuthenticationError "Authentication failed")
             /\ exists before,
                  fst (request_loop config net (S n) k last)
                  = before ++ [Acquire; Send (S j)]).
  { intros done last' Hd Eq. rewrite Eq in Hin |- *.
    unfold after in *. cbn [fst snd] in *.
    apply in_app_or in Hin as [H | H]; [apply Hd in H; congruence |].
    destruct (IH (S k) last' j header H Hs) as (Ho & before & Hb).
    split; [exact Ho |]. exists (done ++ before).
    rewrite Hb, app_assoc. reflexivity. }
  assert (only : forall i tail,
             Forall (fun a => is_send a = false) tail ->
             In (Send i) (Acquire :: Send k :: tail) -> i = k).
  { intros i tail Ht [H | [H | H]]; [discriminate | congruence |].
    rewrite Forall_forall in Ht. apply Ht in H. discriminate. }
  assert (stop : forall tail o,
             Forall (fun a => is_send a = false) tail ->
             request_loop config net (S n) k last
             = (Acquire :: Send k :: tail, o) ->
             False).
  { intros tail o Ht Eq. rewrite Eq in Hin. cbn [fst] in Hin.
    apply only in Hin; [congruence | exact Ht]. }
  revert step stop. cbn [request_loop]. intros step stop.
  destruct (server net k) as [status header' |].
  - destruct (status =? 429)%Z.
    { eapply step; [| reflexivity]. intros i. apply only. repeat constructor. }
    destruct (status =? 401)%Z.
    + destruct (k =? 0).
      * destruct (refresh net).
        -- eapply step; [| reflexivity]. intros i. apply only. repeat constructor.
        -- exfalso. eapply stop; [| reflexivity]. repeat constructor.
        -- exfalso. eapply stop; [| reflexivity]. repeat constructor.
      * exfalso. eapply stop; [| reflexivity]. constructor.
    + destruct (is_success status).
      { exfalso. eapply stop; [| reflexivity]. constructor. }
      destruct (500 <=? status)%Z.
      * eapply step; [| reflexivity]. intros i. apply only. repeat constructor.
      * exfalso. eapply stop; [| reflexivity]. constructor.
  - eapply step; [| reflexivity]. intros i. apply only. repeat constructor.
Qed.

(** C4 (as amended).  The retry loop refreshes the token once when the
    reply to its first request is a 401, and never otherwise; with the
    refresh that the token lookup before the loop makes for a stored token
    about to expire, one [_request] call refreshes at most twice, and at
    most once when the stored token needs no refresh.  A 401 on the first
    attempt triggers the refresh of the loop, and when it succeeds the loop
    goes on with attempt 1 and one attempt fewer left: the refresh uses up
    the attempt.  When the refresh fails its exception leaves the pipeline.
    A 401 to any later request that the call sends ends it at that request
    with [AuthenticationError], without a refresh. *)
Theorem request_401_policy (config : SyncConfig) (net : network) :
  (forall n last,
     count is_refresh (fst (request_loop config net n 0 last))
     = if (0 <? n) && unauthorized (server net 0) then 1 else 0)
  /\ count is_refresh (fst (_request config net)) <= 2
  /\ (stored_token net = FreshToken ->
      count is_refresh (fst (_request config net))
      = if (0 <? Z.to_nat (max_retries config)) && unauthorized (server net 0)
        then 1 else 0)
  /\ (forall k header,
        In (Send (S k)) (fst (_request config net)) ->
        server net (S k) = Response 401 header ->
        snd (_request config net)
        = Raised (AuthenticationError "Authentication failed")
        /\ exists before,
             fst (_request config net) = before ++ [Acquire; Send (S k)])
  /\ (forall header n last,
        server net 0 = Response 401 header ->
        refresh net = Refreshed ->
        request_loop config net (S n) 0 last
        = after [Acquire; Send 0; Refresh] (request_loop config net n 1 last))
  /\ (forall header n last,
        server net 0 = Response 401 header ->
        refresh net <> Refreshed ->
        request_loop config net (S n) 0 last
        = ([Acquire; Send 0; Refresh], Raised (refresh_error (refresh net))))
  /\ (forall header n k last,
        server net (S k) = Response 401 header ->
        request_loop config net (S n) (S k) last
        = ([Acquire; Send (S k)],
           Raised (AuthenticationError "Authentication failed"))).
Proof.
  split; [intros n last; apply loop_refreshes |].
  split; [| split; [| split; [| split; [| split]]]].
  - destruct (token_available (stored_token net)) eqn:Et.
    + rewrite (request_with_token _ _ Et), count_after, count_repeat_refresh,
        loop_refreshes.
      cbn [is_refresh].
      destruct (stored_token net); cbn [lookup_refreshes];
        destruct (_ && _); lia.
    + destruct (request_without_token config _ Et) as (e & ->).
      cbn [fst]. rewrite count_repeat_refresh. cbn [is_refresh].
      destruct (stored_token net); cbn [lookup_refreshes]; lia.
  - intros Ht.
    rewrite request_with_token by (rewrite Ht; reflexivity).
    rewrite count_after, count_repeat_refresh, loop_refreshes, Ht.
    reflexivity.
  - intros k header Hin Hs.
    destruct (token_available (stored_token net)) eqn:Et.
    + rewrite (request_with_token _ _ Et) in Hin |- *.
      unfold after in *. cbn [fst snd] in *.
      apply in_app_or in Hin as [Hin | Hin];
        [apply repeat_spec in Hin; discriminate |].
      destruct (later_401_ends_loop _ _ _ _ _ _ _ Hin Hs) as (Ho & before & Hb).
      split; [exact Ho |].
      exists (repeat Refresh (lookup_refreshes (stored_token net)) ++ before).
      rewrite Hb, app_assoc. reflexivity.
    + destruct (request_without_token config _ Et) as (e & Eq).
      rewrite Eq in Hin. cbn [fst] in Hin.
      apply repeat_spec in Hin. discriminate.
  - intros header n last Hs Hr. cbn [request_loop]. rewrite Hs, Hr. reflexivity.
  - intros header n last Hs Hr. cbn [request_loop]. rewrite Hs. cbn.
    destruct (refresh net); [congruence | reflexivity | reflexivity].
  - intros header n k last Hs. cbn [request_loop]. rewrite Hs. reflexivity.
Qed.

Lemma request_401_policy_witness :
  snd (_request default_config late_401)
  = Raised (AuthenticationError "Authentication failed")
  /\ exists before,
       fst (_request default_config late_401) = before ++ [Acquire; Send 1].
Proof.
  apply (proj1 (proj2 (proj2 (proj2 (request_401_policy default_config late_401))))
               0 None).
  - vm_compute. tauto.
  - reflexivity.
Defined.

(** C4 as stated fails.  With a 503 on attempt 0 and a 401 on attempt 1 the
    pipeline raises [AuthenticationError] after two requests and no refresh;
    with a budget of one attempt, a 401 followed by a refresh ends in
    "Max retries exceeded" without the request being sent again; and when
    the stored token is about to expire, a 401 on attempt 0 comes after the
    refresh of the token lookup and sets off a second one. *)
Lemma request_401_counterexample :
  (snd (_request default_config late_401)
   = Raised (AuthenticationError "Authentication failed")
   /\ count is_refresh (fst (_request default_config late_401)) = 0
   /\ count is_send (fst (_request default_config late_401)) = 2)
  /\ _request single_attempt early_401
     = ([Acquire; Send 0; Refresh], Raised (SyncError "Max retries exceeded"))
  /\ _request default_config stale_401
     = ([Refresh; Acquire; Send 0; Refresh; Acquire; Send 1], Returned 200).
Proof. vm_compute. repeat split. Qed.

(** C5 (as amended).  A run sends at most [max_retries] requests.  On a 429
    the pipeline sleeps for the [Retry-After] seconds when the header is
    there and not zero, for 60 seconds when the header is absent, and for
    the computed backoff of the attempt when the header says 0; then it goes
    on with the next attempt. *)
Theorem request_429_policy (config : SyncConfig) (net : network) :
  count is_send (fst (_request config net)) <= Z.to_nat (max_retries config)
  /\ (forall n k last header,
        server net k = Response 429 header ->
        request_loop config net (S n) k last
        = after [Acquire; Send k;
                 Sleep (match header with
                        | Some 0%Z => _calculate_backoff config k (clock_hash net k)
                        | Some seconds => inject_Z seconds
                        | None => 60%Q
                        end)]
                (request_loop config net n (S k)
                   (Some (RateLimitError match header with
                                         | Some seconds => seconds
                                         | None => 60%Z
                                         end)))).
Proof.
  split.
  - destruct (token_available (stored_token net)) eqn:Et.
    + rewrite (request_with_token _ _ Et), count_after, count_repeat_refresh.
      apply sends_bounded.
    + destruct (request_without_token config _ Et) as (e & ->).
      cbn [fst]. rewrite count_repeat_refresh. cbn [is_send]. lia.
  - intros n k last header Hs. cbn [request_loop]. rewrite Hs. cbn.
    destruct header as [[| p | p] |]; reflexivity.
Qed.

Lemma request_429_policy_witness :
  request_loop default_config (limited_once (Some 5%Z)) 5 0 None
  = after [Acquire; Send 0; Sleep 5%Q]
          (request_loop default_config (limited_once (Some 5%Z)) 4 1
                        (Some (RateLimitError 5))).
Proof.
  apply (proj2 (request_429_policy default_config (limited_once (Some 5%Z)))
               4 0 None (Some 5%Z)).
  reflexivity.
Defined.

(** C5 as stated fails.  A 429 without [Retry-After] is followed by a sleep
    of 60 seconds, which is not the backoff computed for the attempt. *)
Lemma request_429_counterexample :
  fst (_request default_config (limited_once None))
  = [Acquire; Send 0; Sleep 60%Q; Acquire; Send 1]
  /\ ~ (_calculate_backoff default_config 0 (clock_hash (limited_once None) 0) == 60)%Q.
Proof.
  split; [vm_compute; reflexivity |].
  vm_compute. discriminate.
Qed.

End Request.
(* ===================================================================== *)
(** * The durable store                                                   *)
(* ===================================================================== *)

Section StoreFacts.
Import Py Sync.
Context {runtime : Runtime}.

Lemma update_item_status_nth store item_id st err time n :
  nth_error (update_item_status store item_id st err time) n
  = option_map (fun r => if String.eqb (row_id r) item_id
                         then set_status st err time r else r)
               (nth_error store n).
Proof. unfold update_item_status. apply nth_error_map. Qed.

(** C9.  The checksum of a [SyncItem] is set when the item is created: a
    missing one is computed from the canonical encoding of the payload, a
    given one is kept.  [update_item_status] leaves every row where it is
    and changes, in the rows of the given id, only the status, the last
    error, the update time and the attempt count; id, checksum, data, item
    type, direction and creation time stay, and the other rows stay whole.
    [remove_item] and [clear_completed] only delete rows, and the item
    built from a fetched row carries the checksum of the row. *)
Theorem checksum_fixed_at_creation :
  (forall item : SyncItem,
      checksum item = None ->
      checksum (__post_init__ item)
      = Some (sha256_of_canonical_json (data item)))
  /\ (forall (item : SyncItem) c,
         checksum item = Some c -> __post_init__ item = item)
  /\ (forall store item_id st err time n r,
         nth_error store n = Some r ->
         exists r',
           nth_error (update_item_status store item_id st err time) n = Some r'
           /\ row_id r' = row_id r
           /\ row_checksum r' = row_checksum r
           /\ row_data r' = row_data r
           /\ row_item_type r' = row_item_type r
           /\ row_direction r' = row_direction r
           /\ row_created_at r' = row_created_at r
           /\ (row_id r = item_id ->
               row_status r' = status_value st
               /\ row_last_error r' = err
               /\ row_updated_at r' = isoformat time
               /\ row_attempts r' = (row_attempts r + 1)%Z)
           /\ (row_id r <> item_id -> r' = r))
  /\ (forall store item_id st err time,
         List.length (update_item_status store item_id st err time)
         = List.length store)
  /\ (forall store item_id r, In r (remove_item store item_id) -> In r store)
  /\ (forall store cutoff r, In r (fst (clear_completed store cutoff)) -> In r store)
  /\ (forall r item c,
         item_of_row r = Ok item -> row_checksum r = Some c ->
         checksum item = Some c).
Proof.
  repeat split.
  - intros item H. unfold __post_init__. rewrite H. reflexivity.
  - intros item c H. unfold __post_init__. rewrite H. reflexivity.
  - intros store item_id st err time n r Hn.
    rewrite update_item_status_nth, Hn. cbn [option_map].
    destruct (String.eqb_spec (row_id r) item_id) as [E | E].
    + exists (set_status st err time r). repeat split; try reflexivity.
      contradiction.
    + exists r. repeat split; try reflexivity; contradiction.
  - intros. unfold update_item_status. apply length_map.
  - intros store item_id r H. unfold remove_item in H.
    apply filter_In in H. tauto.
  - intros store cutoff r H. unfold clear_completed in H. cbn [fst] in H.
    apply filter_In in H. tauto.
  - intros r item c H Hc. unfold item_of_row in H.
    destruct (direction_of_value (row_direction r)); try discriminate.
    destruct (status_of_value (row_status r)); try discriminate.
    cbn [bind] in H. injection H as <-.
    unfold __post_init__. cbn [checksum]. rewrite Hc. reflexivity.
Qed.

Lemma stored_status_update store item_id st err time j :
  stored_status (update_item_status store item_id st err time) j
  = match stored_status store j with
    | Some old => Some (if String.eqb j item_id then status_value st else old)
    | None => None
    end.
Proof.
  unfold stored_status, update_item_status.
  induction store as [| r rest IH]; [reflexivity |].
  cbn [map find].
  destruct (String.eqb_spec (row_id r) item_id) as [E | E].
  - cbn [set_status row_id].
    destruct (String.eqb_spec (row_id r) j) as [F | F].
    + cbn [row_status]. subst. rewrite String.eqb_refl. reflexivity.
    + apply IH.
  - destruct (String.eqb_spec (row_id r) j) as [F | F].
    + destruct (String.eqb_spec j item_id); [congruence | reflexivity].
    + apply IH.
Qed.

Lemma stored_status_apply_results b rs p j :
  stored_status (queue (fold_left (apply_result b) rs p)) j
  = option_map (status_after rs j) (stored_status (queue p) j).
Proof.
  revert p. induction rs as [| r rest IH]; intros p.
  - cbn. destruct (stored_status (queue p) j); reflexivity.
  - cbn [fold_left status_after]. rewrite IH.
    unfold apply_result.
    destruct (success r); cbn [queue]; rewrite stored_status_update;
      destruct (stored_status (queue p) j); reflexivity.
Qed.

Section Verdicts.

Variable ok : SyncItem -> bool.
Variable why : SyncItem -> option string.

Lemma status_after_not_mentioned items j old :
  ~ In j (map id items) ->
  status_after (map (verdict ok why) items) j old = old.
Proof.
  revert old. induction items as [| it rest IH]; intros old H; [reflexivity |].
  cbn [map status_after verdict result_id success].
  cbn [map In] in H.
  destruct (String.eqb_spec j (id it)) as [E | E]; [subst; tauto |].
  apply IH. tauto.
Qed.

Lemma status_after_verdicts items item old :
  NoDup (map id items) -> In item items ->
  status_after (map (verdict ok why) items) (id item) old = verdict_status (ok item).
Proof.
  revert old. induction items as [| it rest IH]; intros old Hnd Hin; [easy |].
  cbn [map] in Hnd. inversion Hnd as [| ? ? Hnot Hnd']; subst.
  cbn [map status_after verdict result_id success].
  destruct Hin as [-> | Hin].
  - rewrite String.eqb_refl. apply status_after_not_mentioned. exact Hnot.
  - apply IH; assumption.
Qed.

Lemma process_groups_results b groups p :
  (forall t type_items, respond b t type_items = Results (map (verdict ok why) type_items)) ->
  process_groups b groups p
  = (fold_left (apply_result b) (map (verdict ok why) (List.concat (map snd groups))) p, None).
Proof.
  intros Hb. revert p. induction groups as [| [t its] rest IH]; intros p.
  - reflexivity.
  - cbn [process_groups map snd List.concat]. rewrite Hb, IH.
    rewrite map_app, fold_left_app. reflexivity.
Qed.

End Verdicts.

Lemma add_to_group_perm by_type item :
  Permutation (List.concat (map snd (add_to_group by_type item)))
              (List.concat (map snd by_type) ++ [item]).
Proof.
  induction by_type as [| [t its] rest IH].
  - reflexivity.
  - cbn [add_to_group]. destruct (String.eqb t (item_type item)).
    + cbn [map snd List.concat]. rewrite <- !app_assoc.
      apply Permutation_app_head. apply Permutation_app_comm.
    + cbn [map snd List.concat]. rewrite IH, app_assoc. reflexivity.
Qed.

Lemma group_by_type_perm items :
  Permutation (List.concat (map snd (group_by_type items))) items.
Proof.
  unfold group_by_type.
  assert (G : forall acc,
             Permutation (List.concat (map snd (fold_left add_to_group items acc)))
                         (List.concat (map snd acc) ++ items)).
  { induction items as [| it rest IH]; intros acc.
    - cbn. rewrite app_nil_r. reflexivity.
    - cbn [fold_left]. rewrite IH, add_to_group_perm, <- app_assoc.
      reflexivity. }
  apply (G []).
Qed.

(** C7.  When the server answers every batch request with one result per
    item, each item of the upload batch ends in the store with the status of
    its own result: [uploaded] where the server reported success, [failed]
    where it did not; and [_process_upload_batch] returns its [SyncResult].
    The witness below is the batch of five with the third item rejected. *)
Theorem upload_batch_statuses_per_item
        (b : backend) (store : sync_queue) (items : list SyncItem)
        (ok : SyncItem -> bool) (why : SyncItem -> option string) :
  (forall t type_items,
      respond b t type_items = Results (map (verdict ok why) type_items)) ->
  NoDup (map id items) ->
  (forall item, In item items -> stored_status store (id item) <> None) ->
  map (stored_status (fst (_process_upload_batch b store items))) (map id items)
  = map (fun item => Some (verdict_status (ok item))) items
  /\ exists result, snd (_process_upload_batch b store items) = inl result.
Proof.
  intros Hb Hnd Hin.
  destruct items as [| it0 rest];
    [split; [reflexivity | eexists; reflexivity] |].
  unfold _process_upload_batch.
  remember (it0 :: rest) as items eqn:Eitems.
  rewrite (process_groups_results ok why b _ _ Hb). cbn [fst snd].
  split; [| eexists; reflexivity].
  rewrite map_map. apply map_ext_in. intros item Hitem.
  rewrite stored_status_apply_results. cbn [queue].
  destruct (stored_status store (id item)) as [old |] eqn:E;
    [| exfalso; exact (Hin item Hitem E)].
  cbn [option_map]. f_equal.
  pose proof (group_by_type_perm items) as Hperm.
  apply status_after_verdicts.
  - apply (Permutation_NoDup (l := map id items)); [| exact Hnd].
    apply Permutation_map. symmetry. exact Hperm.
  - apply (Permutation_in (l := items)); [symmetry; exact Hperm | exact Hitem].
Qed.

Lemma pyval_induction (P : pyval -> Prop) :
  P VNone ->
  (forall b, P (VBool b)) ->
  (forall z, P (VInt z)) ->
  (forall f, P (VFloat f)) ->
  (forall s, P (VStr s)) ->
  (forall items, Forall P items -> P (VList items)) ->
  (forall members, Forall (fun kv => P (snd kv)) members -> P (VDict members)) ->
  forall v, P v.
Proof.
  intros HN HB HI HF HS HL HD.
  fix IH 1. intros [| b | z | f | s | items | members].
  - exact HN.
  - apply HB.
  - apply HI.
  - apply HF.
  - apply HS.
  - apply HL. induction items as [| x rest IHl]; constructor; [apply IH | exact IHl].
  - apply HD. induction members as [| [k x] rest IHl]; constructor;
      [apply IH | exact IHl].
Qed.

(** Adding a string key that the dictionary does not have puts it last. *)
Lemma assoc_set_fresh (d : pydict) name v :
  existsb (key_eqb (VStr name)) (keys d) = false ->
  assoc_set key_eqb d (VStr name) v = d ++ [(VStr name, v)].
Proof.
  induction d as [| [k x] rest IH]; intros H; [reflexivity |].
  cbn [keys map fst existsb] in H. apply orb_false_elim in H as [H1 H2].
  cbn [assoc_set app].
  assert (E : key_eqb k (VStr name) = false).
  { destruct k; try reflexivity; cbn in H1 |- *; try exact H1.
    rewrite String.eqb_sym. exact H1. }
  rewrite E. f_equal. apply IH. exact H2.
Qed.

Lemma existsb_app_false {A} (p : A -> bool) xs ys :
  existsb p (xs ++ ys) = false <-> existsb p xs = false /\ existsb p ys = false.
Proof. rewrite existsb_app. apply orb_false_iff. Qed.

Lemma json_round_trip (v : pyval) :
  json_native v = true ->
  exists j, json_dumps v = Ok j /\ json_loads j = v.
Proof.
  induction v as [| b | z | f | s | items IH | members IH] using pyval_induction;
    intros Hn; try (eexists; split; reflexivity).
  - (* lists *)
    assert (G : exists js, dumps_items items = Ok js /\ map json_loads js = items).
    { cbn [json_native] in Hn.
      induction items as [| x rest IHl]; [exists []; split; reflexivity |].
      cbn [forallb] in Hn. apply andb_prop in Hn as [Hx Hrest].
      inversion IH as [| ? ? Px Prest]; subst.
      destruct (Px Hx) as (j & Ej & Lj).
      destruct (IHl Prest Hrest) as (js & Ejs & Ljs).
      exists (j :: js). cbn [dumps_items]. fold dumps_items.
      rewrite Ej. cbn [bind]. rewrite Ejs. cbn [bind map].
      rewrite Lj, Ljs. split; reflexivity. }
    destruct G as (js & Ejs & Ljs).
    exists (JArray js). cbn [json_dumps]. fold dumps_items.
    rewrite Ejs. cbn [bind json_loads]. rewrite Ljs. split; reflexivity.
  - (* dictionaries *)
    assert (G : forall d,
               (forall kv, In kv members ->
                           existsb (key_eqb (fst kv)) (keys d) = false) ->
               exists ms, dumps_members members = Ok ms
                          /\ loads_members ms d = d ++ members).
    { cbn [json_native] in Hn. apply andb_prop in Hn as [Hall Hdist].
      induction members as [| [k x] rest IHl]; intros d Hfresh.
      - exists []. cbn. rewrite app_nil_r. split; reflexivity.
      - cbn [forallb fst snd] in Hall.
        apply andb_prop in Hall as [Hkx Hrest].
        apply andb_prop in Hkx as [Hk Hx].
        cbn [keys map fst distinct_keys] in Hdist.
        apply andb_prop in Hdist as [Hk_new Hdist].
        apply negb_true_iff in Hk_new.
        inversion IH as [| ? ? Px Prest]; subst. cbn [snd] in Px.
        destruct k as [| | | | name | |]; try discriminate.
        destruct (Px Hx) as (j & Ej & Lj).
        destruct (IHl Prest Hrest Hdist (d ++ [(VStr name, x)])) as (ms & Ems & Lms).
        { intros kv Hkv. unfold keys. rewrite map_app.
          apply existsb_app_false. split.
          - apply Hfresh. right. exact Hkv.
          - cbn [map fst existsb]. rewrite orb_false_r.
            destruct kv as [k' x']. cbn [fst].
            rewrite forallb_forall in Hrest.
            specialize (Hrest _ Hkv). cbn [fst snd] in Hrest.
            apply andb_prop in Hrest as [Hk' _].
            destruct k' as [| | | | name' | |]; try discriminate.
            cbn. rewrite String.eqb_sym.
            destruct (String.eqb_spec name name') as [<- |]; [| reflexivity].
            exfalso.
            assert (C : existsb (key_eqb (VStr name)) (keys rest) = true).
            { apply existsb_exists. exists (VStr name). split.
              - unfold keys. apply in_map_iff. exists (VStr name, x'). split; [reflexivity | exact Hkv].
              - cbn. apply String.eqb_refl. }
            unfold keys in C. congruence. }
        exists ((name, j) :: ms). cbn [dumps_members]. fold dumps_members.
        cbn [json_key bind]. rewrite Ej. cbn [bind]. rewrite Ems. cbn [bind].
        split; [reflexivity |].
        cbn [loads_members]. fold loads_members.
        rewrite Lj, assoc_set_fresh.
        + rewrite Lms, <- app_assoc. reflexivity.
        + apply (Hfresh (VStr name, x)). left. reflexivity. }
    destruct (G []) as (ms & Ems & Lms); [reflexivity |].
    exists (JObject ms). cbn [json_dumps]. fold dumps_members.
    rewrite Ems. cbn [bind json_loads]. fold loads_members.
    rewrite Lms. split; reflexivity.
Qed.

Hypothesis iso_round_trip : forall d : datetime, fromisoformat (isoformat d) = d.

Lemma direction_of_value_value d : direction_of_value (direction_value d) = Ok d.
Proof. destruct d; reflexivity. Qed.

Lemma status_of_value_value s : status_of_value (status_value s) = Ok s.
Proof. destruct s; reflexivity. Qed.

Lemma filter_none {A} (p : A -> bool) (l : list A) :
  (forall x, In x l -> p x = false) -> filter p l = [].
Proof.
  induction l as [| x rest IH]; intros H; [reflexivity |].
  cbn [filter]. rewrite (H x (or_introl eq_refl)).
  apply IH. intros y Hy. apply H. right. exact Hy.
Qed.

(** C10 (as amended).  For an item whose payload is JSON-native (every
    dictionary key in it is a string), that has its checksum (as every item
    has once [__post_init__] has run), and a store in which no other row has
    the direction and status of the item, [enqueue] followed by
    [dequeue_batch] with that direction and status and a limit of at least
    one returns exactly the item, equal in every field.  The times are
    assumed to survive [isoformat] and [fromisoformat]. *)
Theorem enqueue_dequeue_round_trip
        (store : sync_queue) (item : SyncItem) (limit : Z) (c : string) :
  json_native (data item) = true ->
  checksum item = Some c ->
  (1 <= limit)%Z ->
  (forall r, In r store -> row_id r <> id item ->
             row_direction r = direction_value (direction item) ->
             row_status r <> status_value (status item)) ->
  exists store',
    enqueue store item = Ok store'
    /\ dequeue_batch store' (direction item) (status item) limit = Ok [item].
Proof.
  intros Hnative Hsum Hlimit Halone.
  destruct (json_round_trip (data item) Hnative) as (j & Ej & Lj).
  unfold enqueue. rewrite Ej. cbn [bind].
  eexists. split; [reflexivity |].
  unfold dequeue_batch. rewrite filter_app.
  rewrite filter_none.
  - cbn [filter app row_direction row_status].
    rewrite !String.eqb_refl. cbn [andb order_by_created_at fold_right insert_by_created_at].
    unfold sql_limit.
    destruct (limit <? 0)%Z eqn:Eneg; [lia |].
    destruct (Z.to_nat limit) as [| n] eqn:En; [lia |].
    cbn [firstn items_of_rows]. rewrite firstn_nil.
    unfold item_of_row.
    cbn [row_direction row_status row_id row_item_type row_data row_checksum
         row_created_at row_updated_at row_attempts row_last_error].
    rewrite direction_of_value_value, status_of_value_value. cbn [bind].
    rewrite Lj, !iso_round_trip.
    unfold __post_init__. cbn [checksum]. rewrite Hsum.
    destruct item. cbn in *. subst. reflexivity.
  - intros r Hr. apply filter_In in Hr as [Hr Hid].
    apply negb_true_iff in Hid.
    destruct (String.eqb_spec (row_id r) (id item)) as [| Hne]; [discriminate |].
    destruct (String.eqb_spec (row_direction r) (direction_value (direction item)))
      as [Hd |]; [| reflexivity].
    destruct (String.eqb_spec (row_status r) (status_value (status item)))
      as [Hs |]; [| reflexivity].
    exfalso. exact (Halone r Hr Hne Hd Hs).
Qed.

End StoreFacts.

Section StoreExamples.
Import Py Sync Examples.

Lemma checksum_fixed_at_creation_witness :
  exists r',
    nth_error (update_item_status (runtime := text_runtime) batch_store "3" FAILED (Some "rejected"%string)
                                  "2024-01-02T00:00:00+00:00"%string) 2
    = Some r'
    /\ row_id r' = row_id third_row
    /\ row_checksum r' = row_checksum third_row
    /\ row_data r' = row_data third_row
    /\ row_item_type r' = row_item_type third_row
    /\ row_direction r' = row_direction third_row
    /\ row_created_at r' = row_created_at third_row
    /\ (row_id third_row = "3"%string ->
        row_status r' = status_value FAILED
        /\ row_last_error r' = Some "rejected"%string
        /\ row_updated_at r' = "2024-01-02T00:00:00+00:00"%string
        /\ row_attempts r' = (row_attempts third_row + 1)%Z)
    /\ (row_id third_row <> "3"%string -> r' = third_row).
Proof.
  apply (proj1 (proj2 (proj2 (checksum_fixed_at_creation (runtime := text_runtime))))).
  reflexivity.
Defined.

Lemma upload_batch_statuses_per_item_witness :
  map (stored_status (fst (_process_upload_batch picky_server batch_store batch)))
      ["1"; "2"; "3"; "4"; "5"]%string
  = [Some "uploaded"; Some "uploaded"; Some "failed"; Some "uploaded";
     Some "uploaded"]%string
  /\ exists result,
      snd (_process_upload_batch picky_server batch_store batch) = inl result.
Proof.
  refine (upload_batch_statuses_per_item (runtime := text_runtime)
            picky_server batch_store batch accepted complaint _ _ _).
  - intros t type_items. reflexivity.
  - repeat constructor; simpl; intuition discriminate.
  - intros item H. simpl in H.
    decompose [or] H; subst; try contradiction; discriminate.
Defined.

Lemma enqueue_dequeue_round_trip_witness :
  exists store',
    enqueue settled_store (upload "1") = Ok store'
    /\ dequeue_batch store' UPLOAD PENDING 1 = Ok [upload "1"].
Proof.
  refine (enqueue_dequeue_round_trip (runtime := text_runtime)
            (fun d => eq_refl) settled_store (upload "1") 1 "sha256" _ _ _ _).
  - reflexivity.
  - reflexivity.
  - lia.
  - intros r [<- | []] _ _. vm_compute. discriminate.
Defined.

(** C10 as stated fails.  The payload [{5: 'x'}] is JSON-serializable, and
    after [enqueue] the batch that [dequeue_batch] returns holds an item
    whose payload is [{'5': 'x'}]: the integer key came back as a string. *)
Lemma enqueue_dequeue_counterexample :
  json_dumps (runtime := text_runtime) (data keyed_upload) = Ok (JObject [("5", JString "x")]%string)
  /\ exists store' item',
      enqueue (runtime := text_runtime) [] keyed_upload = Ok store'
      /\ dequeue_batch (runtime := text_runtime) store' UPLOAD PENDING 1
         = Ok [item']
      /\ data item' = VDict [(VStr "5", VStr "x")]
      /\ item' <> keyed_upload.
Proof.
  split; [reflexivity |].
  eexists. eexists. split; [reflexivity |]. split; [reflexivity |].
  split; [reflexivity |]. discriminate.
Qed.

End StoreExamples.
(* ===================================================================== *)
(** * The rate limiter                                                    *)
(* ===================================================================== *)

Section Limiter.
Import Sync.
Local Open Scope Q_scope.

Lemma Qltb_true a b : Qltb a b = true <-> a < b.
Proof. unfold Qltb. destruct (Qlt_le_dec a b); split; intros; try easy; lra. Qed.

Lemma Qltb_false a b : Qltb a b = false <-> b <= a.
Proof. unfold Qltb. destruct (Qlt_le_dec a b); split; intros; try easy; lra. Qed.

Lemma prune_split window cutoff :
  exists gone,
    window = (gone ++ prune window cutoff)%list
    /\ Forall (fun t => t < cutoff) gone.
Proof.
  induction window as [| t rest IH].
  - exists []. split; [reflexivity | constructor].
  - cbn [prune]. destruct (Qltb t cutoff) eqn:E.
    + destruct IH as (gone & Hsplit & Hgone).
      exists (t :: gone). split.
      * cbn [app]. f_equal. exact Hsplit.
      * constructor; [apply Qltb_true; exact E | exact Hgone].
    + exists []. split; [reflexivity | constructor].
Qed.

Lemma tracks_later span stamps window time time' :
  time <= time' -> tracks span stamps window time ->
  tracks span stamps window time'.
Proof.
  intros Hle (dropped & Hs & Hd). exists dropped. split; [exact Hs |].
  eapply Forall_impl; [| exact Hd]. cbv beta. intros t Ht. lra.
Qed.

Lemma tracks_prune span stamps window time cutoff :
  cutoff <= time - span ->
  tracks span stamps window time ->
  tracks span stamps (prune window cutoff) time.
Proof.
  intros Hc (dropped & Hs & Hd).
  destruct (prune_split window cutoff) as (gone & Hw & Hg).
  exists (dropped ++ gone)%list. split.
  - rewrite <- app_assoc, <- Hw. exact Hs.
  - apply Forall_app. split; [exact Hd |].
    eapply Forall_impl; [| exact Hg]. cbv beta. intros t Ht. lra.
Qed.

Lemma sleep_if_positive_later wait time : time <= sleep_if_positive wait time.
Proof.
  unfold sleep_if_positive. destruct (Qltb 0 wait) eqn:E; [| lra].
  apply Qltb_true in E. lra.
Qed.

Lemma wait_for_room_spec limit span stamps :
  forall ts time window cutoff window' c',
    steady ts ->
    tracks span stamps window time ->
    wait_for_room limit span ts time window cutoff = Py.Ok (window', c') ->
    tracks span stamps window' (now c')
    /\ time <= now c'
    /\ (Z.of_nat (List.length window') < limit)%Z
    /\ steady (Sync.ticks c').
Proof.
  intros ts. induction ts as [| d ts IH]; intros time window cutoff window' c' Hst Htr Hrun.
  - cbn [wait_for_room] in Hrun.
    destruct (limit <=? Z.of_nat (List.length window))%Z eqn:E.
    + destruct window; discriminate.
    + injection Hrun as <- <-. cbn [now Sync.ticks].
      repeat split; [exact Htr | lra | lia | exact Hst].
  - cbn [wait_for_room] in Hrun.
    destruct (limit <=? Z.of_nat (List.length window))%Z eqn:E.
    + destruct window as [| oldest rest] eqn:Ew; [discriminate |].
      rewrite <- Ew in *.
      apply Forall_cons_iff in Hst as [Hd Hst'].
      pose proof (sleep_if_positive_later (oldest - cutoff) time) as Hsl.
      set (time1 := sleep_if_positive (oldest - cutoff) time) in *.
      apply IH in Hrun; [| exact Hst' |].
      * destruct Hrun as (H1 & H2 & H3 & H4).
        repeat split; [exact H1 | lra | exact H3 | exact H4].
      * apply tracks_prune; [lra |].
        apply (tracks_later span stamps window time); [lra | exact Htr].
    + injection Hrun as <- <-. cbn [now Sync.ticks].
      repeat split; [exact Htr | lra | lia | exact Hst].
Qed.

Lemma spaced_snoc n span stamps window time g :
  spaced n span stamps ->
  tracks span stamps window time ->
  (List.length window < n)%nat ->
  time <= g ->
  spaced n span (stamps ++ [g]).
Proof.
  intros Hsp (dropped & Hs & Hd) Hlen Hg i t g' Hi Hj.
  destruct (Nat.lt_ge_cases (i + n) (List.length stamps)) as [Hin | Hout].
  - rewrite nth_error_app1 in Hi, Hj by lia. exact (Hsp i t g' Hi Hj).
  - assert (Hlast : (i + n = List.length stamps)%nat).
    { assert (Hb : nth_error (stamps ++ [g]) (i + n) <> None) by congruence.
      apply nth_error_Some in Hb. rewrite length_app in Hb.
      cbn [List.length] in Hb. lia. }
    rewrite nth_error_app2 in Hj by lia.
    replace (i + n - List.length stamps)%nat with 0%nat in Hj by lia.
    cbn [nth_error] in Hj. injection Hj as <-.
    assert (Hi' : (i < List.length dropped)%nat).
    { rewrite Hs, length_app in Hlast. lia. }
    rewrite nth_error_app1 in Hi by lia.
    rewrite Hs, nth_error_app1 in Hi by exact Hi'.
    apply nth_error_In in Hi.
    rewrite Forall_forall in Hd. specialize (Hd t Hi). cbv beta in Hd. lra.
Qed.

Lemma tracks_snoc span stamps window time g :
  tracks span stamps window time -> time <= g ->
  tracks span (stamps ++ [g]) (window ++ [g]) g.
Proof.
  intros (dropped & Hs & Hd) Hg. exists dropped. split.
  - rewrite Hs, app_assoc. reflexivity.
  - eapply Forall_impl; [| exact Hd]. cbv beta. intros t Ht. lra.
Qed.

Lemma count_since_tracked span stamps window time w :
  tracks span stamps window time -> time <= w ->
  (count_since (w - span) stamps <= List.length window)%nat.
Proof.
  intros (dropped & Hs & Hd) Hw. unfold count_since.
  rewrite Hs, filter_app, length_app.
  assert (E : filter (fun t => negb (Qltb t (w - span))) dropped = []).
  { clear Hs. induction dropped as [| t rest IH]; [reflexivity |].
    apply Forall_cons_iff in Hd as [Ht Hrest]. cbn [filter].
    assert (Hlt : Qltb t (w - span) = true) by (apply Qltb_true; lra).
    rewrite Hlt. cbn [negb]. apply IH. exact Hrest. }
  rewrite E. cbn [List.length]. apply filter_length_le.
Qed.

Lemma acquire_sound limiter c stamps g limiter' c' :
  sound limiter c stamps ->
  acquire limiter c = Py.Ok (g, limiter', c') ->
  sound limiter' c' (stamps ++ [g])
  /\ rpm_limit limiter' = rpm_limit limiter
  /\ rph_limit limiter' = rph_limit limiter.
Proof.
  intros (Hm & Hh & Hml & Hhl & Hsm & Hsh & Hst) Hrun.
  unfold acquire in Hrun.
  destruct (ticks c) as [| d ticks0] eqn:Et; [discriminate |].
  apply Forall_cons_iff in Hst as [Hd Hst0].
  set (now0 := now c + d) in *.
  destruct (wait_for_room (rpm_limit limiter) 60 ticks0 now0
              (prune (minute_window limiter) (now0 - 60)) (now0 - 60))
    as [[minute1 c1] | |] eqn:E1; try discriminate.
  cbn [Py.bind] in Hrun.
  destruct (wait_for_room (rph_limit limiter) 3600 (ticks c1) (now c1)
              (prune (hour_window limiter) (now0 - 3600)) (now0 - 3600))
    as [[hour1 c2] | |] eqn:E2; try discriminate.
  cbn [Py.bind] in Hrun.
  destruct (ticks c2) as [| d' ticks3] eqn:Et2; [discriminate |].
  injection Hrun as <- <- <-.
  apply (wait_for_room_spec _ _ stamps) in E1 as (T1 & L1 & N1 & S1);
    [| exact Hst0
     | apply tracks_prune; [lra |];
       apply (tracks_later 60 stamps _ (now c)); [unfold now0; lra | exact Hm]].
  apply (wait_for_room_spec _ _ stamps) in E2 as (T2 & L2 & N2 & S2);
    [| exact S1
     | apply (tracks_later 3600 stamps _ now0); [lra |];
       apply tracks_prune; [lra |];
       apply (tracks_later 3600 stamps _ (now c)); [unfold now0; lra | exact Hh]].
  rewrite Et2 in S2. apply Forall_cons_iff in S2 as [Hd' S3].
  assert (T1' : tracks 60 stamps minute1 (now c2))
    by (apply (tracks_later 60 stamps _ (now c1)); [lra | exact T1]).
  unfold sound. cbn [minute_window hour_window rpm_limit rph_limit now ticks].
  rewrite !length_app. cbn [List.length].
  repeat split; try lia; try exact S3.
  - apply (tracks_snoc 60 stamps minute1 (now c2)); [exact T1' | lra].
  - apply (tracks_snoc 3600 stamps hour1 (now c2)); [exact T2 | lra].
  - apply (spaced_snoc _ 60 stamps minute1 (now c2)); [exact Hsm | exact T1' | lia | lra].
  - apply (spaced_snoc _ 3600 stamps hour1 (now c2)); [exact Hsh | exact T2 | lia | lra].
Qed.

Lemma acquire_n_sound n :
  forall limiter c stamps grants limiter' c',
    sound limiter c stamps ->
    acquire_n n limiter c = Py.Ok (grants, limiter', c') ->
    sound limiter' c' (stamps ++ grants)
    /\ rpm_limit limiter' = rpm_limit limiter
    /\ rph_limit limiter' = rph_limit limiter.
Proof.
  induction n as [| n IH]; intros limiter c stamps grants limiter' c' Hs Hrun.
  - cbn [acquire_n] in Hrun. injection Hrun as <- <- <-.
    rewrite app_nil_r. split; [exact Hs | split; reflexivity].
  - cbn [acquire_n] in Hrun.
    destruct (acquire limiter c) as [[[g limiter1] c1] | |] eqn:E1;
      try discriminate.
    cbn [Py.bind] in Hrun.
    destruct (acquire_n n limiter1 c1) as [[[gs limiter2] c2] | |] eqn:E2;
      try discriminate.
    cbn [Py.bind] in Hrun. injection Hrun as <- <- <-.
    apply (acquire_sound _ _ stamps) in E1 as (Hs1 & R1 & R2); [| exact Hs].
    apply (IH _ _ (stamps ++ [g])%list) in E2 as (Hs2 & R3 & R4); [| exact Hs1].
    rewrite <- app_assoc in Hs2. cbn [app] in Hs2.
    split; [exact Hs2 | split; congruence].
Qed.

(** C6.  Take a limiter configured with [requests_per_minute] and
    [requests_per_hour], a clock that does not run backwards, and any number
    of [acquire] calls that completed.  Then at every time from the last
    grant on, at most [requests_per_minute] of the recorded timestamps lie in
    the trailing 60 seconds and at most [requests_per_hour] in the trailing
    3600 seconds; and a grant that comes [requests_per_minute] grants after
    another is more than 60 seconds younger (3600 seconds for
    [requests_per_hour]): the call after a full window returns only when the
    oldest timestamp of that window has aged out. *)
Theorem acquire_sliding_window
        (n : nat) (requests_per_minute requests_per_hour : Z) (c : clock)
        (grants : list Q) (limiter' : RateLimiter) (c' : clock) :
  (0 <= requests_per_minute)%Z ->
  (0 <= requests_per_hour)%Z ->
  steady (ticks c) ->
  acquire_n n (new_limiter requests_per_minute requests_per_hour) c
  = Py.Ok (grants, limiter', c') ->
  (forall w, now c' <= w ->
             (Z.of_nat (count_since (w - 60) grants) <= requests_per_minute)%Z
             /\ (Z.of_nat (count_since (w - 3600) grants) <= requests_per_hour)%Z)
  /\ spaced (Z.to_nat requests_per_minute) 60 grants
  /\ spaced (Z.to_nat requests_per_hour) 3600 grants.
Proof.
  intros Hm Hh Hst Hrun.
  apply (acquire_n_sound n _ _ []) in Hrun as (Hs & R1 & R2).
  - cbn [app new_limiter rpm_limit rph_limit] in *.
    destruct Hs as (Tm & Th & Lm & Lh & Sm & Sh & _).
    rewrite R1 in Lm, Sm. rewrite R2 in Lh, Sh.
    split; [| split; assumption].
    intros w Hw. split.
    + pose proof (count_since_tracked 60 grants _ (now c') w Tm Hw). lia.
    + pose proof (count_since_tracked 3600 grants _ (now c') w Th Hw). lia.
  - unfold sound, new_limiter.
    cbn [minute_window hour_window rpm_limit rph_limit List.length].
    repeat split; try lia; try exact Hst.
    + exists []. split; [reflexivity | constructor].
    + exists []. split; [reflexivity | constructor].
    + intros i t g Hi. destruct i; discriminate.
    + intros i t g Hi. destruct i; discriminate.
Qed.

End Limiter.

Section LimiterExamples.
Import Sync Examples.
Local Open Scope Q_scope.

(** Two grants go through; the third call finds the minute window full,
    sleeps, and is granted at 64, more than 60 seconds after the first. *)
Example third_acquire_waits :
  exists limiter' c',
    acquire_n 3 (new_limiter 2 10) busy_clock = Py.Ok ([2; 4; 64], limiter', c').
Proof. eexists. eexists. vm_compute. reflexivity. Qed.

Lemma acquire_sliding_window_witness :
  spaced 2 60 [2; 4; 64] /\ spaced 10 3600 [2; 4; 64].
Proof.
  eapply proj2. eapply (acquire_sliding_window 3 2 10 busy_clock).
  - lia.
  - lia.
  - repeat constructor; unfold Qle; simpl; lia.
  - vm_compute. reflexivity.
Defined.

End LimiterExamples.
(* ===================================================================== *)
(** * The table-literal parser                                            *)
(* ===================================================================== *)

Section TextFacts.
Import Py Watcher.

Lemma len_skipn (content : text) (n : nat) :
  len (skipn n content) = len content - n.
Proof. unfold len. apply length_skipn. Qed.

Lemma starts_with_length (prefix s : text) :
  starts_with prefix s = true -> len prefix <= len s.
Proof.
  revert s. induction prefix as [| p prefix IH]; intros s H;
    [unfold len; cbn; lia |].
  destruct s as [| c s]; [discriminate |].
  cbn [starts_with] in H. apply andb_prop in H as [_ H]. apply IH in H.
  unfold len in *. cbn [List.length]. lia.
Qed.

Lemma find_in_bounds (needle rest : text) (at_ e : nat) :
  find_in needle rest at_ = Some e ->
  at_ <= e /\ e + len needle <= at_ + len rest.
Proof.
  revert at_. induction rest as [| c rest IH]; intros at_ H.
  - cbn [find_in] in H. destruct (starts_with needle []) eqn:E; [| discriminate].
    injection H as <-. apply starts_with_length in E. lia.
  - cbn [find_in] in H. destruct (starts_with needle (c :: rest)) eqn:E.
    + injection H as <-. apply starts_with_length in E. lia.
    + apply IH in H. unfold len in *. cbn [List.length]. lia.
Qed.

Lemma find_bounds (content needle : text) (start e : nat) :
  find content needle start = Some e ->
  start <= e /\ e + len needle <= len content.
Proof.
  unfold find. destruct (start <=? len content) eqn:E; [| discriminate].
  apply Nat.leb_le in E. intros H. apply find_in_bounds in H.
  rewrite len_skipn in H. lia.
Qed.

Lemma char_at_some (content : text) (pos : nat) (c : ascii) :
  char_at content pos = Some c -> pos < len content.
Proof.
  unfold char_at, len. intros H. apply nth_error_Some. congruence.
Qed.

Lemma char_at_none (content : text) (pos : nat) :
  char_at content pos = None -> len content <= pos.
Proof. unfold char_at, len. apply nth_error_None. Qed.

(** [_skip_whitespace] never moves backwards. *)
Lemma skip_ws_loop_ge (fuel : nat) (content : text) (pos : nat) :
  pos <= skip_ws_loop fuel content pos.
Proof.
  revert pos. induction fuel as [| fuel IH]; intros pos; [cbn; lia |].
  cbn [skip_ws_loop].
  destruct (char_at content pos) as [c |] eqn:Ec; [| lia].
  apply char_at_some in Ec.
  destruct (isspace c); [specialize (IH (pos + 1)); lia |].
  destruct (teqb (slice content pos (pos + 2)) (lit "--")); [| lia].
  destruct (teqb (slice content pos (pos + 4)) (lit "--[[")).
  - destruct (find content (lit "]]") (pos + 4)) as [e |] eqn:Ef; [| lia].
    apply find_bounds in Ef. specialize (IH (e + 2)). lia.
  - destruct (find content [newline] pos) as [e |] eqn:Ef; [| lia].
    apply find_bounds in Ef. specialize (IH (e + 1)). lia.
Qed.

Lemma skip_whitespace_ge (content : text) (pos : nat) :
  pos <= _skip_whitespace content pos.
Proof. apply skip_ws_loop_ge. Qed.

(** The fuel [_skip_whitespace] gives its loop is enough: more changes
    nothing. *)
Lemma skip_ws_loop_enough (content : text) (fuel fuel' pos : nat) :
  len content - pos < fuel -> len content - pos < fuel' ->
  skip_ws_loop fuel content pos = skip_ws_loop fuel' content pos.
Proof.
  revert fuel' pos. induction fuel as [| fuel IH]; intros fuel' pos H H'; [lia |].
  destruct fuel' as [| fuel']; [lia |].
  cbn [skip_ws_loop].
  destruct (char_at content pos) as [c |] eqn:Ec; [| reflexivity].
  apply char_at_some in Ec.
  destruct (isspace c); [apply IH; lia |].
  destruct (teqb (slice content pos (pos + 2)) (lit "--")); [| reflexivity].
  destruct (teqb (slice content pos (pos + 4)) (lit "--[[")).
  - destruct (find content (lit "]]") (pos + 4)) as [e |] eqn:Ef; [| reflexivity].
    apply find_bounds in Ef. apply IH; lia.
  - destruct (find content [newline] pos) as [e |] eqn:Ef; [| reflexivity].
    apply find_bounds in Ef. apply IH; lia.
Qed.

Lemma skip_whitespace_unfold (content : text) (pos : nat) :
  _skip_whitespace content pos
  = match char_at content pos with
    | None => pos
    | Some c =>
        if isspace c then _skip_whitespace content (pos + 1)
        else if teqb (slice content pos (pos + 2)) (lit "--") then
          if teqb (slice content pos (pos + 4)) (lit "--[[") then
            match find content (lit "]]") (pos + 4) with
            | None => len content
            | Some e => _skip_whitespace content (e + 2)
            end
          else
            match find content [newline] pos with
            | None => len content
            | Some e => _skip_whitespace content (e + 1)
            end
        else pos
    end.
Proof.
  unfold _skip_whitespace at 1. cbn [skip_ws_loop].
  destruct (char_at content pos) as [c |] eqn:Ec; [| reflexivity].
  apply char_at_some in Ec.
  destruct (isspace c); [apply skip_ws_loop_enough; lia |].
  destruct (teqb (slice content pos (pos + 2)) (lit "--")); [| reflexivity].
  destruct (teqb (slice content pos (pos + 4)) (lit "--[[")).
  - destruct (find content (lit "]]") (pos + 4)) as [e |] eqn:Ef; [| reflexivity].
    apply find_bounds in Ef. apply skip_ws_loop_enough; lia.
  - destruct (find content [newline] pos) as [e |] eqn:Ef; [| reflexivity].
    apply find_bounds in Ef. apply skip_ws_loop_enough; lia.
Qed.

Lemma string_loop_progress (rest : text) (pos : nat) (quote : ascii)
      (acc : text) (s : string) (p : nat) :
  string_loop rest pos quote acc = Ok (s, p) -> pos < p.
Proof.
  remember (List.length rest) as n eqn:En.
  revert rest pos acc En.
  induction n as [n IH] using lt_wf_ind. intros rest pos acc En H.
  destruct rest as [| c rest]; [discriminate |].
  cbn [string_loop] in H.
  destruct (ceqb c quote); [injection H as _ <-; lia |].
  destruct (ceqb c "\").
  - destruct rest as [| c' rest]; [discriminate |].
    apply (IH (List.length rest)) in H; [lia | cbn in En; lia | reflexivity].
  - apply (IH (List.length rest)) in H; [lia | cbn in En; lia | reflexivity].
Qed.

Lemma parse_string_progress content pos quote s p :
  _parse_string content pos quote = Ok (s, p) -> pos < p.
Proof.
  unfold _parse_string. destruct (char_at content pos); [| discriminate].
  destruct (ceqb a quote); [| discriminate].
  intros H. apply string_loop_progress in H. lia.
Qed.

Lemma parse_long_string_progress content pos s p :
  _parse_long_string content pos = Ok (s, p) -> pos < p.
Proof.
  unfold _parse_long_string.
  destruct (teqb (slice content pos (pos + 2)) (lit "[[")); [| discriminate].
  destruct (find content (lit "]]") (pos + 2)) as [e |] eqn:Ef; [| discriminate].
  apply find_bounds in Ef. intros H. injection H as _ <-. lia.
Qed.

Lemma match_identifier_nonempty s t :
  match_identifier s = Some t -> t <> [].
Proof.
  unfold match_identifier. destruct s as [| c r]; [discriminate |].
  destruct (is_ident_start c); [| discriminate].
  intros H. injection H as <-. discriminate.
Qed.

Lemma match_number_nonempty s t : match_number s = Some t -> t <> [].
Proof.
  unfold match_number. destruct (optional is_minus s) as [sg s1].
  destruct (match_hex s1) as [h |] eqn:Eh.
  - intros H. injection H as <-. unfold match_hex in Eh.
    destruct s1 as [| z [| x r]]; try discriminate.
    destruct (ceqb z "0" && ceqb x "x"); [| discriminate].
    destruct (take_while is_hex_digit r); [discriminate |].
    injection Eh as <-. destruct sg; discriminate.
  - destruct (match_decimal s1) as [m |] eqn:Em; [| discriminate].
    intros H. injection H as <-. unfold match_decimal in Em.
    destruct (take_while is_digit s1) as [| d ds]; [discriminate |].
    destruct (optional is_dot (skipn (List.length (d :: ds)) s1)) as [dot s2].
    injection Em as <-. destruct sg; discriminate.
Qed.

Lemma match_token_nonempty s t : match_token s = Some t -> t <> [].
Proof.
  unfold match_token. destruct (match_number s) eqn:En.
  - intros H. injection H as <-. eapply match_number_nonempty. exact En.
  - destruct (starts_with (lit "true") s); [intros H; injection H as <-; discriminate |].
    destruct (starts_with (lit "false") s); [intros H; injection H as <-; discriminate |].
    destruct (starts_with (lit "nil") s); [intros H; injection H as <-; discriminate |].
    apply match_identifier_nonempty.
Qed.

Lemma search_in_bounds rest at_ name table_start match_end :
  search_in rest at_ = Some (name, table_start, match_end) ->
  at_ <= table_start /\ match_end = table_start + 1.
Proof.
  revert at_. induction rest as [| c rest IH]; intros at_ H.
  - cbn [search_in] in H. destruct (match_assignment []) as [[n off] |]; [| discriminate].
    injection H as <- <- <-. lia.
  - cbn [search_in] in H.
    destruct (match_assignment (c :: rest)) as [[n off] |].
    + injection H as <- <- <-. lia.
    + apply IH in H. lia.
Qed.

Lemma assignment_search_bounds content pos name table_start match_end :
  assignment_search content pos = Some (name, table_start, match_end) ->
  pos <= table_start /\ match_end = table_start + 1.
Proof. apply search_in_bounds. Qed.

End TextFacts.

Section ParserFacts.
Import Py Watcher.

(** Case analysis on the head of a hypothesis that evaluates a parser
    function, until a result is reached. *)
Ltac break H :=
  repeat
    (cbn [bind] in H;
     match type of H with
     | context [bind ?m _] =>
         lazymatch m with
         | context [match _ with _ => _ end] => fail
         | context [bind _ _] => fail
         | _ => destruct m eqn:?; cbn [bind] in H; try discriminate H
         end
     | context [match ?x with _ => _ end] =>
         lazymatch x with
         | context [match _ with _ => _ end] => fail
         | _ => destruct x eqn:?; try discriminate H
         end
     end).

Lemma token_length_positive s t : match_token s = Some t -> 0 < List.length t.
Proof.
  intros H. apply match_token_nonempty in H. destruct t; [congruence | cbn; lia].
Qed.

Ltac facts :=
  repeat match goal with
    | H : Ok _ = Ok _ |- _ => injection H as ?; subst
    | H : _parse_string _ _ _ = Ok _ |- _ => apply parse_string_progress in H
    | H : _parse_long_string _ _ = Ok _ |- _ => apply parse_long_string_progress in H
    | H : match_token _ = Some _ |- _ => apply token_length_positive in H
    | H : char_at _ _ = Some _ |- _ => apply char_at_some in H
    end.

Ltac skips :=
  repeat match goal with
    | H : context [_skip_whitespace ?c ?x] |- _ =>
        lazymatch goal with
        | _ : x <= _skip_whitespace c x |- _ => fail
        | _ => pose proof (skip_whitespace_ge c x)
        end
    end.

Lemma skip_separator_ge content pos : pos <= skip_separator content pos.
Proof.
  unfold skip_separator. pose proof (skip_whitespace_ge content pos).
  destruct (char_is _ _ "," || char_is _ _ ";"); lia.
Qed.

Lemma read_entry_progress parse_value content pos c e p :
  (forall q v p', parse_value q = Ok (v, p') -> q < p') ->
  read_entry parse_value content pos c = Ok (e, p) -> pos < p.
Proof.
  intros Hpv H. unfold read_entry in H.
  break H; facts;
    repeat match goal with
      | E : parse_value ?q = Ok _ |- _ => apply Hpv in E
      end.
  all: skips; lia.
Qed.

Lemma parser_progress (fuel : nat) :
  (forall content pos v p,
      _parse_value fuel content pos = Ok (v, p) -> pos < p)
  /\ (forall content start v p,
         _parse_table fuel content start = Ok (v, p) -> start < p)
  /\ (forall content pos st seen st' seen' p,
         table_loop fuel content pos st seen = Ok (st', seen', p) -> pos <= p).
Proof.
  induction fuel as [| fuel (IHv & IHt & IHl)];
    [repeat split; intros; discriminate |].
  repeat split.
  - intros content pos v p H. cbn [_parse_value] in H.
    pose proof (skip_whitespace_ge content pos) as Hs.
    set (pos1 := _skip_whitespace content pos) in *.
    break H; facts; try lia.
    all: try (apply IHt in H; lia).
  - intros content start v p H. cbn [_parse_table] in H.
    break H; facts.
    match goal with E : table_loop _ _ _ _ _ = Ok _ |- _ => apply IHl in E end.
    lia.
  - intros content pos st seen st' seen' p H. cbn [table_loop] in H.
    pose proof (skip_whitespace_ge content pos) as Hs.
    set (pos1 := _skip_whitespace content pos) in *.
    destruct (pos <? len content); [| injection H as <- <- <-; lia].
    destruct (char_at content pos1) as [c |]; [| discriminate].
    destruct (ceqb c "}"); [injection H as <- <- <-; lia |].
    destruct (read_entry (_parse_value fuel content) content pos1 c)
      as [[e p1] | |] eqn:Er; try discriminate.
    cbn [bind] in H.
    destruct (record_entry st e) as [st1 | |]; try discriminate.
    cbn [bind] in H. apply IHl in H.
    apply read_entry_progress in Er; [| apply IHv].
    pose proof (skip_separator_ge content p1). lia.
Qed.

Lemma parse_table_progress fuel content start v p :
  _parse_table fuel content start = Ok (v, p) -> start < p.
Proof. apply parser_progress. Qed.

(** ** Fuel *)

Lemma string_loop_fuel rest pos quote acc :
  string_loop rest pos quote acc <> OutOfFuel.
Proof.
  remember (List.length rest) as n eqn:En. revert rest pos acc En.
  induction n as [n IH] using lt_wf_ind. intros rest pos acc En.
  destruct rest as [| c rest]; [discriminate |].
  cbn [string_loop]. destruct (ceqb c quote); [discriminate |].
  destruct (ceqb c "\").
  - destruct rest as [| c' rest]; [discriminate |].
    apply (IH (List.length rest)); [cbn in En; lia | reflexivity].
  - apply (IH (List.length rest)); [cbn in En; lia | reflexivity].
Qed.

Lemma bind_fuel {A B} (m : res A) (k : A -> res B) :
  m <> OutOfFuel -> (forall a, k a <> OutOfFuel) -> bind m k <> OutOfFuel.
Proof. intros Hm Hk. destruct m; cbn; [apply Hk | discriminate | congruence]. Qed.

Lemma bind_fuel_ok {A B} (m : res A) (k : A -> res B) :
  m <> OutOfFuel -> (forall a, m = Ok a -> k a <> OutOfFuel) ->
  bind m k <> OutOfFuel.
Proof.
  intros Hm Hk. destruct m; cbn; [apply Hk; reflexivity | discriminate | congruence].
Qed.

Lemma parse_string_fuel content pos quote :
  _parse_string content pos quote <> OutOfFuel.
Proof.
  unfold _parse_string. destruct (char_at content pos); [| discriminate].
  destruct (ceqb a quote); [apply string_loop_fuel | discriminate].
Qed.

Lemma parse_long_string_fuel content pos :
  _parse_long_string content pos <> OutOfFuel.
Proof.
  unfold _parse_long_string.
  destruct (teqb _ _); [| discriminate]. destruct (find _ _ _); discriminate.
Qed.

Lemma number_of_token_fuel token : number_of_token token <> OutOfFuel.
Proof.
  unfold number_of_token, py_float, py_int, py_int16.
  repeat match goal with
    | |- context [let (_, _) := ?x in _] => destruct x
    | |- context [if ?x then _ else _] => destruct x
    | |- context [match ?x with _ => _ end] => destruct x
    end; cbn; discriminate.
Qed.

Lemma setitem_fuel d k v : setitem d k v <> OutOfFuel.
Proof. unfold setitem. destruct (hashable k); discriminate. Qed.

Lemma record_entry_fuel st e : record_entry st e <> OutOfFuel.
Proof.
  destruct e; cbn [record_entry]; apply bind_fuel;
    try apply setitem_fuel; intros; discriminate.
Qed.

Lemma collect_fuel d indices : collect d indices <> OutOfFuel.
Proof.
  induction indices as [| i rest IH]; [discriminate |].
  cbn [collect]. apply bind_fuel.
  - unfold getitem. destruct (assoc_get _ _ _); discriminate.
  - intros v. apply bind_fuel; [exact IH | intros; discriminate].
Qed.

Lemma finish_table_fuel st : finish_table st <> OutOfFuel.
Proof.
  unfold finish_table. destruct (_ && _); [| discriminate].
  destruct (max_key _); [| discriminate].
  destruct (_ =? _)%Z; [| discriminate].
  apply bind_fuel; [apply collect_fuel | intros; discriminate].
Qed.

Lemma read_entry_fuel parse_value content pos c :
  (forall q, pos <= q -> parse_value q <> OutOfFuel) ->
  (forall q v p, parse_value q = Ok (v, p) -> q < p) ->
  read_entry parse_value content pos c <> OutOfFuel.
Proof.
  intros Hf Hp. unfold read_entry.
  pose proof (skip_whitespace_ge content (pos + 1)) as S1.
  destruct (ceqb c "[").
  - apply bind_fuel_ok; [apply Hf; lia |]. intros [key p1] E.
    apply Hp in E.
    destruct (missing _ _ "]"); [discriminate |].
    destruct (missing _ _ "="); [discriminate |].
    apply bind_fuel; [| intros []; discriminate].
    apply Hf.
    pose proof (skip_whitespace_ge content p1).
    pose proof (skip_whitespace_ge content (_skip_whitespace content p1 + 1)).
    pose proof (skip_whitespace_ge content
                  (_skip_whitespace content (_skip_whitespace content p1 + 1) + 1)).
    lia.
  - destruct (_is_identifier_start content pos).
    + destruct (match_ident_equals _) as [[key n] |].
      * apply bind_fuel; [| intros []; discriminate].
        apply Hf. pose proof (skip_whitespace_ge content (pos + n)). lia.
      * apply bind_fuel; [apply Hf; lia | intros []; discriminate].
    + apply bind_fuel; [apply Hf; lia | intros []; discriminate].
Qed.

(** The fuel each parser function needs at a position. *)
Lemma parser_fuel (fuel : nat) :
  (forall content pos,
      3 * (len content - pos) + 2 <= fuel ->
      _parse_value fuel content pos <> OutOfFuel)
  /\ (forall content start,
         3 * (len content - start) + 1 <= fuel ->
         _parse_table fuel content start <> OutOfFuel)
  /\ (forall content pos st seen,
         3 * (len content - pos) + 3 <= fuel ->
         table_loop fuel content pos st seen <> OutOfFuel).
Proof.
  induction fuel as [| fuel (IHv & IHt & IHl)];
    [repeat split; intros; lia |].
  repeat split.
  - intros content pos Hf. cbn [_parse_value].
    pose proof (skip_whitespace_ge content pos) as Hs.
    set (pos1 := _skip_whitespace content pos) in *.
    destruct (char_at content pos1) as [c |] eqn:Ec; [| discriminate].
    destruct (ceqb c "{"); [apply IHt; lia |].
    destruct (ceqb c dquote);
      [apply bind_fuel; [apply parse_string_fuel | intros []; discriminate] |].
    destruct (ceqb c squote);
      [apply bind_fuel; [apply parse_string_fuel | intros []; discriminate] |].
    destruct (teqb _ _);
      [apply bind_fuel; [apply parse_long_string_fuel | intros []; discriminate] |].
    destruct (match_token _) as [token |]; [| discriminate].
    destruct (teqb token (lit "true")); [discriminate |].
    destruct (teqb token (lit "false")); [discriminate |].
    destruct (teqb token (lit "nil")); [discriminate |].
    destruct (match_number token); [| discriminate].
    apply bind_fuel; [apply number_of_token_fuel | intros; discriminate].
  - intros content start Hf. cbn [_parse_table].
    destruct (char_at content start) as [c |] eqn:Ec; [| discriminate].
    apply char_at_some in Ec.
    destruct (ceqb c "{"); [| discriminate].
    apply bind_fuel; [apply IHl; lia |]. intros [[st seen] pos].
    destruct (missing content pos "}"); [discriminate |].
    apply bind_fuel; [apply finish_table_fuel | intros; discriminate].
  - intros content pos st seen Hf. cbn [table_loop].
    destruct (pos <? len content) eqn:Epos; [| discriminate].
    apply Nat.ltb_lt in Epos.
    pose proof (skip_whitespace_ge content pos) as Hs.
    set (pos1 := _skip_whitespace content pos) in *.
    destruct (char_at content pos1) as [c |] eqn:Ec; [| discriminate].
    destruct (ceqb c "}"); [discriminate |].
    apply bind_fuel_ok.
    + apply read_entry_fuel; [| apply parser_progress].
      intros q Hq. apply IHv. lia.
    + intros [e p1] Er.
      apply read_entry_progress in Er; [| apply parser_progress].
      apply bind_fuel; [apply record_entry_fuel |]. intros st1.
      apply IHl. pose proof (skip_separator_ge content p1). lia.
Qed.

(** [enough content] is enough for a table anywhere in [content]. *)
Lemma parse_table_fuel content start :
  _parse_table (enough content) content start <> OutOfFuel.
Proof. apply parser_fuel. unfold enough. lia. Qed.

End ParserFacts.

Section FuelFacts.
Import Py Watcher.

Lemma bind_stable {A B} (m m' : res A) (k k' : A -> res B) r :
  (m <> OutOfFuel -> m' = m) ->
  (forall a, m = Ok a -> k a = r -> r <> OutOfFuel -> k' a = r) ->
  bind m k = r -> r <> OutOfFuel -> bind m' k' = r.
Proof.
  intros Hm Hk H Hr. destruct m as [a | e |]; cbn [bind] in H.
  - rewrite Hm by discriminate. cbn [bind]. apply Hk; [reflexivity | exact H | exact Hr].
  - rewrite Hm by discriminate. exact H.
  - congruence.
Qed.

Lemma read_entry_stable pv pv' content pos c r :
  (forall q, pv q <> OutOfFuel -> pv' q = pv q) ->
  read_entry pv content pos c = r -> r <> OutOfFuel ->
  read_entry pv' content pos c = r.
Proof.
  intros Hpv. unfold read_entry.
  destruct (ceqb c "[").
  - apply bind_stable; [apply Hpv |]. intros [key p1] _.
    destruct (missing _ _ "]"); [auto |].
    destruct (missing _ _ "="); [auto |].
    apply bind_stable; [apply Hpv | auto].
  - destruct (_is_identifier_start content pos).
    + destruct (match_ident_equals _) as [[key n] |];
        (apply bind_stable; [apply Hpv | auto]).
    + apply bind_stable; [apply Hpv | auto].
Qed.

(** A result reached with some fuel is reached with any larger fuel. *)
Lemma parser_stable (fuel : nat) :
  forall fuel', fuel <= fuel' ->
  (forall content pos,
      _parse_value fuel content pos <> OutOfFuel ->
      _parse_value fuel' content pos = _parse_value fuel content pos)
  /\ (forall content start,
         _parse_table fuel content start <> OutOfFuel ->
         _parse_table fuel' content start = _parse_table fuel content start)
  /\ (forall content pos st seen,
         table_loop fuel content pos st seen <> OutOfFuel ->
         table_loop fuel' content pos st seen
         = table_loop fuel content pos st seen).
Proof.
  induction fuel as [| fuel IH]; intros fuel' Hle;
    [repeat split; intros; cbn in *; congruence |].
  destruct fuel' as [| fuel']; [lia |].
  destruct (IH fuel' ltac:(lia)) as (IHv & IHt & IHl).
  repeat split.
  - intros content pos H. cbn [_parse_value] in *.
    destruct (char_at content _) as [c |]; [| reflexivity].
    destruct (ceqb c "{"); [apply IHt; exact H |]. reflexivity.
  - intros content start H. cbn [_parse_table] in *.
    destruct (char_at content start) as [c |]; [| reflexivity].
    destruct (ceqb c "{"); [| reflexivity].
    eapply bind_stable; [apply IHl | | reflexivity | exact H]. auto.
  - intros content pos st seen H. cbn [table_loop] in *.
    destruct (pos <? len content); [| reflexivity].
    destruct (char_at content _) as [c |]; [| reflexivity].
    destruct (ceqb c "}"); [reflexivity |].
    eapply bind_stable; [| | reflexivity | exact H].
    + intros Hr. apply (read_entry_stable (_parse_value fuel content));
        [intros q; apply IHv | reflexivity | exact Hr].
    + intros [e p1] _ Hk Hne.
      eapply bind_stable; [| | exact Hk | exact Hne]; [auto |].
      intros st1 _ Hl Hne'. rewrite <- Hl. apply IHl. rewrite Hl. exact Hne'.
Qed.

(** With [enough content] of fuel a table gets its result: more fuel gives
    the same. *)
Lemma parse_table_enough content start fuel :
  enough content <= fuel ->
  _parse_table fuel content start
  = _parse_table (enough content) content start.
Proof.
  intros H. apply (parser_stable (enough content) fuel H).
  apply parse_table_fuel.
Qed.

End FuelFacts.

Section TableFacts.
Import Py Watcher.

Lemma in_sequence_split index entries :
  in_sequence index entries
  = in_order index entries && forallb int_key entries.
Proof.
  revert index. induction entries as [| e rest IH]; intros index; [reflexivity |].
  destruct e as [key value | key value | value]; cbn; rewrite ?IH.
  - destruct (ne_int key index), (isinstance_int key), (in_order (index + 1) rest);
      reflexivity.
  - reflexivity.
  - reflexivity.
Qed.

Lemma ne_int_false k i :
  ne_int k i = false <->
  exists q, num_of k = Some (NFin q) /\ Qeq q (inject_Z i).
Proof.
  unfold ne_int. destruct (num_of k) as [[q | b] |]; cbn.
  - rewrite negb_false_iff, Qeq_bool_iff. split.
    + intros H. exists q. split; [reflexivity | exact H].
    + intros (q' & [= <-] & H). exact H.
  - split; [discriminate | intros (q & [=] & _)].
  - split; [discriminate | intros (q & [=] & _)].
Qed.

Lemma inject_Z_eq a b : Qeq (inject_Z a) (inject_Z b) -> a = b.
Proof. unfold Qeq, inject_Z. cbn. lia. Qed.

Lemma ne_int_unique k i j : ne_int k i = false -> i <> j -> ne_int k j = true.
Proof.
  intros H Hij. destruct (ne_int k j) eqn:E; [reflexivity | exfalso].
  apply ne_int_false in H as (q & Hq & Hi).
  apply ne_int_false in E as (q' & Hq' & Hj).
  rewrite Hq in Hq'. injection Hq' as <-.
  apply Hij, inject_Z_eq. rewrite <- Hi, <- Hj. reflexivity.
Qed.

Lemma key_eqb_int k i : key_eqb k (VInt i) = negb (ne_int k i).
Proof.
  unfold key_eqb, ne_int.
  destruct k; cbn; try reflexivity; rewrite negb_involutive; reflexivity.
Qed.

Lemma key_eqb_distinct a b i j :
  ne_int a i = false -> ne_int b j = false -> i <> j -> key_eqb a b = false.
Proof.
  intros Ha Hb Hij.
  apply ne_int_false in Ha as (qa & Ha & Hi).
  apply ne_int_false in Hb as (qb & Hb & Hj).
  assert (N : num_eqb (NFin qa) (NFin qb) = false).
  { cbn. destruct (Qeq_bool qa qb) eqn:E; [| reflexivity].
    apply Qeq_bool_iff in E. exfalso. apply Hij, inject_Z_eq.
    rewrite <- Hi, <- Hj. exact E. }
  unfold key_eqb.
  destruct a; try discriminate Ha; destruct b; try discriminate Hb;
    rewrite Ha, Hb; exact N.
Qed.

Lemma ne_int_hashable k i : ne_int k i = false -> hashable k = true.
Proof.
  intros H. apply ne_int_false in H as (q & H & _).
  destruct k; try discriminate H; reflexivity.
Qed.

Lemma numbered_app from a b :
  numbered from (a ++ b)
  <-> numbered from a /\ numbered (from + Z.of_nat (List.length a)) b.
Proof.
  revert from. induction a as [| [k v] a IH]; intros from.
  - cbn. rewrite Z.add_0_r. tauto.
  - cbn [app numbered List.length]. rewrite IH.
    replace (from + 1 + Z.of_nat (List.length a))%Z
      with (from + Z.of_nat (S (List.length a)))%Z by lia.
    tauto.
Qed.

(** A key equal to the next index is new to a numbered dictionary. *)
Lemma assoc_set_numbered from d k v :
  numbered from d ->
  ne_int k (from + Z.of_nat (List.length d)) = false ->
  assoc_set key_eqb d k v = d ++ [(k, v)].
Proof.
  revert from. induction d as [| [k' v'] rest IH]; intros from Hn Hk; [reflexivity |].
  cbn [numbered] in Hn. destruct Hn as [Hk' Hrest].
  cbn [assoc_set app].
  rewrite (key_eqb_distinct k' k from (from + Z.of_nat (List.length ((k', v') :: rest))));
    [| exact Hk' | exact Hk | cbn [List.length]; lia].
  f_equal. apply (IH (from + 1)%Z); [exact Hrest |].
  replace (from + 1 + Z.of_nat (List.length rest))%Z
    with (from + Z.of_nat (List.length ((k', v') :: rest)))%Z
    by (cbn [List.length]; lia).
  exact Hk.
Qed.

Lemma assoc_get_skip from pre rest i :
  numbered from pre ->
  (from + Z.of_nat (List.length pre) <= i)%Z ->
  assoc_get key_eqb (pre ++ rest) (VInt i) = assoc_get key_eqb rest (VInt i).
Proof.
  revert from. induction pre as [| [k v] pre IH]; intros from Hn Hi; [reflexivity |].
  cbn [numbered] in Hn. destruct Hn as [Hk Hpre].
  cbn [app assoc_get]. rewrite key_eqb_int.
  rewrite (ne_int_unique k from i Hk) by (cbn [List.length] in Hi; lia).
  cbn [negb]. apply (IH (from + 1)%Z); [exact Hpre |].
  cbn [List.length] in Hi. lia.
Qed.

Lemma collect_numbered suf :
  forall pre,
    numbered 1 (pre ++ suf) ->
    collect (pre ++ suf)
            (map (fun k => (1 + Z.of_nat k)%Z)
                 (seq (List.length pre) (List.length suf)))
    = Ok (map snd suf).
Proof.
  induction suf as [| [k v] suf IH]; intros pre Hn; [reflexivity |].
  cbn [List.length seq map collect].
  pose proof Hn as Hn'. apply numbered_app in Hn' as [Hpre Hsuf].
  cbn [numbered] in Hsuf. destruct Hsuf as [Hk _].
  unfold getitem. rewrite (assoc_get_skip 1 pre); [| exact Hpre | lia].
  cbn [assoc_get]. rewrite key_eqb_int, Hk. cbn [negb bind].
  specialize (IH (pre ++ [(k, v)])).
  rewrite <- app_assoc in IH. cbn [app] in IH.
  rewrite length_app in IH. cbn [List.length] in IH.
  replace (List.length pre + 1) with (S (List.length pre)) in IH by lia.
  rewrite (IH Hn). reflexivity.
Qed.

Lemma int_of_numbered k i :
  isinstance_int k = true -> ne_int k i = false -> int_of k = i.
Proof.
  intros Hi Hk. apply ne_int_false in Hk as (q & Hq & He).
  destruct k; try discriminate Hi; cbn in Hq; injection Hq as <-;
    apply inject_Z_eq in He; exact He.
Qed.

Lemma max_key_numbered d :
  forall from,
    d <> [] -> numbered from d ->
    forallb isinstance_int (keys d) = true ->
    exists m, max_key (keys d) = Some m
              /\ int_of m = (from + Z.of_nat (List.length d) - 1)%Z.
Proof.
  induction d as [| [k v] rest IH]; intros from Hne Hn Hall; [congruence |].
  cbn [numbered] in Hn. destruct Hn as [Hk Hrest].
  cbn [keys map fst forallb] in Hall. apply andb_prop in Hall as [Hik Hall].
  cbn [keys map fst max_key]. fold (keys rest).
  pose proof (int_of_numbered k from Hik Hk) as Ek.
  destruct rest as [| kv rest'] eqn:Er.
  - cbn. exists k. split; [reflexivity | lia].
  - rewrite <- Er in *.
    destruct (IH (from + 1)%Z) as (m & Hm & Em);
      [rewrite Er; discriminate | exact Hrest | exact Hall |].
    rewrite Hm. exists m.
    assert (L : (int_of k <? int_of m)%Z = true).
    { apply Z.ltb_lt. rewrite Ek, Em, Er. cbn [List.length]. lia. }
    rewrite L. split; [reflexivity |]. rewrite Em. cbn [List.length]. lia.
Qed.

Lemma record_entries_flag entries :
  forall st st',
    record_entries st entries = Ok st' ->
    is_array st' = is_array st && in_order (array_index st) entries.
Proof.
  induction entries as [| e rest IH]; intros st st' H.
  - cbn in H. injection H as <-. cbn. rewrite andb_true_r. reflexivity.
  - cbn [record_entries] in H.
    destruct (record_entry st e) as [st1 | |] eqn:E1; try discriminate.
    cbn [bind] in H. apply IH in H. rewrite H. clear H.
    cbn [in_order].
    destruct e as [key value | key value | value]; cbn [record_entry] in E1;
      destruct (setitem _ _ _) as [r | |]; try discriminate;
      cbn [bind] in E1; injection E1 as <-;
      cbn [is_array array_index in_order_entry].
    + destruct (ne_int key (array_index st)); cbn [negb andb].
      * rewrite andb_false_r. reflexivity.
      * reflexivity.
    + rewrite andb_false_r. reflexivity.
    + reflexivity.
Qed.

Lemma record_entries_in_order entries :
  forall st,
    numbered 1 (result st) ->
    array_index st = (1 + Z.of_nat (List.length (result st)))%Z ->
    in_order (array_index st) entries = true ->
    exists st',
      record_entries st entries = Ok st'
      /\ result st' = result st ++ items_of_entries (array_index st) entries
      /\ numbered 1 (result st').
Proof.
  induction entries as [| e rest IH]; intros st Hn Hi Ho.
  - exists st. cbn [record_entries items_of_entries]. rewrite app_nil_r.
    split; [reflexivity | split; [reflexivity | exact Hn]].
  - cbn [in_order] in Ho. apply andb_prop in Ho as [He Hrest].
    assert (Hkey : ne_int (fst (item_of_entry (array_index st) e))
                          (array_index st) = false).
    { destruct e as [key value | key value | value]; cbn in He |- *.
      - apply negb_true_iff in He. exact He.
      - discriminate.
      - unfold ne_int. cbn. rewrite Qeq_bool_refl. reflexivity. }
    assert (Hset : setitem (result st) (fst (item_of_entry (array_index st) e))
                           (snd (item_of_entry (array_index st) e))
                   = Ok (result st ++ [item_of_entry (array_index st) e])).
    { unfold setitem. rewrite (ne_int_hashable _ _ Hkey).
      rewrite (assoc_set_numbered 1); [| exact Hn | rewrite <- Hi; exact Hkey].
      destruct (item_of_entry (array_index st) e). reflexivity. }
    assert (Hstep : exists st1,
               record_entry st e = Ok st1
               /\ result st1 = result st ++ [item_of_entry (array_index st) e]
               /\ array_index st1 = (array_index st + 1)%Z).
    { destruct e as [key value | key value | value];
        cbn [item_of_entry fst snd] in Hkey, Hset;
        cbn [record_entry in_order_entry item_of_entry] in *.
      - rewrite Hset, Hkey. cbn [bind]. eexists.
        split; [reflexivity | split; reflexivity].
      - discriminate.
      - rewrite Hset. cbn [bind]. eexists.
        split; [reflexivity | split; reflexivity]. }
    destruct Hstep as (st1 & E1 & R1 & I1).
    assert (Hn1 : numbered 1 (result st1)).
    { rewrite R1. apply numbered_app. split; [exact Hn |].
      destruct (item_of_entry (array_index st) e) as [k v]. cbn [numbered].
      cbn [fst] in Hkey. rewrite <- Hi. split; [exact Hkey | exact I]. }
    destruct (IH st1) as (st' & E' & R' & N').
    + exact Hn1.
    + rewrite I1, R1, length_app, Hi. cbn [List.length]. lia.
    + rewrite I1. exact Hrest.
    + exists st'. cbn [record_entries]. rewrite E1. cbn [bind].
      repeat split; [exact E' | | exact N'].
      rewrite R', R1, I1, <- app_assoc. reflexivity.
Qed.

Lemma items_of_entries_values index entries :
  in_order index entries = true ->
  map snd (items_of_entries index entries) = map entry_value entries.
Proof.
  revert index. induction entries as [| e rest IH]; intros index H; [reflexivity |].
  cbn [in_order] in H. apply andb_prop in H as [_ H].
  cbn [items_of_entries map]. rewrite (IH _ H).
  destruct e; reflexivity.
Qed.

Lemma items_of_entries_int_keys index entries :
  in_order index entries = true ->
  forallb isinstance_int (keys (items_of_entries index entries))
  = forallb int_key entries.
Proof.
  revert index. induction entries as [| e rest IH]; intros index H; [reflexivity |].
  cbn [in_order] in H. apply andb_prop in H as [He H].
  cbn [items_of_entries keys map forallb]. fold (keys (items_of_entries (index + 1) rest)).
  rewrite (IH _ H). destruct e; try reflexivity. discriminate.
Qed.

Lemma py_range_from_one n :
  py_range 1 (Z.of_nat n + 1) = map (fun k => (1 + Z.of_nat k)%Z) (seq 0 n).
Proof.
  unfold py_range. replace (Z.to_nat (Z.of_nat n + 1 - 1)) with n by lia.
  reflexivity.
Qed.

(** The conversion at the end of [_parse_table], on a table whose keys came
    in order. *)
Lemma finish_table_numbered st :
  is_array st = true -> result st <> [] -> numbered 1 (result st) ->
  finish_table st
  = Ok (if forallb isinstance_int (keys (result st))
        then VList (map snd (result st))
        else VDict (result st)).
Proof.
  intros Ha Hne Hn. unfold finish_table. rewrite Ha.
  destruct (result st) as [| kv d'] eqn:Ed; [congruence |].
  rewrite <- Ed in *. assert (Hnil : is_nil (result st) = false) by (rewrite Ed; reflexivity).
  rewrite Hnil. cbn [negb andb].
  destruct (forallb isinstance_int (keys (result st))) eqn:Eall; [| reflexivity].
  destruct (max_key_numbered (result st) 1 Hne Hn Eall) as (m & Hm & Em).
  rewrite Hm.
  replace (1 + Z.of_nat (List.length (result st)) - 1)%Z
    with (Z.of_nat (List.length (result st))) in Em by lia.
  rewrite Em, Z.eqb_refl, py_range_from_one.
  pose proof (collect_numbered (result st) [] Hn) as Hc.
  cbn [app List.length] in Hc. rewrite Hc. reflexivity.
Qed.

(** What [_parse_table] makes of the entries it has read. *)
Lemma finish_table_classifies entries st :
  record_entries initial_state entries = Ok st ->
  finish_table st
  = Ok (if negb (is_nil entries) && in_sequence 1 entries
        then VList (map entry_value entries)
        else VDict (result st)).
Proof.
  intros H.
  pose proof (record_entries_flag entries _ _ H) as Hflag.
  cbn [initial_state is_array array_index andb] in Hflag.
  rewrite in_sequence_split.
  destruct (in_order 1 entries) eqn:Eo.
  - destruct (record_entries_in_order entries initial_state) as (st' & E' & R' & N');
      [exact I | reflexivity | exact Eo |].
    rewrite H in E'. injection E' as <-.
    cbn [initial_state result array_index app] in R'.
    destruct entries as [| e rest].
    + cbn in H. injection H as <-. reflexivity.
    + remember (e :: rest) as entries eqn:Ee.
      assert (Hnil : is_nil entries = false) by (rewrite Ee; reflexivity).
      assert (Hne : result st <> []) by (rewrite R', Ee; discriminate).
      rewrite (finish_table_numbered st Hflag Hne N').
      rewrite R', items_of_entries_int_keys by exact Eo.
      rewrite items_of_entries_values by exact Eo.
      rewrite Hnil. reflexivity.
  - unfold finish_table. rewrite Hflag. cbn [andb].
    rewrite andb_false_r. reflexivity.
Qed.

Lemma record_entries_app st a b :
  record_entries st (a ++ b)
  = bind (record_entries st a) (fun st' => record_entries st' b).
Proof.
  revert st. induction a as [| e rest IH]; intros st; [reflexivity |].
  cbn [app record_entries]. destruct (record_entry st e); cbn [bind];
    [apply IH | reflexivity | reflexivity].
Qed.

(** The entries the table loop lists are the ones it has recorded. *)
Lemma table_loop_entries fuel :
  forall content pos st seen st' seen' p,
    table_loop fuel content pos st seen = Ok (st', seen', p) ->
    exists new, seen' = seen ++ new /\ record_entries st new = Ok st'.
Proof.
  induction fuel as [| fuel IH]; intros content pos st seen st' seen' p H;
    [discriminate |].
  cbn [table_loop] in H.
  destruct (pos <? len content);
    [| injection H as <- <- <-; exists []; rewrite app_nil_r; split; reflexivity].
  destruct (char_at content _) as [c |]; [| discriminate].
  destruct (ceqb c "}");
    [injection H as <- <- <-; exists []; rewrite app_nil_r; split; reflexivity |].
  destruct (read_entry _ content _ c) as [[e p1] | |]; try discriminate.
  cbn [bind] in H.
  destruct (record_entry st e) as [st1 | |] eqn:E1; try discriminate.
  cbn [bind] in H. apply IH in H as (new & Hs & Hr).
  exists (e :: new). split.
  - rewrite Hs, <- app_assoc. reflexivity.
  - cbn [record_entries]. rewrite E1. exact Hr.
Qed.

(** C1 (as amended).  A table that [_parse_table] parses is returned as a
    Sequence exactly when it has at least one entry and every entry is a bare
    value or a bracketed [int] key equal to the running array index at the
    point where it is read, so that the keys arrive as 1, 2, ..., N in this
    order; the Sequence lists the values in that order.  In every other case
    the table is returned as a Mapping holding the items in the order in
    which their keys were first set. *)
Theorem table_classification
        (fuel : nat) (content : text) (start : nat) (v : pyval) (p : nat) :
  _parse_table fuel content start = Ok (v, p) ->
  exists st entries pos,
    table_loop (fuel - 1) content (start + 1) initial_state []
    = Ok (st, entries, pos)
    /\ p = pos + 1
    /\ record_entries initial_state entries = Ok st
    /\ v = if negb (is_nil entries) && in_sequence 1 entries
           then VList (map entry_value entries)
           else VDict (result st).
Proof.
  intros H. destruct fuel as [| fuel]; [discriminate |].
  cbn [_parse_table] in H. replace (S fuel - 1) with fuel by lia.
  destruct (char_at content start) as [c |]; [| discriminate].
  destruct (ceqb c "{"); [| discriminate].
  destruct (table_loop fuel content (start + 1) initial_state [])
    as [[[st entries] pos] | |] eqn:El; try discriminate.
  cbn [bind] in H.
  destruct (missing content pos "}"); [discriminate |].
  pose proof (table_loop_entries fuel _ _ _ _ _ _ _ El) as (new & Hs & Hr).
  cbn [app] in Hs. subst new.
  rewrite (finish_table_classifies entries st Hr) in H.
  cbn [bind] in H. injection H as <- <-.
  exists st, entries, pos. repeat split; assumption || reflexivity.
Qed.

End TableFacts.

Section ParseFacts.
Import Py Watcher.





Lemma assoc_set_in {V : Type} (d : list (string * V)) k v name value :
  In (name, value) (assoc_set String.eqb d k v) ->
  In (name, value) d \/ (name = k /\ value = v).
Proof.
  induction d as [| [k' v'] rest IH]; cbn [assoc_set In].
  - intros [[= <- <-] | []]. right. split; reflexivity.
  - destruct (String.eqb_spec k' k) as [-> | _]; cbn [In].
    + intros [[= <- <-] | H]; [right; split; reflexivity | left; right; exact H].
    + intros [H | H]; [left; left; exact H |].
      destruct (IH H) as [H' | H']; [left; right; exact H' | right; exact H'].
Qed.





End ParseFacts.

Section NumberFacts.
Import Py Watcher.

Lemma hex_digit_cases (c : ascii) :
  is_hex_digit c = true ->
  is_dot c = false /\ is_e (lower c) = is_e c.
Proof.
  destruct c as [[] [] [] [] [] [] [] []]; vm_compute;
    intros H; try discriminate H; split; reflexivity.
Qed.

Lemma hex_digits_no_dot (hs : text) :
  forallb is_hex_digit hs = true -> contains is_dot hs = false.
Proof.
  induction hs as [| c hs IH]; intros H; [reflexivity |].
  cbn [forallb] in H. apply andb_prop in H as [Hc H].
  cbn [contains]. rewrite (proj1 (hex_digit_cases c Hc)), (IH H). reflexivity.
Qed.

Lemma hex_digits_lower_e (hs : text) :
  forallb is_hex_digit hs = true ->
  contains is_e (map lower hs) = contains is_e hs.
Proof.
  induction hs as [| c hs IH]; intros H; [reflexivity |].
  cbn [forallb] in H. apply andb_prop in H as [Hc H].
  cbn [map contains]. rewrite (proj2 (hex_digit_cases c Hc)), (IH H). reflexivity.
Qed.

(** What the number branch of [_parse_value] makes of a [0x] literal: the
    integer, unless one of the digits is an [e]. *)
Lemma hex_literal_number (hs : text) :
  hs <> [] -> forallb is_hex_digit hs = true ->
  number_of_token (lit "0x" ++ hs)
  = if contains is_e hs then Raise ValueError
    else Ok (VInt (digits_value 16 hs)).
Proof.
  intros Hne Hhex. unfold number_of_token.
  change (lit "0x" ++ hs) with ("0"%char :: "x"%char :: hs).
  cbn [map contains].
  change (is_dot "0") with false. change (is_dot "x") with false.
  change (is_e (lower "0")) with false. change (is_e (lower "x")) with false.
  rewrite (hex_digits_no_dot hs Hhex), (hex_digits_lower_e hs Hhex).
  cbn [orb].
  destruct (contains is_e hs).
  - unfold py_float. cbn [optional].
    change (is_minus "0") with false. cbv iota.
    cbn [take_while]. change (is_digit "0") with true.
    change (is_digit "x") with false. cbv iota.
    cbn [List.length skipn optional take_while].
    change (is_dot "x") with false. cbv iota.
    cbn [take_while]. change (is_digit "x") with false. cbv iota.
    cbn [List.length skipn is_nil andb].
    destruct (optional is_sign hs) as [esg es].
    change (is_e "x") with false. reflexivity.
  - change (starts_with (lit "0x") ("0"%char :: "x"%char :: hs)) with true.
    cbn [orb]. unfold py_int16. cbn [optional].
    change (is_minus "0") with false. cbv iota.
    change (starts_with (lit "0x") ("0"%char :: "x"%char :: hs)) with true.
    cbn [skipn]. rewrite Hhex.
    destruct hs; [congruence |]. reflexivity.
Qed.

End NumberFacts.

Section ParserExamples.
Import Py Watcher Examples.

Lemma table_classification_witness :
  exists st entries pos,
    table_loop (enough mixed_table - 1) mixed_table (0 + 1) initial_state []
    = Ok (st, entries, pos)
    /\ 16 = pos + 1
    /\ record_entries initial_state entries = Ok st
    /\ VList [VStr "a"; VStr "b"]
       = if negb (is_nil entries) && in_sequence 1 entries
         then VList (map entry_value entries)
         else VDict (result st).
Proof.
  apply (table_classification (enough mixed_table) mixed_table 0
                              (VList [VStr "a"; VStr "b"]) 16).
  vm_compute. reflexivity.
Defined.

(** C1 as stated fails.  The keys of the table are 2 and 1, the run 1..2,
    and the table is returned as a Mapping, not as a Sequence: the loop has
    cleared [is_array] at the key 2, which is not the running index 1. *)
Lemma table_out_of_order_counterexample :
  parse_table_string out_of_order
  = Ok (VDict [(VInt 2, VStr "b"); (VInt 1, VStr "a")]).
Proof. vm_compute. reflexivity. Qed.

(** C2 does not hold of the code.  The hexadecimal literal [0xdead] holds
    an [e], so [_parse_value] hands it to [float] and a [ValueError] comes
    out, of [_parse_value] and of [parse] alike; [0x1F], without an [e],
    is read as the integer 31. *)
Theorem hex_literal_with_e_raises_ValueError :
  (forall fuel, _parse_value (S fuel) (lit "0xdead") 0 = Raise ValueError)
  /\ parse (lit "x = { 0xdead }") = Raise ValueError
  /\ (forall fuel, _parse_value (S fuel) (lit "0x1F") 0 = Ok (VInt 31, 4)).
Proof.
  split; [| split].
  - intros fuel. vm_compute. reflexivity.
  - vm_compute. reflexivity.
  - intros fuel. vm_compute. reflexivity.
Qed.



End ParserExamples.

(* ===================================================================== *)
(** * More on the request pipeline                                        *)
(* ===================================================================== *)

Section RequestFacts.
Import Sync Examples.

Lemma sleeps_app (xs ys : list action) :
  sleeps (xs ++ ys) = sleeps xs ++ sleeps ys.
Proof. unfold sleeps. apply flat_map_app. Qed.

(** What the loop does on a transient reply. *)
Lemma request_loop_transient config net n k last :
  transient (server net k) = true ->
  exists wait_time,
    request_loop config net (S n) k last
    = after [Acquire; Send k; Sleep wait_time]
            (request_loop config net n (S k) (Some (exception_of (server net k))))
    /\ ((wait_time <= max_retry_delay config)%Q
        \/ exists header,
             server net k = Response 429 header
             /\ wait_time = inject_Z (retry_after_of header)).
Proof.
  intros Ht. cbn [request_loop].
  destruct (server net k) as [status header |] eqn:Es; cbn [transient exception_of] in *.
  - destruct (status =? 429)%Z eqn:E429.
    + eexists. split; [reflexivity |].
      unfold retry_after_of.
      destruct ((match header with Some n0 => n0 | None => 60%Z end) =? 0)%Z.
      * left. apply py_min_le_r.
      * right. apply Z.eqb_eq in E429. subst status. eauto.
    + cbn [orb] in Ht.
      assert (H401 : (status =? 401)%Z = false) by lia.
      assert (Hok : is_success status = false) by (unfold is_success; lia).
      rewrite H401, Hok, Ht.
      eexists. split; [reflexivity |]. left. apply py_min_le_r.
  - eexists. split; [reflexivity |]. left. apply py_min_le_r.
Qed.




Lemma sleeps_capped config net n :
  forall k last,
    Forall (fun seconds =>
              (seconds <= max_retry_delay config)%Q
              \/ exists j header,
                   server net j = Response 429 header
                   /\ seconds = inject_Z (retry_after_of header))
           (sleeps (fst (request_loop config net n k last))).
Proof.
  induction n as [| n IH]; intros k last; [constructor |].
  destruct (transient (server net k)) eqn:Et.
  - destruct (request_loop_transient config net n k last Et) as (w & Eq & Hw).
    rewrite Eq. unfold after. cbn [fst]. rewrite sleeps_app.
    apply Forall_app. split; [| apply IH].
    cbn. constructor; [| constructor].
    destruct Hw as [Hw | (header & Hs & Hw)]; [left; exact Hw |].
    right. exists k, header. split; assumption.
  - cbn [request_loop].
    destruct (server net k) as [status header |]; [| discriminate].
    cbn [transient] in Et. apply orb_false_iff in Et as [E429 E500].
    rewrite E429, E500.
    destruct (status =? 401)%Z.
    + destruct (k =? 0); [| constructor].
      destruct (refresh net); [| constructor | constructor].
      unfold after. cbn [fst]. rewrite sleeps_app. cbn [sleeps flat_map app].
      apply IH.
    + destruct (is_success status); constructor.
Qed.


Lemma sleeps_repeat_refresh n : sleeps (repeat Refresh n) = [].
Proof. induction n as [| n IH]; [reflexivity | exact IH]. Qed.




(** X4.  No sleep between the attempts of [_request] is longer than
    [max_retry_delay], unless it is the [Retry-After] of a 429 (60 when the
    header is absent), which is slept in full. *)
Theorem request_sleeps_capped (config : SyncConfig) (net : network) :
  Forall (fun seconds =>
            (seconds <= max_retry_delay config)%Q
            \/ exists j header,
                 server net j = Response 429 header
                 /\ seconds = inject_Z (retry_after_of header))
         (sleeps (fst (_request config net))).
Proof.
  destruct (token_available (stored_token net)) eqn:Et.
  - rewrite (request_with_token _ _ Et). unfold after. cbn [fst].
    rewrite sleeps_app, sleeps_repeat_refresh. apply sleeps_capped.
  - destruct (request_without_token config _ Et) as (e & ->).
    cbn [fst]. rewrite sleeps_repeat_refresh. constructor.
Qed.



End RequestFacts.

(* ===================================================================== *)
(** * More on the rate limiter                                            *)
(* ===================================================================== *)

Section LimiterFacts.
Import Sync.
Local Open Scope Q_scope.

Lemma prune_length window cutoff :
  (List.length (prune window cutoff) <= List.length window)%nat.
Proof.
  induction window as [| t rest IH]; [reflexivity |].
  cbn [prune]. destruct (Qltb t cutoff); cbn [List.length]; lia.
Qed.

Lemma wait_for_room_unfold limit span ts time window cutoff :
  wait_for_room limit span ts time window cutoff
  = if (limit <=? Z.of_nat (List.length window))%Z then
      match window with
      | [] => Py.Raise Py.IndexError
      | oldest :: _ =>
          match ts with
          | [] => Py.OutOfFuel
          | d :: ts' =>
              let now := sleep_if_positive (oldest - cutoff) time + d in
              wait_for_room limit span ts' now (prune window (now - span))
                            (now - span)
          end
      end
    else Py.Ok (window, {| now := time; ticks := ts |}).
Proof. destruct ts; reflexivity. Qed.

(** With a limit of zero or less a waiting loop never ends normally. *)

(** With a limit of zero or less a waiting loop never ends normally. *)
Lemma wait_for_room_never limit span ts :
  (limit <= 0)%Z ->
  forall time window cutoff r,
    wait_for_room limit span ts time window cutoff <> Py.Ok r.
Proof.
  intros Hl. induction ts as [| d ts IH]; intros time window cutoff r;
    rewrite wait_for_room_unfold;
    (destruct (limit <=? Z.of_nat (List.length window))%Z eqn:E;
     [| exfalso; apply Z.leb_gt in E; lia]);
    destruct window; try discriminate.
  apply IH.
Qed.

(** A waiting loop whose window holds no more than the limit ends after at
    most one round when the clock moves on. *)
Lemma wait_for_room_returns limit span d ts time window cutoff :
  (1 <= limit)%Z ->
  (Z.of_nat (List.length window) <= limit)%Z ->
  0 < d ->
  cutoff + span <= time ->
  exists window' c',
    wait_for_room limit span (d :: ts) time window cutoff = Py.Ok (window', c')
    /\ time <= now c'
    /\ (ticks c' = d :: ts \/ ticks c' = ts)
    /\ (Z.of_nat (List.length window') < limit)%Z.
Proof.
  intros Hl Hlen Hd Hc. rewrite wait_for_room_unfold.
  destruct (limit <=? Z.of_nat (List.length window))%Z eqn:E.
  - destruct window as [| oldest rest]; [cbn in E; lia |].
    cbv zeta.
    pose proof (sleep_if_positive_later (oldest - cutoff) time) as Hsl.
    assert (Hold : oldest + span <= sleep_if_positive (oldest - cutoff) time).
    { unfold sleep_if_positive.
      destruct (Qltb 0 (oldest - cutoff)) eqn:Ew.
      - lra.
      - apply Qltb_false in Ew. lra. }
    set (time1 := sleep_if_positive (oldest - cutoff) time) in *.
    assert (Hp : Qltb oldest (time1 + d - span) = true)
      by (apply Qltb_true; lra).
    cbn [prune]. rewrite Hp.
    pose proof (prune_length rest (time1 + d - span)) as Hpl.
    cbn [List.length] in Hlen.
    rewrite wait_for_room_unfold.
    destruct (limit <=? Z.of_nat (List.length (prune rest (time1 + d - span))))%Z
      eqn:E'; [lia |].
    eexists _, _. split; [reflexivity |]. cbn [now ticks].
    repeat split; [lra | right; reflexivity | lia].
  - eexists _, _. split; [reflexivity |]. cbn [now ticks].
    repeat split; [lra | left; reflexivity | lia].
Qed.

(** X5.  A limiter whose limits are at least one and whose windows hold no
    more timestamps than the limits (as they do after every [acquire])
    grants every [acquire] when the clock moves on between its readings:
    the call reads the clock at most four times, that is, it waits at most
    once for each window, and leaves windows within the limits again. *)
Theorem acquire_returns_after_one_wait (limiter : RateLimiter) (c : clock) :
  (1 <= rpm_limit limiter)%Z ->
  (1 <= rph_limit limiter)%Z ->
  (Z.of_nat (List.length (minute_window limiter)) <= rpm_limit limiter)%Z ->
  (Z.of_nat (List.length (hour_window limiter)) <= rph_limit limiter)%Z ->
  Forall (fun d => 0 < d) (ticks c) ->
  (4 <= List.length (ticks c))%nat ->
  exists g limiter' c',
    acquire limiter c = Py.Ok (g, limiter', c')
    /\ now c < g
    /\ now c' = g
    /\ (List.length (ticks c) <= List.length (ticks c') + 4)%nat
    /\ (Z.of_nat (List.length (minute_window limiter')) <= rpm_limit limiter')%Z
    /\ (Z.of_nat (List.length (hour_window limiter')) <= rph_limit limiter')%Z.
Proof.
  intros Hm Hh Hml Hhl Hpos Hfour. unfold acquire.
  destruct (ticks c) as [| d0 [| d1 [| d2 [| d3 rest]]]] eqn:Et;
    cbn [List.length] in Hfour; try lia.
  apply Forall_cons_iff in Hpos as [H0 Hpos].
  apply Forall_cons_iff in Hpos as [H1 Hpos].
  apply Forall_cons_iff in Hpos as [H2 Hpos].
  apply Forall_cons_iff in Hpos as [H3 Hrest0].
  set (now0 := now c + d0).
  pose proof (prune_length (minute_window limiter) (now0 - 60)) as Pm.
  pose proof (prune_length (hour_window limiter) (now0 - 3600)) as Ph.
  destruct (wait_for_room_returns (rpm_limit limiter) 60 d1 (d2 :: d3 :: rest)
              now0 (prune (minute_window limiter) (now0 - 60)) (now0 - 60))
    as (minute1 & c1 & E1 & T1 & K1 & L1); [lia | lia | exact H1 | lra |].
  rewrite E1. cbn [Py.bind].
  assert (Hc1 : exists d ts, ticks c1 = d :: ts /\ 0 < d
                             /\ (1 <= List.length ts)%nat
                             /\ (List.length rest < List.length ts)%nat
                             /\ Forall (fun d => 0 < d) ts
                             /\ (List.length ts <= S (S (List.length rest)))%nat).
  { destruct K1 as [K1 | K1]; rewrite K1.
    - exists d1, (d2 :: d3 :: rest). cbn [List.length].
      repeat split; try lia; try assumption.
      repeat constructor; assumption.
    - exists d2, (d3 :: rest). cbn [List.length].
      repeat split; try lia; try assumption.
      repeat constructor; assumption. }
  destruct Hc1 as (d & ts & Ec1 & Hd & Hts & Hrest & Hpts & Hub).
  rewrite Ec1.
  destruct (wait_for_room_returns (rph_limit limiter) 3600 d ts (now c1)
              (prune (hour_window limiter) (now0 - 3600)) (now0 - 3600))
    as (hour1 & c2 & E2 & T2 & K2 & L2); [lia | lia | exact Hd | lra |].
  rewrite E2. cbn [Py.bind].
  assert (Hc2 : exists d' ts', ticks c2 = d' :: ts' /\ 0 < d'
                               /\ (List.length rest <= List.length ts')%nat).
  { destruct K2 as [K2 | K2]; rewrite K2.
    - exists d, ts. repeat split; [exact Hd | lia].
    - destruct ts as [| d' ts']; [cbn in Hts; lia |].
      apply Forall_cons_iff in Hpts as [Hd' _].
      exists d', ts'. cbn [List.length] in *. repeat split; [exact Hd' | lia]. }
  destruct Hc2 as (d' & ts' & Ec2 & Hd' & Hlen').
  rewrite Ec2.
  eexists _, _, _. split; [reflexivity |].
  cbn [now ticks minute_window hour_window rpm_limit rph_limit].
  rewrite !length_app. cbn [List.length].
  repeat split; try lia.
  unfold now0 in *. lra.
Qed.

(** X6.  A limiter with a limit of zero or less never grants: [acquire]
    does not return, and with an empty minute window and a limit per minute
    of zero or less it raises [IndexError] at once, the waiting loop reading
    the head of the empty window. *)
Theorem acquire_never_grants_without_quota (limiter : RateLimiter) (c : clock) :
  (rpm_limit limiter <= 0 \/ rph_limit limiter <= 0)%Z ->
  (forall r, acquire limiter c <> Py.Ok r)
  /\ ((rpm_limit limiter <= 0)%Z ->
      minute_window limiter = [] ->
      ticks c <> [] ->
      acquire limiter c = Py.Raise Py.IndexError).
Proof.
  intros Hq. split.
  - intros r. unfold acquire.
    destruct (ticks c) as [| d ticks0]; [discriminate |].
    destruct Hq as [Hq | Hq].
    + destruct (wait_for_room (rpm_limit limiter) 60 ticks0 (now c + d)
                  (prune (minute_window limiter) (now c + d - 60))
                  (now c + d - 60)) as [r1 | |] eqn:E1; try discriminate.
      exfalso. exact (wait_for_room_never _ _ _ Hq _ _ _ _ E1).
    + destruct (wait_for_room (rpm_limit limiter) 60 ticks0 (now c + d)
                  (prune (minute_window limiter) (now c + d - 60))
                  (now c + d - 60)) as [[minute1 c1] | |]; try discriminate.
      cbn [Py.bind].
      destruct (wait_for_room (rph_limit limiter) 3600 (ticks c1) (now c1)
                  (prune (hour_window limiter) (now c + d - 3600))
                  (now c + d - 3600)) as [r2 | |] eqn:E2; try discriminate.
      exfalso. exact (wait_for_room_never _ _ _ Hq _ _ _ _ E2).
  - intros Hm Hw Ht. unfold acquire.
    destruct (ticks c) as [| d ticks0]; [congruence |].
    rewrite Hw. cbn [prune]. rewrite wait_for_room_unfold.
    destruct (rpm_limit limiter <=? Z.of_nat (List.length (@nil Q)))%Z eqn:E;
      [reflexivity | cbn in E; lia].
Qed.

End LimiterFacts.

Section LimiterFactsExamples.
Import Sync Examples.
Local Open Scope Q_scope.

(** The second request of a minute is granted once the first is 60 seconds
    old: the call sleeps from 1 to 60 and records the grant at 62. *)
Lemma acquire_returns_after_one_wait_witness :
  exists g limiter' c',
    acquire used_limiter busy_clock = Py.Ok (g, limiter', c')
    /\ now busy_clock < g
    /\ now c' = g
    /\ (List.length (ticks busy_clock) <= List.length (ticks c') + 4)%nat
    /\ (Z.of_nat (List.length (minute_window limiter')) <= rpm_limit limiter')%Z
    /\ (Z.of_nat (List.length (hour_window limiter')) <= rph_limit limiter')%Z.
Proof.
  apply (acquire_returns_after_one_wait used_limiter busy_clock).
  - simpl. lia.
  - simpl. lia.
  - simpl. lia.
  - simpl. lia.
  - repeat (constructor; [reflexivity |]). constructor.
  - simpl. lia.
Defined.

Lemma acquire_never_grants_without_quota_witness :
  acquire (new_limiter 0 10) busy_clock = Py.Raise Py.IndexError.
Proof.
  apply (proj2 (acquire_never_grants_without_quota
                  (new_limiter 0 10) busy_clock
                  (or_introl (Z.le_refl 0)))).
  - simpl. lia.
  - reflexivity.
  - discriminate.
Defined.

End LimiterFactsExamples.

(* ===================================================================== *)
(** * More on the store                                                   *)
(* ===================================================================== *)

Section QueueFacts.
Import Py Sync.
Context {runtime : Runtime}.

Lemma stored_status_app store rest j :
  stored_status (store ++ rest) j
  = match stored_status store j with
    | Some s => Some s
    | None => stored_status rest j
    end.
Proof.
  unfold stored_status. induction store as [| r store IH]; [reflexivity |].
  cbn [app find]. destruct (String.eqb (row_id r) j); [reflexivity | exact IH].
Qed.

Lemma stored_status_none store j :
  stored_status store j = None <-> ~ In j (map row_id store).
Proof.
  unfold stored_status. induction store as [| r store IH].
  - cbn. tauto.
  - cbn [find map In]. destruct (String.eqb_spec (row_id r) j) as [E | E].
    + split; [discriminate | intros H; exfalso; apply H; left; exact E].
    + rewrite IH. tauto.
Qed.

Lemma stored_status_remove store item_id j :
  stored_status (remove_item store item_id) j
  = if String.eqb j item_id then None else stored_status store j.
Proof.
  unfold stored_status, remove_item.
  induction store as [| r store IH].
  - cbn. destruct (String.eqb j item_id); reflexivity.
  - cbn [filter find].
    destruct (String.eqb_spec (row_id r) item_id) as [E | E];
      cbn [negb find];
      destruct (String.eqb_spec (row_id r) j) as [E' | E'];
      destruct (String.eqb_spec j item_id) as [E'' | E''];
      try congruence; rewrite IH;
      destruct (String.eqb_spec j item_id); congruence.
Qed.

Lemma remove_item_ids store item_id :
  map row_id (remove_item store item_id)
  = filter (fun j => negb (String.eqb j item_id)) (map row_id store).
Proof.
  unfold remove_item. induction store as [| r store IH]; [reflexivity |].
  cbn [filter map]. destruct (String.eqb (row_id r) item_id); cbn [negb map];
    rewrite IH; reflexivity.
Qed.

Lemma NoDup_filter {A} (p : A -> bool) (l : list A) :
  NoDup l -> NoDup (filter p l).
Proof.
  induction 1 as [| x l Hx Hl IH]; [constructor |].
  cbn [filter]. destruct (p x); [| exact IH].
  constructor; [| exact IH]. intros Hin. apply filter_In in Hin. tauto.
Qed.

Lemma filter_all {A} (p : A -> bool) (l : list A) :
  (forall x, In x l -> p x = true) -> filter p l = l.
Proof.
  induction l as [| x l IH]; intros H; [reflexivity |].
  cbn [filter]. rewrite (H x (or_introl eq_refl)). f_equal.
  apply IH. intros y Hy. apply H. right. exact Hy.
Qed.

Lemma remove_item_unknown store item_id :
  ~ In item_id (map row_id store) -> remove_item store item_id = store.
Proof.
  intros Hn. unfold remove_item. apply filter_all. intros r Hr.
  destruct (String.eqb_spec (row_id r) item_id) as [E |]; [| reflexivity].
  exfalso. apply Hn. rewrite <- E. apply in_map. exact Hr.
Qed.

(** Removing the one row of an id from a table of distinct ids shortens it
    by one. *)
Lemma remove_item_length store item_id :
  NoDup (map row_id store) ->
  List.length store
  = (if existsb (has_id item_id) store then 1 else 0)
    + List.length (remove_item store item_id).
Proof.
  unfold remove_item, has_id. induction store as [| r store IH]; intros Hnd;
    [reflexivity |].
  cbn [map] in Hnd. apply NoDup_cons_iff in Hnd as [Hr Hnd].
  cbn [existsb filter].
  destruct (String.eqb_spec (row_id r) item_id) as [E | E];
    cbn [orb negb List.length].
  - rewrite <- E in *.
    pose proof (remove_item_unknown store (row_id r) Hr) as Hsame.
    unfold remove_item in Hsame. rewrite Hsame. reflexivity.
  - rewrite (IH Hnd). lia.
Qed.

(** X7.  [enqueue] on a table of distinct ids keeps the ids distinct: the
    row of an id already there is replaced, so the table keeps its length,
    and otherwise the table grows by one.  Afterwards the id has the status
    of the item, and every other id the status it had. *)
Theorem enqueue_replaces_by_id
        (store store' : sync_queue) (item : SyncItem) :
  NoDup (map row_id store) ->
  enqueue store item = Ok store' ->
  NoDup (map row_id store')
  /\ List.length store'
     = (if existsb (has_id (id item)) store
        then List.length store else S (List.length store))
  /\ stored_status store' (id item) = Some (status_value (status item))
  /\ (forall j, j <> id item -> stored_status store' j = stored_status store j).
Proof.
  intros Hnd Hrun. unfold enqueue in Hrun.
  destruct (json_dumps (data item)) as [text | |]; try discriminate.
  cbn [bind] in Hrun. injection Hrun as <-.
  fold (remove_item store (id item)).
  split; [| split; [| split]].
  - rewrite map_app, remove_item_ids. cbn [map row_id].
    apply NoDup_app; [apply NoDup_filter; exact Hnd | repeat constructor; intros [] |].
    intros j Hj [<- | []]. apply filter_In in Hj as [_ Hj].
    rewrite String.eqb_refl in Hj. discriminate.
  - rewrite length_app. cbn [List.length].
    pose proof (remove_item_length store (id item) Hnd) as Hlen.
    destruct (existsb (has_id (id item)) store); lia.
  - rewrite stored_status_app, stored_status_remove, String.eqb_refl.
    unfold stored_status. cbn [find row_id]. rewrite String.eqb_refl.
    reflexivity.
  - intros j Hj. rewrite stored_status_app, stored_status_remove.
    destruct (String.eqb_spec j (id item)) as [| _]; [contradiction |].
    destruct (stored_status store j); [reflexivity |].
    unfold stored_status. cbn [find row_id].
    destruct (String.eqb_spec (id item) j) as [E |]; [| reflexivity].
    exfalso. apply Hj. symmetry. exact E.
Qed.

(** X8.  [remove_item] deletes the row of the id and no other: afterwards
    the id has no status, every other id has the status it had, and for an
    id that is not in the table nothing changes. *)
Theorem remove_item_removes_only_that_id (store : sync_queue) (item_id : string) :
  stored_status (remove_item store item_id) item_id = None
  /\ (forall j, j <> item_id ->
                stored_status (remove_item store item_id) j
                = stored_status store j)
  /\ (~ In item_id (map row_id store) -> remove_item store item_id = store).
Proof.
  split; [| split].
  - rewrite stored_status_remove, String.eqb_refl. reflexivity.
  - intros j Hj. rewrite stored_status_remove.
    destruct (String.eqb_spec j item_id); [contradiction | reflexivity].
  - apply remove_item_unknown.
Qed.

Lemma update_item_status_columns store item_id st err time :
  map fixed_columns (update_item_status store item_id st err time)
  = map fixed_columns store.
Proof.
  unfold update_item_status. rewrite map_map. apply map_ext. intros r.
  destruct (String.eqb (row_id r) item_id); reflexivity.
Qed.

Lemma update_item_status_unknown store item_id st err time :
  ~ In item_id (map row_id store) ->
  update_item_status store item_id st err time = store.
Proof.
  intros Hn. unfold update_item_status.
  rewrite <- (map_id store) at 2. apply map_ext_in. intros r Hr.
  destruct (String.eqb_spec (row_id r) item_id) as [E |]; [| reflexivity].
  exfalso. apply Hn. rewrite <- E. apply in_map. exact Hr.
Qed.

(** X9.  [update_item_status] rewrites rows in place: the table keeps its
    rows in their order, with their id, type, direction, payload, checksum
    and creation time.  For an id that is not in the table it changes
    nothing, and raises nothing. *)
Theorem update_item_status_in_place
        (store : sync_queue) (item_id : string) (st : SyncStatus)
        (err : option string) (time : datetime) :
  map fixed_columns (update_item_status store item_id st err time)
  = map fixed_columns store
  /\ (~ In item_id (map row_id store) ->
      update_item_status store item_id st err time = store).
Proof.
  split; [apply update_item_status_columns | apply update_item_status_unknown].
Qed.

(** X10.  [clear_completed] deletes the rows that are uploaded and were
    last updated before the cutoff (the texts are compared) and no others,
    and returns the number of rows it deleted. *)
Theorem clear_completed_deletes_old_uploads (store : sync_queue) (cutoff : string) :
  (Z.of_nat (List.length (fst (clear_completed store cutoff)))
   + snd (clear_completed store cutoff)
   = Z.of_nat (List.length store))%Z
  /\ (forall r,
         In r (fst (clear_completed store cutoff))
         <-> In r store
             /\ ~ (row_status r = "uploaded"%string
                   /\ String.ltb (row_updated_at r) cutoff = true)).
Proof.
  unfold clear_completed. cbn [fst snd]. split.
  - induction store as [| r store IH]; [reflexivity |].
    cbn [filter].
    destruct (String.eqb (row_status r) (status_value UPLOADED)
              && String.ltb (row_updated_at r) cutoff);
      cbn [negb List.length]; lia.
  - intros r. rewrite filter_In. cbn [status_value].
    destruct (String.eqb_spec (row_status r) "uploaded") as [E | E];
      destruct (String.ltb (row_updated_at r) cutoff); cbn [andb negb];
      intuition congruence.
Qed.

Lemma direction_value_of_value text d :
  direction_of_value text = Ok d -> direction_value d = text.
Proof.
  unfold direction_of_value.
  destruct (String.eqb_spec text "upload"); [intros [= <-]; subst; reflexivity |].
  destruct (String.eqb_spec text "download"); [intros [= <-]; subst; reflexivity |].
  discriminate.
Qed.

Lemma status_value_of_value text s :
  status_of_value text = Ok s -> status_value s = text.
Proof.
  unfold status_of_value.
  destruct (String.eqb_spec text "pending"); [intros [= <-]; subst; reflexivity |].
  destruct (String.eqb_spec text "uploading"); [intros [= <-]; subst; reflexivity |].
  destruct (String.eqb_spec text "uploaded"); [intros [= <-]; subst; reflexivity |].
  destruct (String.eqb_spec text "failed"); [intros [= <-]; subst; reflexivity |].
  destruct (String.eqb_spec text "conflict"); [intros [= <-]; subst; reflexivity |].
  discriminate.
Qed.

Lemma direction_value_injective d d' :
  direction_value d = direction_value d' -> d = d'.
Proof. destruct d, d'; cbn; congruence. Qed.

Lemma status_value_injective s s' :
  status_value s = status_value s' -> s = s'.
Proof. destruct s, s'; cbn; congruence. Qed.

Lemma post_init_fields (item : SyncItem) :
  id (__post_init__ item) = id item
  /\ item_type (__post_init__ item) = item_type item
  /\ direction (__post_init__ item) = direction item
  /\ status (__post_init__ item) = status item
  /\ created_at (__post_init__ item) = created_at item
  /\ attempts (__post_init__ item) = attempts item.
Proof.
  unfold __post_init__. destruct (checksum item); repeat split; reflexivity.
Qed.

(** What [item_of_row] makes of a row. *)
Lemma item_of_row_fields r item :
  item_of_row r = Ok item ->
  id item = row_id r
  /\ item_type item = row_item_type r
  /\ direction_value (direction item) = row_direction r
  /\ status_value (status item) = row_status r
  /\ created_at item = fromisoformat (row_created_at r)
  /\ attempts item = row_attempts r.
Proof.
  unfold item_of_row. intros H.
  destruct (direction_of_value (row_direction r)) as [d | |] eqn:Ed;
    try discriminate.
  destruct (status_of_value (row_status r)) as [s | |] eqn:Es;
    try discriminate.
  cbn [bind] in H. injection H as <-.
  destruct (post_init_fields
              {| id := row_id r; item_type := row_item_type r;
                 data := json_loads (row_data r); direction := d; status := s;
                 created_at := fromisoformat (row_created_at r);
                 updated_at := fromisoformat (row_updated_at r);
                 attempts := row_attempts r; last_error := row_last_error r;
                 checksum := row_checksum r |})
    as (H1 & H2 & H3 & H4 & H5 & H6).
  rewrite H1, H2, H3, H4, H5, H6. cbn [id item_type direction status created_at attempts].
  repeat split;
    [apply direction_value_of_value; exact Ed
    | apply status_value_of_value; exact Es].
Qed.

(** A row holding the values of a direction and of a status is read back
    without an exception. *)
Lemma item_of_row_total r d s :
  row_direction r = direction_value d ->
  row_status r = status_value s ->
  exists item, item_of_row r = Ok item.
Proof.
  intros Hd Hs. unfold item_of_row.
  rewrite Hd, Hs, direction_of_value_value, status_of_value_value.
  cbn [bind]. eauto.
Qed.

Lemma items_of_rows_total rows d s :
  Forall (fun r => row_direction r = direction_value d
                   /\ row_status r = status_value s) rows ->
  exists items, items_of_rows rows = Ok items.
Proof.
  induction 1 as [| r rows [Hd Hs] _ (items & IH)]; [exists []; reflexivity |].
  destruct (item_of_row_total r d s Hd Hs) as (item & E).
  exists (item :: items). cbn [items_of_rows]. rewrite E, IH. reflexivity.
Qed.

Lemma items_of_rows_each rows :
  forall items,
    items_of_rows rows = Ok items ->
    Forall2 (fun r item => item_of_row r = Ok item) rows items.
Proof.
  induction rows as [| r rows IH]; intros items H.
  - injection H as <-. constructor.
  - cbn [items_of_rows] in H.
    destruct (item_of_row r) as [item | |] eqn:E; try discriminate.
    destruct (items_of_rows rows) as [rest | |]; try discriminate.
    cbn [bind] in H. injection H as <-.
    constructor; [exact E | apply IH; reflexivity].
Qed.

Lemma insert_by_created_at_perm r sorted :
  Permutation (insert_by_created_at r sorted) (r :: sorted).
Proof.
  induction sorted as [| r' rest IH]; [reflexivity |].
  cbn [insert_by_created_at].
  destruct (String.leb (row_created_at r) (row_created_at r')); [reflexivity |].
  rewrite IH. apply perm_swap.
Qed.

Lemma order_by_created_at_perm rows :
  Permutation (order_by_created_at rows) rows.
Proof.
  induction rows as [| r rows IH]; [reflexivity |].
  cbn [order_by_created_at fold_right].
  rewrite insert_by_created_at_perm. apply perm_skip. exact IH.
Qed.

(** *** The order of texts *)

Lemma ascii_compare_refl a : Ascii.compare a a = Eq.
Proof. unfold Ascii.compare. apply N.compare_refl. Qed.

Lemma string_compare_refl a : String.compare a a = Eq.
Proof.
  induction a as [| x a IH]; [reflexivity |].
  cbn [String.compare]. rewrite ascii_compare_refl. exact IH.
Qed.

Lemma string_compare_trans a :
  forall b c,
    String.compare a b = Lt -> String.compare b c = Lt ->
    String.compare a c = Lt.
Proof.
  induction a as [| x a IH]; intros [| y b] [| z c]; cbn [String.compare];
    try congruence.
  destruct (Ascii.compare x y) eqn:Exy; try discriminate;
    destruct (Ascii.compare y z) eqn:Eyz; try discriminate.
  - apply Ascii.compare_eq_iff in Exy, Eyz. subst.
    rewrite ascii_compare_refl. apply IH.
  - apply Ascii.compare_eq_iff in Exy. subst. rewrite Eyz. reflexivity.
  - apply Ascii.compare_eq_iff in Eyz. subst. rewrite Exy. reflexivity.
  - intros _ _. unfold Ascii.compare in *.
    rewrite N.compare_lt_iff in Exy, Eyz.
    rewrite (proj2 (N.compare_lt_iff _ _)) by lia. reflexivity.
Qed.

Lemma string_ltb_trans a b c :
  String.ltb a b = true -> String.ltb b c = true -> String.ltb a c = true.
Proof.
  unfold String.ltb. intros Hab Hbc.
  rewrite (string_compare_trans a b c); [reflexivity | |].
  - destruct (String.compare a b); congruence.
  - destruct (String.compare b c); congruence.
Qed.

Lemma string_ltb_irrefl a : String.ltb a a = false.
Proof. unfold String.ltb. rewrite string_compare_refl. reflexivity. Qed.

Lemma string_leb_cases a b :
  String.leb a b = true -> String.ltb a b = true \/ a = b.
Proof.
  unfold String.leb, String.ltb.
  destruct (String.compare a b) eqn:E; try discriminate; intros _.
  - right. apply String.compare_eq_iff. exact E.
  - left. reflexivity.
Qed.

Lemma string_leb_false a b : String.leb a b = false -> String.ltb b a = true.
Proof.
  unfold String.leb, String.ltb. rewrite (String.compare_antisym b a).
  destruct (String.compare a b); cbn; congruence.
Qed.

(** *** The order of the rows *)

Lemma older_trans queue a b c :
  older queue a b -> older queue b c -> older queue a c.
Proof.
  intros [Hab | [Eab Pab]] [Hbc | [Ebc Pbc]].
  - left. eapply string_ltb_trans; eassumption.
  - left. rewrite <- Ebc. exact Hab.
  - left. rewrite Eab. exact Hbc.
  - right. split; [congruence | lia].
Qed.

Lemma older_irrefl queue a : ~ older queue a a.
Proof.
  intros [H | [_ H]]; [rewrite string_ltb_irrefl in H; discriminate | lia].
Qed.

Lemma StronglySorted_in_impl {A} (R R' : A -> A -> Prop) (l : list A) :
  (forall x y, In x l -> In y l -> R x y -> R' x y) ->
  StronglySorted R l -> StronglySorted R' l.
Proof.
  induction l as [| a l IH]; intros Himp Hs; [constructor |].
  apply StronglySorted_inv in Hs as [Hs Ha].
  constructor.
  - apply IH; [| exact Hs].
    intros x y Hx Hy. apply Himp; right; assumption.
  - rewrite Forall_forall in *. intros x Hx.
    apply Himp; [left; reflexivity | right; exact Hx |]. apply Ha. exact Hx.
Qed.

Lemma StronglySorted_filter {A} (R : A -> A -> Prop) (p : A -> bool) (l : list A) :
  StronglySorted R l -> StronglySorted R (filter p l).
Proof.
  induction 1 as [| a l _ IH Ha]; [constructor |].
  cbn [filter]. destruct (p a); [| exact IH].
  constructor; [exact IH |].
  rewrite Forall_forall in *. intros x Hx. apply filter_In in Hx as [Hx _].
  apply Ha. exact Hx.
Qed.

Lemma StronglySorted_app_inv {A} (R : A -> A -> Prop) (l1 l2 : list A) :
  StronglySorted R (l1 ++ l2) ->
  StronglySorted R l1 /\ (forall x y, In x l1 -> In y l2 -> R x y).
Proof.
  induction l1 as [| a l1 IH]; intros Hs.
  - split; [constructor | intros x y []].
  - cbn [app] in Hs. apply StronglySorted_inv in Hs as [Hs Ha].
    destruct (IH Hs) as [Hl1 Hcross]. rewrite Forall_forall in Ha.
    split.
    + constructor; [exact Hl1 |]. apply Forall_forall. intros x Hx.
      apply Ha. apply in_or_app. left. exact Hx.
    + intros x y [<- | Hx] Hy.
      * apply Ha. apply in_or_app. right. exact Hy.
      * apply Hcross; assumption.
Qed.

(** The rows of a table of distinct ids stand in the order of their
    places. *)
Lemma place_sorted (queue : sync_queue) :
  NoDup (map row_id queue) ->
  StronglySorted (fun r r' => place (row_id r) queue < place (row_id r') queue)
                 queue.
Proof.
  induction queue as [| a queue IH]; intros Hnd; [constructor |].
  cbn [map] in Hnd. apply NoDup_cons_iff in Hnd as [Ha Hnd].
  assert (Hother : forall x, In x queue ->
                             String.eqb (row_id a) (row_id x) = false).
  { intros x Hx. apply String.eqb_neq. intros E. apply Ha. rewrite E.
    apply in_map. exact Hx. }
  constructor.
  - apply (StronglySorted_in_impl
             (fun r r' => place (row_id r) queue < place (row_id r') queue));
      [| apply IH; exact Hnd].
    intros x y Hx Hy Hlt. cbn [place].
    rewrite (Hother x Hx), (Hother y Hy). lia.
  - apply Forall_forall. intros x Hx. cbn [place].
    rewrite String.eqb_refl, (Hother x Hx). lia.
Qed.

(** Two rows of a table of distinct ids that have one id are one row. *)
Lemma rows_by_id (queue : sync_queue) a b :
  NoDup (map row_id queue) ->
  In a queue -> In b queue -> row_id a = row_id b -> a = b.
Proof.
  induction queue as [| x queue IH]; intros Hnd Ha Hb E; [destruct Ha |].
  cbn [map] in Hnd. apply NoDup_cons_iff in Hnd as [Hx Hnd].
  destruct Ha as [-> | Ha], Hb as [-> | Hb].
  - reflexivity.
  - exfalso. apply Hx. rewrite E. apply in_map. exact Hb.
  - exfalso. apply Hx. rewrite <- E. apply in_map. exact Ha.
  - apply IH; assumption.
Qed.

(** The insertion keeps the rows in order when the new row stands in the
    table before the others. *)
Lemma insert_by_created_at_sorted queue r sorted :
  StronglySorted (older queue) sorted ->
  Forall (fun x => place (row_id r) queue < place (row_id x) queue) sorted ->
  StronglySorted (older queue) (insert_by_created_at r sorted).
Proof.
  induction sorted as [| r' rest IH]; intros Hs Hp; cbn [insert_by_created_at];
    [repeat constructor |].
  apply StronglySorted_inv in Hs as [Hrest Hall].
  apply Forall_cons_iff in Hp as [Hp Hprest].
  destruct (String.leb (row_created_at r) (row_created_at r')) eqn:E.
  - assert (Hfirst : older queue r r').
    { destruct (string_leb_cases _ _ E) as [H | H];
        [left; exact H | right; split; assumption]. }
    constructor; [constructor; assumption |].
    constructor; [exact Hfirst |].
    eapply Forall_impl; [| exact Hall].
    intros x Hx. eapply older_trans; eassumption.
  - constructor; [apply IH; assumption |].
    apply Forall_forall. intros x Hx.
    apply (Permutation_in _ (insert_by_created_at_perm r rest)) in Hx.
    destruct Hx as [<- | Hx].
    + left. apply string_leb_false. exact E.
    + rewrite Forall_forall in Hall. apply Hall. exact Hx.
Qed.

Lemma order_by_created_at_sorted queue rows :
  StronglySorted (fun r r' => place (row_id r) queue < place (row_id r') queue)
                 rows ->
  StronglySorted (older queue) (order_by_created_at rows).
Proof.
  induction 1 as [| r rows _ IH Hr]; [constructor |].
  cbn [order_by_created_at fold_right].
  apply insert_by_created_at_sorted; [exact IH |].
  rewrite Forall_forall in *. intros x Hx. apply Hr.
  apply (Permutation_in _ (order_by_created_at_perm rows)). exact Hx.
Qed.

Lemma sql_limit_incl limit rows r : In r (sql_limit limit rows) -> In r rows.
Proof.
  unfold sql_limit. destruct (limit <? 0)%Z; [tauto |].
  intros H. rewrite <- (firstn_skipn (Z.to_nat limit) rows).
  apply in_or_app. left. exact H.
Qed.

Lemma sql_limit_length limit rows :
  (0 <= limit)%Z -> (Z.of_nat (List.length (sql_limit limit rows)) <= limit)%Z.
Proof.
  intros H. unfold sql_limit. destruct (limit <? 0)%Z eqn:E; [lia |].
  rewrite length_firstn. lia.
Qed.

Lemma selected_rows_match queue d s limit r :
  In r (selected_rows queue d s limit) ->
  In r queue
  /\ row_direction r = direction_value d
  /\ row_status r = status_value s.
Proof.
  unfold selected_rows. intros H. apply sql_limit_incl in H.
  apply (Permutation_in _ (order_by_created_at_perm _)) in H.
  apply filter_In in H as [Hin H]. apply andb_true_iff in H as [Hd Hs].
  apply String.eqb_eq in Hd, Hs. tauto.
Qed.

(** The rows fetched from a table of distinct ids are the oldest ones. *)
Lemma selected_rows_oldest_first queue d s limit :
  NoDup (map row_id queue) ->
  oldest_first queue d s limit (selected_rows queue d s limit).
Proof.
  intros Hnd.
  change (selected_rows queue d s limit)
    with (sql_limit limit (order_by_created_at (filter (selects d s) queue))).
  pose proof (order_by_created_at_perm (filter (selects d s) queue)) as Hperm.
  assert (Hsorted : StronglySorted (older queue)
                      (order_by_created_at (filter (selects d s) queue))).
  { apply order_by_created_at_sorted, StronglySorted_filter, place_sorted.
    exact Hnd. }
  assert (Hmatch : forall r,
             In r (order_by_created_at (filter (selects d s) queue)) <->
             In r queue /\ selects d s r = true).
  { intros r. rewrite <- filter_In. split; apply Permutation_in;
      [exact Hperm | symmetry; exact Hperm]. }
  revert Hperm Hsorted Hmatch.
  generalize (order_by_created_at (filter (selects d s) queue)) as sorted.
  intros sorted Hperm Hsorted Hmatch.
  unfold oldest_first, sql_limit. cbv zeta.
  rewrite <- (Permutation_length Hperm).
  destruct (limit <? 0)%Z.
  - split; [intros r Hr; apply Hmatch; exact Hr |].
    split; [reflexivity |]. split; [exact Hsorted |].
    intros r r' _ Hr' Hs' Hout. exfalso. apply Hout, Hmatch. tauto.
  - rewrite <- (firstn_skipn (Z.to_nat limit) sorted) in Hsorted.
    apply StronglySorted_app_inv in Hsorted as [Hfirst Hcross].
    split.
    { intros r Hr. apply Hmatch.
      rewrite <- (firstn_skipn (Z.to_nat limit) sorted).
      apply in_or_app. left. exact Hr. }
    split; [apply length_firstn |]. split; [exact Hfirst |].
    intros r r' Hr Hr' Hs' Hout. apply Hcross; [exact Hr |].
    assert (Hin : In r' sorted) by (apply Hmatch; tauto).
    rewrite <- (firstn_skipn (Z.to_nat limit) sorted) in Hin.
    apply in_app_or in Hin as [Hin | Hin]; [contradiction | exact Hin].
Qed.

(** Two lists of rows that are in order, of one length, and each older
    than what it leaves out of the rows of a kind, are one list. *)
Lemma oldest_rows_unique queue :
  forall (rows rows' : list row) (kind : row -> Prop),
    (forall a b, kind a -> kind b -> row_id a = row_id b -> a = b) ->
    List.length rows = List.length rows' ->
    StronglySorted (older queue) rows ->
    StronglySorted (older queue) rows' ->
    (forall r, In r rows -> kind r) ->
    (forall r, In r rows' -> kind r) ->
    (forall r r', In r rows -> kind r' -> ~ In r' rows -> older queue r r') ->
    (forall r r', In r rows' -> kind r' -> ~ In r' rows' -> older queue r r') ->
    rows = rows'.
Proof.
  induction rows as [| a t IH]; intros [| a' t'] kind Hid Hlen Hs Hs' Hk Hk' Hc Hc';
    try discriminate; [reflexivity |].
  apply StronglySorted_inv in Hs as [Hs Ha].
  apply StronglySorted_inv in Hs' as [Hs' Ha'].
  rewrite Forall_forall in Ha, Ha'.
  assert (first : forall (x y : row) (l l' : list row),
             (forall r, In r (x :: l) -> kind r) ->
             (forall r, In r (y :: l') -> kind r) ->
             (forall r, In r l -> older queue x r) ->
             (forall r r', In r (x :: l) -> kind r' -> ~ In r' (x :: l) ->
                           older queue r r') ->
             x = y \/ older queue x y).
  { intros x y l l' Hkx Hky Hx Hcx.
    destruct (in_dec string_dec (row_id y) (map row_id (x :: l))) as [Hin | Hout].
    - apply in_map_iff in Hin as (z & Ez & Hz).
      assert (z = y).
      { apply Hid; [apply Hkx; exact Hz | apply Hky; left; reflexivity | exact Ez]. }
      subst z. destruct Hz as [-> | Hz]; [left; reflexivity |].
      right. apply Hx. exact Hz.
    - right. apply Hcx; [left; reflexivity | apply Hky; left; reflexivity |].
      intros Hin. apply Hout. apply in_map. exact Hin. }
  assert (Eq : a = a').
  { destruct (first a a' t t' Hk Hk' Ha Hc) as [E | Haa']; [exact E |].
    destruct (first a' a t' t Hk' Hk Ha' Hc') as [E | Ha'a]; [symmetry; exact E |].
    exfalso. apply (older_irrefl queue a).
    eapply older_trans; eassumption. }
  subst a'. f_equal.
  apply (IH t' (fun r => kind r /\ older queue a r)).
  - intros x y [Hx _] [Hy _]. apply Hid; assumption.
  - cbn [List.length] in Hlen. lia.
  - exact Hs.
  - exact Hs'.
  - intros r Hr. split; [apply Hk; right; exact Hr | apply Ha; exact Hr].
  - intros r Hr. split; [apply Hk'; right; exact Hr | apply Ha'; exact Hr].
  - intros r r' Hr [Hkr' Hold] Hout. apply Hc; [right; exact Hr | exact Hkr' |].
    intros [<- | Hin]; [exact (older_irrefl queue a Hold) | exact (Hout Hin)].
  - intros r r' Hr [Hkr' Hold] Hout. apply Hc'; [right; exact Hr | exact Hkr' |].
    intros [<- | Hin]; [exact (older_irrefl queue a Hold) | exact (Hout Hin)].
Qed.

(** On a table of distinct ids the oldest rows are determined. *)
Lemma oldest_first_unique queue d s limit rows rows' :
  NoDup (map row_id queue) ->
  oldest_first queue d s limit rows ->
  oldest_first queue d s limit rows' ->
  rows' = rows.
Proof.
  intros Hnd (Hk & Hlen & Hs & Hc) (Hk' & Hlen' & Hs' & Hc').
  apply (oldest_rows_unique queue rows' rows
           (fun r => In r queue /\ selects d s r = true)).
  - intros a b [Ha _] [Hb _]. apply (rows_by_id queue); assumption.
  - congruence.
  - exact Hs'.
  - exact Hs.
  - exact Hk'.
  - exact Hk.
  - intros r r' Hr [Hq Hm]. apply Hc'; assumption.
  - intros r r' Hr [Hq Hm]. apply Hc; assumption.
Qed.

(** [dequeue_batch] reads the selected rows, and reads them without an
    exception. *)
Lemma dequeue_batch_rows queue d s limit :
  exists items,
    dequeue_batch queue d s limit = Ok items
    /\ Forall2 (fun r item => item_of_row r = Ok item)
               (selected_rows queue d s limit) items.
Proof.
  change (dequeue_batch queue d s limit)
    with (items_of_rows (selected_rows queue d s limit)).
  destruct (items_of_rows_total (selected_rows queue d s limit) d s)
    as (items & Hrun).
  { apply Forall_forall. intros r Hr.
    apply selected_rows_match in Hr. tauto. }
  exists items. split; [exact Hrun | apply items_of_rows_each; exact Hrun].
Qed.

(** X11.  [dequeue_batch] does not raise.  Its items are read, one by one
    and in order, from rows of the table; each has the direction and the
    status asked for, and for a limit that is not negative there are at
    most [limit] of them.  On a table of distinct ids (the primary key)
    these rows are the [limit] oldest rows of that direction and status,
    oldest first, a row being older than another when its [created_at]
    text is the smaller one or, for equal texts, when it stands earlier in
    the table; no other list of rows is that. *)
Theorem dequeue_batch_selects_oldest_first
        (queue : sync_queue) (d : SyncDirection) (s : SyncStatus) (limit : Z) :
  exists rows items,
    dequeue_batch queue d s limit = Ok items
    /\ Forall2 (fun r item => item_of_row r = Ok item) rows items
    /\ Forall (fun item => direction item = d /\ status item = s) items
    /\ ((0 <= limit)%Z -> (Z.of_nat (List.length items) <= limit)%Z)
    /\ (NoDup (map row_id queue) ->
        oldest_first queue d s limit rows
        /\ forall rows', oldest_first queue d s limit rows' -> rows' = rows).
Proof.
  pose proof (selected_rows_match queue d s limit) as Hsel.
  destruct (dequeue_batch_rows queue d s limit) as (items & Hrun & Heach).
  exists (selected_rows queue d s limit), items.
  split; [exact Hrun | split; [exact Heach | split; [| split]]].
  - clear Hrun. induction Heach as [| r item rows items Hitem _ IH];
      [constructor |].
    constructor.
    + destruct (Hsel r (or_introl eq_refl)) as (_ & Hd & Hs).
      apply item_of_row_fields in Hitem as (_ & _ & Hd' & Hs' & _).
      split; [apply direction_value_injective | apply status_value_injective];
        congruence.
    + apply IH. intros r' Hr'. apply Hsel. right. exact Hr'.
  - intros Hl. rewrite <- (Forall2_length Heach).
    unfold selected_rows. apply sql_limit_length. exact Hl.
  - intros Hnd.
    pose proof (selected_rows_oldest_first queue d s limit Hnd) as Hold.
    split; [exact Hold |].
    intros rows' Hrows'. exact (oldest_first_unique _ _ _ _ _ _ Hnd Hold Hrows').
Qed.

(** X12.  An item whose status [update_item_status] has set is not handed
    out by [dequeue_batch] under any other status: what was marked uploaded
    or failed is not dequeued as pending again. *)
Theorem updated_item_leaves_the_batch
        (queue : sync_queue) (item_id : string) (st : SyncStatus)
        (err : option string) (time : datetime)
        (d : SyncDirection) (s : SyncStatus) (limit : Z)
        (items : list SyncItem) :
  st <> s ->
  dequeue_batch (update_item_status queue item_id st err time) d s limit
  = Ok items ->
  Forall (fun item => id item <> item_id) items.
Proof.
  intros Hne Hrun. apply Forall_forall. intros item0 Hitem0 Hid0.
  assert (Hin : In item_id (map id items))
    by (rewrite <- Hid0; apply in_map; exact Hitem0).
  clear item0 Hitem0 Hid0.
  change (dequeue_batch (update_item_status queue item_id st err time) d s limit)
    with (items_of_rows
            (selected_rows (update_item_status queue item_id st err time)
                           d s limit)) in Hrun.
  pose proof (items_of_rows_each _ _ Hrun) as Heach.
  pose proof (selected_rows_match
                (update_item_status queue item_id st err time) d s limit)
    as Hsel.
  clear Hrun.
  induction Heach as [| r item rows items Hitem _ IH]; [contradiction |].
  cbn [map In] in Hin. destruct Hin as [Hid | Hin].
  - destruct (Hsel r (or_introl eq_refl)) as (Hr & _ & Hs).
    apply item_of_row_fields in Hitem as (Hid' & _).
    unfold update_item_status in Hr. apply in_map_iff in Hr as (r0 & Er & _).
    destruct (String.eqb_spec (row_id r0) item_id) as [E | E].
    + subst r. cbn [set_status row_status] in Hs.
      apply Hne. apply status_value_injective. exact Hs.
    + subst r. congruence.
  - apply IH; [exact Hin |]. intros r' Hr'. apply Hsel. right. exact Hr'.
Qed.

(** ** Batches *)

Lemma has_type_sym t (item : SyncItem) :
  String.eqb t (item_type item) = has_type t item.
Proof. unfold has_type. apply String.eqb_sym. Qed.

Lemma filter_snoc {A} (p : A -> bool) (l : list A) (x : A) :
  filter p (l ++ [x]) = filter p l ++ (if p x then [x] else []).
Proof. rewrite filter_app. reflexivity. Qed.

(** One step of the grouping: [done] lists the items grouped so far. *)
Lemma add_to_group_partitions (item : SyncItem) (done : list SyncItem) :
  forall groups,
    Forall (fun g => snd g = filter (has_type (fst g)) done /\ snd g <> [])
           groups ->
    NoDup (map fst groups) ->
    (~ In (item_type item) (map fst groups) ->
     filter (has_type (item_type item)) done = []) ->
    Forall (fun g => snd g = filter (has_type (fst g)) (done ++ [item])
                     /\ snd g <> [])
           (add_to_group groups item)
    /\ NoDup (map fst (add_to_group groups item))
    /\ (forall t, In t (map fst (add_to_group groups item))
                  <-> In t (map fst groups) \/ t = item_type item).
Proof.
  induction groups as [| [t its] rest IH]; intros Hall Hnd Hnew.
  - cbn [add_to_group map]. split; [| split].
    + constructor; [| constructor]. cbn [fst snd].
      rewrite filter_snoc, (Hnew (fun H => H)).
      unfold has_type. rewrite String.eqb_refl.
      split; [reflexivity | discriminate].
    + repeat constructor. intros [].
    + intros t. cbn [fst In]. split; [intros [H | []]; right; symmetry; exact H
                                      | intros [[] | H]; left; symmetry; exact H].
  - apply Forall_cons_iff in Hall as [[Hits Hne] Hall]. cbn [fst snd] in *.
    cbn [map] in Hnd. apply NoDup_cons_iff in Hnd as [Ht Hnd].
    cbn [fst] in Ht.
    cbn [add_to_group]. rewrite has_type_sym.
    destruct (has_type t item) eqn:E.
    + assert (Et : item_type item = t) by (apply String.eqb_eq; exact E).
      split; [| split].
      * constructor.
        -- cbn [fst snd]. rewrite filter_snoc, E, <- Hits.
           split; [reflexivity |]. destruct its; discriminate.
        -- apply Forall_forall. intros g Hg.
           rewrite Forall_forall in Hall. destruct (Hall g Hg) as [Hg1 Hg2].
           split; [| exact Hg2]. rewrite filter_snoc.
           assert (Eg : has_type (fst g) item = false).
           { unfold has_type. apply String.eqb_neq. rewrite Et. intros Heq.
             apply Ht. cbn [fst]. rewrite Heq. apply (in_map fst). exact Hg. }
           rewrite Eg, app_nil_r. exact Hg1.
      * cbn [map fst]. constructor; assumption.
      * intros t'. cbn [map fst In]. intuition congruence.
    + assert (Et : item_type item <> t)
        by (apply String.eqb_neq; exact E).
      destruct (IH Hall Hnd) as (H1 & H2 & H3).
      { intros Hn. apply Hnew. cbn [map fst In]. intros [H | H];
          [apply Et; symmetry; exact H | exact (Hn H)]. }
      split; [| split].
      * constructor; [| exact H1]. cbn [fst snd].
        rewrite filter_snoc, E, app_nil_r. split; assumption.
      * cbn [map fst]. constructor; [| exact H2].
        intros Hin. apply H3 in Hin as [Hin | Hin];
          [exact (Ht Hin) | apply Et; symmetry; exact Hin].
      * intros t'. cbn [map fst In]. rewrite H3. tauto.
Qed.

Lemma fold_add_to_group_partitions (items : list SyncItem) :
  forall done groups,
    Forall (fun g => snd g = filter (has_type (fst g)) done /\ snd g <> [])
           groups ->
    NoDup (map fst groups) ->
    (forall item, In item done -> In (item_type item) (map fst groups)) ->
    let final := fold_left add_to_group items groups in
    Forall (fun g => snd g = filter (has_type (fst g)) (done ++ items)
                     /\ snd g <> [])
           final
    /\ NoDup (map fst final)
    /\ (forall item, In item (done ++ items) ->
                     In (item_type item) (map fst final)).
Proof.
  induction items as [| item items IH]; intros done groups Hall Hnd Hcov.
  - cbn [fold_left]. rewrite app_nil_r. repeat split; assumption.
  - cbn [fold_left].
    destruct (add_to_group_partitions item done groups Hall Hnd)
      as (H1 & H2 & H3).
    { intros Hn.
      apply filter_none. intros x Hx. unfold has_type.
      apply String.eqb_neq. intros Ex. apply Hn. rewrite <- Ex.
      apply Hcov. exact Hx. }
    specialize (IH (done ++ [item]) (add_to_group groups item) H1 H2).
    rewrite <- app_assoc in IH. cbn [app] in IH. apply IH.
    intros x Hx. apply H3. apply in_app_or in Hx as [Hx | [<- | []]];
      [left; apply Hcov; exact Hx | right; reflexivity].
Qed.

Lemma grouping_is_partition (items : list SyncItem) :
  NoDup (map fst (group_by_type items))
  /\ Forall (fun g => snd g = filter (has_type (fst g)) items /\ snd g <> [])
            (group_by_type items)
  /\ (forall item, In item items ->
                   In (item_type item) (map fst (group_by_type items)))
  /\ Permutation (List.concat (map snd (group_by_type items))) items.
Proof.
  destruct (fold_add_to_group_partitions items [] [])
    as (H1 & H2 & H3); [constructor | constructor | intros ? [] |].
  cbn [app] in *. unfold group_by_type.
  repeat split; [exact H2 | exact H1 | exact H3 | apply group_by_type_perm].
Qed.

(** X13.  The grouping of [_process_upload_batch] is a partition by type:
    there is one group for each item type that occurs, and it holds the
    items of that type, all of them, in the order of the batch; so every
    item is sent in exactly one request. *)
Theorem group_by_type_partitions (items : list SyncItem) :
  NoDup (map fst (group_by_type items))
  /\ Forall (fun g => snd g = filter (has_type (fst g)) items /\ snd g <> [])
            (group_by_type items)
  /\ (forall item, In item items ->
                   In (item_type item) (map fst (group_by_type items)))
  /\ Permutation (List.concat (map snd (group_by_type items))) items.
Proof. apply grouping_is_partition. Qed.

Lemma apply_result_columns b p r :
  map fixed_columns (queue (apply_result b p r)) = map fixed_columns (queue p).
Proof.
  unfold apply_result. destruct (success r); cbn [queue];
    apply update_item_status_columns.
Qed.

Lemma fail_item_columns b message p item :
  map fixed_columns (queue (fail_item b message p item))
  = map fixed_columns (queue p).
Proof. unfold fail_item. cbn [queue]. apply update_item_status_columns. Qed.

Lemma fold_columns {A} (step : progress -> A -> progress) (l : list A) :
  (forall p a, map fixed_columns (queue (step p a))
               = map fixed_columns (queue p)) ->
  forall p, map fixed_columns (queue (fold_left step l p))
            = map fixed_columns (queue p).
Proof.
  intros Hstep. induction l as [| a l IH]; intros p; [reflexivity |].
  cbn [fold_left]. rewrite IH. apply Hstep.
Qed.

Lemma process_groups_columns b groups :
  forall p, map fixed_columns (queue (fst (process_groups b groups p)))
            = map fixed_columns (queue p).
Proof.
  induction groups as [| [t type_items] rest IH]; intros p; [reflexivity |].
  cbn [process_groups].
  destruct (respond b t type_items) as [results | e].
  - rewrite IH. apply fold_columns. apply apply_result_columns.
  - destruct (is_sync_error e); [| reflexivity].
    rewrite IH. apply fold_columns. apply fail_item_columns.
Qed.

(** X14.  Whatever the server answers, [_process_upload_batch] neither adds
    nor deletes rows and leaves the id, type, direction, payload, checksum
    and creation time of every row as they were: it writes statuses,
    errors, attempt counts and update times only. *)
Theorem upload_batch_keeps_rows
        (b : backend) (store : sync_queue) (items : list SyncItem) :
  map fixed_columns (fst (_process_upload_batch b store items))
  = map fixed_columns store.
Proof.
  unfold _process_upload_batch. destruct items as [| item rest]; [reflexivity |].
  pose proof (process_groups_columns b (group_by_type (item :: rest))
                {| queue := store; readings := 0; processed := 0;
                   failed := 0; error_log := [] |}) as H.
  destruct (process_groups b (group_by_type (item :: rest)) _) as [p [e |]];
    exact H.
Qed.

Lemma group_by_type_nonempty (item : SyncItem) rest :
  group_by_type (item :: rest) <> [].
Proof.
  destruct (grouping_is_partition (item :: rest)) as (_ & _ & H & _).
  specialize (H item (or_introl eq_refl)).
  destruct (group_by_type (item :: rest)); [contradiction | discriminate].
Qed.

(** The loop over the groups when every request raises the same
    [SyncError]. *)
Lemma process_groups_failures b e groups :
  (forall t type_items, respond b t type_items = Failure e) ->
  is_sync_error e = true ->
  forall p,
    process_groups b groups p
    = (fold_left (fail_item b (str_of_exn e)) (List.concat (map snd groups)) p,
       None).
Proof.
  intros Hb He. induction groups as [| [t type_items] rest IH]; intros p;
    [reflexivity |].
  cbn [process_groups map snd List.concat]. rewrite Hb, He, IH, fold_left_app.
  reflexivity.
Qed.

Lemma fold_fail_item b message (l : list SyncItem) :
  forall p,
    let p' := fold_left (fail_item b message) l p in
    processed p' = processed p
    /\ failed p' = (failed p + Z.of_nat (List.length l))%Z
    /\ error_log p'
       = error_log p ++ map (fun item => (id item ++ ": " ++ message)%string) l
    /\ (forall j,
           stored_status (queue p') j
           = match stored_status (queue p) j with
             | Some old =>
                 Some (if existsb (fun item => String.eqb j (id item)) l
                       then status_value FAILED else old)
             | None => None
             end).
Proof.
  induction l as [| item l IH]; intros p.
  - cbn. rewrite app_nil_r. repeat split; try lia.
    intros j. destruct (stored_status (queue p) j); reflexivity.
  - cbn [fold_left]. destruct (IH (fail_item b message p item))
      as (H1 & H2 & H3 & H4).
    cbv zeta. rewrite H1, H2, H3. cbn [fail_item processed failed error_log queue].
    repeat split.
    + cbn [List.length]. lia.
    + rewrite <- app_assoc. reflexivity.
    + intros j. rewrite H4. cbn [fail_item queue]. rewrite stored_status_update.
      destruct (stored_status (queue p) j) as [old |]; [| reflexivity].
      cbn [existsb].
      destruct (String.eqb j (id item)); cbn [orb];
        destruct (existsb (fun item0 => String.eqb j (id item0)) l); reflexivity.
Qed.

Lemma existsb_perm {A} (p : A -> bool) (l l' : list A) :
  Permutation l l' -> existsb p l = existsb p l'.
Proof.
  induction 1 as [| x l l' _ IH | x y l | l l' l'' _ IH1 _ IH2]; cbn [existsb].
  - reflexivity.
  - rewrite IH. reflexivity.
  - destruct (p x), (p y); reflexivity.
  - congruence.
Qed.

(** X15.  When every request of a batch raises a [SyncError] (as
    [_request] does for a network error, a rate limit or a client error),
    [_process_upload_batch] marks every item of the batch that the store
    has as failed, and returns a [SyncResult] without success that counts
    every item as failed, with one error message each. *)
Theorem upload_batch_sync_error_fails_every_item
        (b : backend) (store : sync_queue) (items : list SyncItem)
        (e : sync_exn) :
  (forall t type_items, respond b t type_items = Failure e) ->
  is_sync_error e = true ->
  items <> [] ->
  (forall item, In item items ->
                stored_status store (id item) <> None ->
                stored_status (fst (_process_upload_batch b store items)) (id item)
                = Some "failed"%string)
  /\ (forall j, ~ In j (map id items) ->
                stored_status (fst (_process_upload_batch b store items)) j
                = stored_status store j)
  /\ exists result,
      snd (_process_upload_batch b store items) = inl result
      /\ result_success result = false
      /\ items_processed result = 0%Z
      /\ items_failed result = Z.of_nat (List.length items)
      /\ List.length (errors result) = List.length items.
Proof.
  intros Hb He Hne.
  unfold _process_upload_batch.
  destruct items as [| it0 rest]; [contradiction |].
  remember (it0 :: rest) as items eqn:Eitems.
  rewrite (process_groups_failures b e _ Hb He).
  pose proof (group_by_type_perm items) as Hperm.
  destruct (fold_fail_item b (str_of_exn e)
              (List.concat (map snd (group_by_type items)))
              {| queue := store; readings := 0; processed := 0; failed := 0;
                 error_log := [] |}) as (H1 & H2 & H3 & H4).
  cbv zeta in *. cbn [fst snd processed failed error_log queue] in *.
  assert (Hlen : List.length (List.concat (map snd (group_by_type items)))
                 = List.length items)
    by (apply Permutation_length; exact Hperm).
  split; [| split].
  - intros item Hitem Hstored. rewrite H4.
    destruct (stored_status store (id item)) as [old |]; [| contradiction].
    rewrite (existsb_perm _ _ _ Hperm).
    assert (Hex : existsb (fun item0 => String.eqb (id item) (id item0)) items
                  = true).
    { apply existsb_exists. exists item. split; [exact Hitem |].
      apply String.eqb_refl. }
    rewrite Hex. reflexivity.
  - intros j Hj. rewrite H4.
    destruct (stored_status store j) as [old |]; [| reflexivity].
    rewrite (existsb_perm _ _ _ Hperm).
    assert (Hex : existsb (fun item0 => String.eqb j (id item0)) items = false).
    { apply not_true_iff_false. intros Hex. apply existsb_exists in Hex
        as (x & Hx & Ex). apply String.eqb_eq in Ex. apply Hj. subst j.
      apply in_map. exact Hx. }
    rewrite Hex. reflexivity.
  - eexists. split; [reflexivity |].
    cbn [result_success items_processed items_failed errors].
    rewrite H1, H2, H3, Hlen. cbn [app]. rewrite length_map, Hlen.
    split; [| repeat split; lia].
    apply Z.eqb_neq. subst items. cbn [List.length]. lia.
Qed.

(** X16.  An exception of a batch request that is not a [SyncError] (the
    [httpx.HTTPStatusError] that [_request] raises when the retries end on
    a 5xx) is not caught: it leaves [_process_upload_batch], and when it
    comes from the first request the store is as it was, with the items
    still pending. *)
Theorem upload_batch_lets_other_errors_escape
        (b : backend) (store : sync_queue) (items : list SyncItem)
        (e : sync_exn) :
  (forall t type_items, respond b t type_items = Failure e) ->
  is_sync_error e = false ->
  items <> [] ->
  _process_upload_batch b store items = (store, inr e).
Proof.
  intros Hb He Hne. unfold _process_upload_batch.
  destruct items as [| it0 rest]; [contradiction |].
  pose proof (group_by_type_nonempty it0 rest) as Hg.
  destruct (group_by_type (it0 :: rest)) as [| [t type_items] groups];
    [contradiction |].
  cbn [process_groups]. rewrite Hb, He. reflexivity.
Qed.

Section Counts.

Variable ok : SyncItem -> bool.
Variable why : SyncItem -> option string.

Lemma fold_apply_verdicts b (l : list SyncItem) :
  forall p,
    let p' := fold_left (apply_result b) (map (verdict ok why) l) p in
    processed p' = (processed p + Z.of_nat (List.length (filter ok l)))%Z
    /\ failed p'
       = (failed p
          + Z.of_nat (List.length (filter (fun item => negb (ok item)) l)))%Z
    /\ List.length (error_log p')
       = List.length (error_log p)
         + List.length (filter (fun item => negb (ok item)) l).
Proof.
  induction l as [| item l IH]; intros p.
  - cbn. repeat split; lia.
  - cbn [map fold_left]. destruct (IH (apply_result b p (verdict ok why item)))
      as (H1 & H2 & H3).
    cbv zeta. rewrite H1, H2, H3. unfold apply_result, verdict.
    cbn [success filter]. destruct (ok item);
      cbn [negb processed failed error_log List.length];
      rewrite ?length_app; cbn [List.length]; repeat split; lia.
Qed.

Lemma filter_length_perm {A} (p : A -> bool) (l l' : list A) :
  Permutation l l' -> List.length (filter p l) = List.length (filter p l').
Proof.
  induction 1 as [| x l l' _ IH | x y l | l l' l'' _ IH1 _ IH2]; cbn [filter].
  - reflexivity.
  - destruct (p x); cbn [List.length]; rewrite IH; reflexivity.
  - destruct (p x), (p y); reflexivity.
  - congruence.
Qed.

Lemma no_failure_forallb (l : list SyncItem) :
  (Z.of_nat (List.length (filter (fun item => negb (ok item)) l)) =? 0)%Z
  = forallb ok l.
Proof.
  induction l as [| item l IH]; [reflexivity |].
  cbn [filter forallb]. destruct (ok item); cbn [negb andb]; [exact IH |].
  cbn [List.length]. apply Z.eqb_neq. lia.
Qed.

(** X17.  When the server answers every batch request with one result per
    item, the [SyncResult] of [_process_upload_batch] counts the items
    reported as successes in [items_processed] and the others in
    [items_failed], so that the two add up to the size of the batch; it has
    one error message for each failed item, and it is a success exactly
    when no item failed. *)
Theorem upload_batch_counts
        (b : backend) (store : sync_queue) (items : list SyncItem) :
  (forall t type_items,
      respond b t type_items = Results (map (verdict ok why) type_items)) ->
  exists result,
    snd (_process_upload_batch b store items) = inl result
    /\ items_processed result = Z.of_nat (List.length (filter ok items))
    /\ items_failed result
       = Z.of_nat (List.length (filter (fun item => negb (ok item)) items))
    /\ (items_processed result + items_failed result
        = Z.of_nat (List.length items))%Z
    /\ List.length (errors result)
       = List.length (filter (fun item => negb (ok item)) items)
    /\ result_success result = forallb ok items.
Proof.
  intros Hb.
  assert (Hsplit : forall l : list SyncItem,
             List.length (filter ok l)
             + List.length (filter (fun item => negb (ok item)) l)
             = List.length l).
  { induction l as [| x l IH]; [reflexivity |].
    cbn [filter]. destruct (ok x); cbn [negb List.length]; lia. }
  unfold _process_upload_batch.
  destruct items as [| it0 rest].
  - eexists. split; [reflexivity |]. repeat split.
  - remember (it0 :: rest) as items eqn:Eitems.
    rewrite (process_groups_results ok why b _ _ Hb).
    pose proof (group_by_type_perm items) as Hperm.
    destruct (fold_apply_verdicts b
                (List.concat (map snd (group_by_type items)))
                {| queue := store; readings := 0; processed := 0; failed := 0;
                   error_log := [] |}) as (H1 & H2 & H3).
    cbv zeta in *. cbn [processed failed error_log List.length] in *.
    rewrite (filter_length_perm ok _ _ Hperm) in H1.
    rewrite (filter_length_perm (fun item => negb (ok item)) _ _ Hperm)
      in H2, H3.
    eexists. split; [reflexivity |].
    cbn [items_processed items_failed errors result_success].
    rewrite H1, H2, H3, !Z.add_0_l, no_failure_forallb.
    specialize (Hsplit items).
    repeat split; lia.
Qed.

End Counts.

(** ** Statistics *)

Lemma count_row_get stats status s :
  assoc_get String.eqb (count_row stats status) s
  = if String.eqb status s
    then Some (match assoc_get String.eqb stats s with
               | Some n => n + 1
               | None => 1
               end)%Z
    else assoc_get String.eqb stats s.
Proof.
  induction stats as [| [s' n] rest IH].
  - cbn [count_row assoc_get]. reflexivity.
  - cbn [count_row assoc_get].
    destruct (String.eqb_spec s' status) as [E | E]; cbn [assoc_get].
    + subst s'. destruct (String.eqb status s); reflexivity.
    + destruct (String.eqb_spec s' s) as [E' | E'].
      * subst s'. destruct (String.eqb_spec status s); [congruence | reflexivity].
      * exact IH.
Qed.

Lemma fold_count_row_get (queue : sync_queue) s :
  forall stats,
    assoc_get String.eqb
      (fold_left (fun stats r => count_row stats (row_status r)) queue stats) s
    = let n := Z.of_nat (List.length (filter (has_status s) queue)) in
      match assoc_get String.eqb stats s with
      | Some m => Some (m + n)%Z
      | None => if (n =? 0)%Z then None else Some n
      end.
Proof.
  induction queue as [| r queue IH]; intros stats.
  - cbn. destruct (assoc_get String.eqb stats s); [f_equal; lia | reflexivity].
  - cbn [fold_left]. rewrite IH, count_row_get. cbv zeta.
    cbn [filter]. change (has_status s r) with (String.eqb (row_status r) s).
    destruct (String.eqb (row_status r) s); cbn [List.length].
    + destruct (assoc_get String.eqb stats s); [f_equal; lia |].
      destruct (Z.eqb_spec
                  (Z.of_nat (S (List.length (filter (has_status s) queue)))) 0);
        [lia | f_equal; lia].
    + reflexivity.
Qed.

(** X18.  [get_queue_stats] has, for each status, the number of rows with
    that status when there is such a row, and no entry otherwise: a status
    without rows is absent from the dictionary, not counted as zero. *)
Theorem queue_stats_count_rows (queue : sync_queue) (s : string) :
  assoc_get String.eqb (get_queue_stats queue) s
  = if existsb (has_status s) queue
    then Some (Z.of_nat (List.length (filter (has_status s) queue)))
    else None.
Proof.
  unfold get_queue_stats. rewrite fold_count_row_get. cbn [assoc_get]. cbv zeta.
  induction queue as [| r queue IH]; [reflexivity |].
  cbn [existsb filter]. destruct (has_status s r); cbn [orb List.length].
  - destruct (Z.eqb_spec
                (Z.of_nat (S (List.length (filter (has_status s) queue)))) 0);
      [lia | reflexivity].
  - exact IH.
Qed.

(** ** Flushing *)

(** A selection of rows with distinct ids has distinct ids. *)
Lemma filter_rows_distinct (keep : row -> bool) (rows : sync_queue) :
  NoDup (map row_id rows) -> NoDup (map row_id (filter keep rows)).
Proof.
  intros Hrows. induction rows as [| r rows IH]; [constructor |].
  cbn [map] in Hrows. apply NoDup_cons_iff in Hrows as [Hr Hrows].
  specialize (IH Hrows). cbn [filter].
  destruct (keep r); [| exact IH].
  cbn [map]. constructor; [| exact IH].
  intros Hin. apply Hr. apply in_map_iff in Hin as (r' & Er & Hr').
  apply filter_In in Hr' as [Hr' _]. rewrite <- Er. apply in_map. exact Hr'.
Qed.

Lemma NoDup_firstn {A} n (l : list A) : NoDup l -> NoDup (firstn n l).
Proof.
  intros H. rewrite <- (firstn_skipn n l) in H.
  apply NoDup_app_remove_r in H. exact H.
Qed.

Lemma selected_rows_distinct queue d s limit :
  NoDup (map row_id queue) ->
  NoDup (map row_id (selected_rows queue d s limit)).
Proof.
  intros H. unfold selected_rows, sql_limit.
  assert (Hsorted : NoDup (map row_id
                             (order_by_created_at
                                (filter (fun r =>
                                           String.eqb (row_direction r)
                                                      (direction_value d)
                                           && String.eqb (row_status r)
                                                         (status_value s))
                                        queue)))).
  { eapply Permutation_NoDup;
      [apply Permutation_map; symmetry; apply order_by_created_at_perm |].
    apply filter_rows_distinct. exact H. }
  destruct (limit <? 0)%Z; [exact Hsorted |].
  rewrite <- firstn_map. apply NoDup_firstn. exact Hsorted.
Qed.

Lemma items_ids rows items :
  Forall2 (fun r item => item_of_row r = Ok item) rows items ->
  map id items = map row_id rows.
Proof.
  induction 1 as [| r item rows items H _ IH]; [reflexivity |].
  cbn [map]. apply item_of_row_fields in H as (H & _). rewrite H, IH.
  reflexivity.
Qed.

(** X19.  [flush_upload_queue] handles one batch: the [max_batch_size]
    oldest pending uploads of the store, a row being older than another
    when its [created_at] text is the smaller one or, for equal texts, when
    it stands earlier in the table.  On a store of distinct ids, with a
    server that answers every batch request with one result per item, the
    item of each of these rows ends with the status of its result,
    [uploaded] or [failed], and every other row of the store, pending
    uploads beyond the limit included, keeps the status it had. *)
Theorem flush_upload_queue_one_batch
        (b : backend) (config : SyncConfig) (store : sync_queue)
        (ok : SyncItem -> bool) (why : SyncItem -> option string) :
  (forall t type_items,
      respond b t type_items = Results (map (verdict ok why) type_items)) ->
  NoDup (map row_id store) ->
  exists rows pending store' result,
    oldest_first store UPLOAD PENDING (max_batch_size config) rows
    /\ Forall2 (fun r item => item_of_row r = Ok item) rows pending
    /\ flush_upload_queue b config store = Ok (store', inl result)
    /\ (forall item, In item pending ->
                     stored_status store' (id item)
                     = Some (verdict_status (ok item)))
    /\ (forall j, ~ In j (map row_id rows) ->
                  stored_status store' j = stored_status store j).
Proof.
  intros Hb Hnd.
  destruct (dequeue_batch_rows store UPLOAD PENDING (max_batch_size config))
    as (pending & Hrun & Heach).
  pose proof (items_ids _ _ Heach) as Hids.
  pose proof (selected_rows_distinct store UPLOAD PENDING
                (max_batch_size config) Hnd) as Hdistinct.
  rewrite <- Hids in Hdistinct.
  assert (Hstored : forall item, In item pending ->
                                 stored_status store (id item) <> None).
  { intros item Hitem Hnone. apply stored_status_none in Hnone. apply Hnone.
    assert (Hin : In (id item) (map id pending)) by (apply in_map; exact Hitem).
    rewrite Hids in Hin. apply in_map_iff in Hin as (r & Er & Hr).
    apply selected_rows_match in Hr as (Hr & _).
    rewrite <- Er. apply in_map. exact Hr. }
  pose proof (selected_rows_oldest_first store UPLOAD PENDING
                (max_batch_size config) Hnd) as Hold.
  exists (selected_rows store UPLOAD PENDING (max_batch_size config)), pending.
  rewrite <- Hids.
  cut (exists store' result,
          flush_upload_queue b config store = Ok (store', inl result)
          /\ (forall item, In item pending ->
                           stored_status store' (id item)
                           = Some (verdict_status (ok item)))
          /\ (forall j, ~ In j (map id pending) ->
                        stored_status store' j = stored_status store j)).
  { intros (store' & result & H). exists store', result. tauto. }
  clear Hold Heach.
  unfold flush_upload_queue. rewrite Hrun. cbn [bind].
  destruct pending as [| it0 rest] eqn:Ep.
  - eexists store, _.
    split; [reflexivity | split];
      [intros item [] | reflexivity].
  - rewrite <- Ep in *.
    assert (Hbatch : _process_upload_batch b store pending
                     = (queue (fold_left (apply_result b)
                                 (map (verdict ok why)
                                      (List.concat (map snd (group_by_type pending))))
                                 {| queue := store; readings := 0;
                                    processed := 0; failed := 0;
                                    error_log := [] |}),
                        snd (_process_upload_batch b store pending))).
    { rewrite Ep. unfold _process_upload_batch. rewrite <- Ep.
      rewrite (process_groups_results ok why b _ _ Hb). reflexivity. }
    assert (Hresult : exists result,
               snd (_process_upload_batch b store pending) = inl result).
    { rewrite Ep. unfold _process_upload_batch. rewrite <- Ep.
      rewrite (process_groups_results ok why b _ _ Hb). eexists. reflexivity. }
    destruct Hresult as (result & Hresult).
    rewrite Hresult in Hbatch. rewrite Hbatch.
    pose proof (group_by_type_perm pending) as Hperm.
    eexists _, result. split; [reflexivity |].
    split.
    + intros item Hitem. rewrite stored_status_apply_results. cbn [queue].
      destruct (stored_status store (id item)) as [old |] eqn:E;
        [| exfalso; exact (Hstored item Hitem E)].
      cbn [option_map]. f_equal. apply status_after_verdicts.
      * apply (Permutation_NoDup (l := map id pending)); [| exact Hdistinct].
        apply Permutation_map. symmetry. exact Hperm.
      * apply (Permutation_in (l := pending)); [symmetry; exact Hperm | exact Hitem].
    + intros j Hj. rewrite stored_status_apply_results. cbn [queue].
      destruct (stored_status store j) as [old |]; [| reflexivity].
      cbn [option_map]. f_equal. apply status_after_not_mentioned.
      intros Hin. apply Hj.
      apply (Permutation_in (l := map id (List.concat (map snd (group_by_type pending)))));
        [apply Permutation_map; exact Hperm | exact Hin].
Qed.

End QueueFacts.

Section QueueExamples.
Import Py Sync Examples.

Lemma batch_store_ids :
  NoDup (map row_id batch_store).
Proof.
  repeat (constructor; [cbn; intuition discriminate |]). constructor.
Qed.

Lemma enqueue_replaces_by_id_witness :
  NoDup (map row_id requeued_store)
  /\ List.length requeued_store
     = (if existsb (has_id (id (upload "3"))) batch_store
        then List.length batch_store else S (List.length batch_store))
  /\ stored_status requeued_store (id (upload "3"))
     = Some (status_value (status (upload "3")))
  /\ (forall j, j <> id (upload "3") ->
                stored_status requeued_store j = stored_status batch_store j).
Proof.
  apply (enqueue_replaces_by_id batch_store requeued_store (upload "3")).
  - exact batch_store_ids.
  - vm_compute. reflexivity.
Defined.

Lemma remove_item_removes_only_that_id_witness :
  remove_item batch_store "9" = batch_store.
Proof.
  apply (proj2 (proj2 (remove_item_removes_only_that_id batch_store "9"))).
  cbn. intuition discriminate.
Defined.

Lemma update_item_status_in_place_witness :
  update_item_status (runtime := text_runtime) batch_store "9" UPLOADED None
                     "2024-01-02T00:00:00+00:00"%string
  = batch_store.
Proof.
  apply (proj2 (update_item_status_in_place
                  (runtime := text_runtime) batch_store "9" UPLOADED None
                  "2024-01-02T00:00:00+00:00"%string)).
  cbn. intuition discriminate.
Defined.

Lemma updated_item_leaves_the_batch_witness :
  Forall (fun item : SyncItem (runtime := text_runtime) => id item <> "1"%string)
         [upload "2"; upload "3"].
Proof.
  apply (updated_item_leaves_the_batch
           (runtime := text_runtime) batch_store "1" UPLOADED None
           "2024-01-02T00:00:00+00:00"%string UPLOAD PENDING 2).
  - discriminate.
  - vm_compute. reflexivity.
Defined.

Lemma upload_batch_sync_error_fails_every_item_witness :
  (forall item, In item batch ->
                stored_status batch_store (id item) <> None ->
                stored_status (fst (_process_upload_batch outage batch_store batch))
                              (id item)
                = Some "failed"%string)
  /\ (forall j, ~ In j (map id batch) ->
                stored_status (fst (_process_upload_batch outage batch_store batch)) j
                = stored_status batch_store j)
  /\ exists result,
      snd (_process_upload_batch outage batch_store batch) = inl result
      /\ result_success result = false
      /\ items_processed result = 0%Z
      /\ items_failed result = Z.of_nat (List.length batch)
      /\ List.length (errors result) = List.length batch.
Proof.
  apply (upload_batch_sync_error_fails_every_item
           (runtime := text_runtime) outage batch_store batch NetworkError).
  - reflexivity.
  - reflexivity.
  - discriminate.
Defined.

Lemma upload_batch_lets_other_errors_escape_witness :
  _process_upload_batch broken_server batch_store batch
  = (batch_store, inr (HTTPStatusError 503)).
Proof.
  apply (upload_batch_lets_other_errors_escape
           (runtime := text_runtime) broken_server batch_store batch
           (HTTPStatusError 503)).
  - reflexivity.
  - reflexivity.
  - discriminate.
Defined.

Lemma upload_batch_counts_witness :
  exists result,
    snd (_process_upload_batch picky_server batch_store batch) = inl result
    /\ items_processed result = Z.of_nat (List.length (filter accepted batch))
    /\ items_failed result
       = Z.of_nat (List.length (filter (fun item => negb (accepted item)) batch))
    /\ (items_processed result + items_failed result
        = Z.of_nat (List.length batch))%Z
    /\ List.length (errors result)
       = List.length (filter (fun item => negb (accepted item)) batch)
    /\ result_success result = forallb accepted batch.
Proof.
  apply (upload_batch_counts (runtime := text_runtime) accepted complaint
                             picky_server batch_store batch).
  reflexivity.
Defined.

Lemma flush_upload_queue_one_batch_witness :
  exists rows pending store' result,
    oldest_first batch_store UPLOAD PENDING (max_batch_size small_batches) rows
    /\ Forall2 (fun r item => item_of_row r = Ok item) rows pending
    /\ flush_upload_queue picky_server small_batches batch_store
       = Ok (store', inl result)
    /\ (forall item, In item pending ->
                     stored_status store' (id item)
                     = Some (verdict_status (accepted item)))
    /\ (forall j, ~ In j (map row_id rows) ->
                  stored_status store' j = stored_status batch_store j).
Proof.
  apply (flush_upload_queue_one_batch
           (runtime := text_runtime) picky_server small_batches batch_store
           accepted complaint).
  - reflexivity.
  - exact batch_store_ids.
Defined.

(** Rows of one and the same [created_at] text are handed out, and
    flushed, in the order of the table. *)
Example tied_rows_in_table_order :
  dequeue_batch tied_store UPLOAD PENDING 2
  = Ok [same_time "b"; same_time "e"]
  /\ exists store' result,
       flush_upload_queue picky_server small_batches tied_store
       = Ok (store', inl result)
       /\ map (stored_status store') ["b"; "e"; "h"]%string
          = [Some "uploaded"; Some "uploaded"; Some "pending"]%string.
Proof.
  split; [vm_compute; reflexivity |].
  eexists _, _. split; vm_compute; reflexivity.
Qed.

End QueueExamples.

(* ===================================================================== *)
(** * More on the parser                                                  *)
(* ===================================================================== *)

Section LexerFacts.
Import Py Watcher.

(** Where [_skip_whitespace] stops. *)
Lemma skip_whitespace_stops (content : text) :
  forall n pos,
    len content - pos <= n ->
    let p := _skip_whitespace content pos in
    (pos <= len content -> p <= len content)
    /\ match char_at content p with
       | None => True
       | Some c =>
           isspace c = false
           /\ teqb (slice content p (p + 2)) (lit "--") = false
       end
    /\ _skip_whitespace content p = p.
Proof.
  induction n as [| n IH]; intros pos Hn; cbv zeta;
    rewrite (skip_whitespace_unfold content pos);
    destruct (char_at content pos) as [c |] eqn:Ec.
  - apply char_at_some in Ec. lia.
  - rewrite Ec. repeat split; [lia |].
    rewrite skip_whitespace_unfold, Ec. reflexivity.
  - pose proof (char_at_some _ _ _ Ec) as Hpos.
    destruct (isspace c) eqn:Es.
    { destruct (IH (pos + 1)) as (H1 & H2 & H3); [lia |].
      repeat split; [intros _; apply H1; lia | exact H2 | exact H3]. }
    destruct (teqb (slice content pos (pos + 2)) (lit "--")) eqn:Ed.
    + assert (Hend : (pos <= len content -> len content <= len content)
                     /\ match char_at content (len content) with
                        | None => True
                        | Some c0 =>
                            isspace c0 = false
                            /\ teqb (slice content (len content)
                                           (len content + 2)) (lit "--")
                               = false
                        end
                     /\ _skip_whitespace content (len content) = len content).
      { assert (E : char_at content (len content) = None)
          by (apply nth_error_None; unfold len; lia).
        rewrite E. repeat split; [lia |].
        rewrite skip_whitespace_unfold, E. reflexivity. }
      destruct (teqb (slice content pos (pos + 4)) (lit "--[[")).
      * destruct (find content (lit "]]") (pos + 4)) as [e |] eqn:Ef;
          [| exact Hend].
        apply find_bounds in Ef. cbn [len lit list_ascii_of_string List.length] in Ef.
        destruct (IH (e + 2)) as (H1 & H2 & H3); [lia |].
        repeat split; [intros _; apply H1; lia | exact H2 | exact H3].
      * destruct (find content [newline] pos) as [e |] eqn:Ef; [| exact Hend].
        apply find_bounds in Ef. cbn [len List.length] in Ef.
        destruct (IH (e + 1)) as (H1 & H2 & H3); [lia |].
        repeat split; [intros _; apply H1; lia | exact H2 | exact H3].
    + rewrite Ec. repeat split; [lia | exact Es | exact Ed |].
      rewrite skip_whitespace_unfold, Ec, Es, Ed. reflexivity.
  - rewrite Ec. repeat split; [lia |].
    rewrite skip_whitespace_unfold, Ec. reflexivity.
Qed.

Lemma skip_whitespace_le (content : text) (pos : nat) :
  pos <= len content -> _skip_whitespace content pos <= len content.
Proof. apply (skip_whitespace_stops content (len content - pos) pos). lia. Qed.

(** X20.  [_skip_whitespace] never moves backwards and, started inside the
    text, stays inside it.  Where it stops, the text has ended or goes on
    with a character that is neither white space nor the start of a
    comment; so skipping again from there changes nothing. *)
Theorem skip_whitespace_stops_at_significant (content : text) (pos : nat) :
  let p := _skip_whitespace content pos in
  pos <= p
  /\ (pos <= len content -> p <= len content)
  /\ match char_at content p with
     | None => True
     | Some c =>
         isspace c = false
         /\ teqb (slice content p (p + 2)) (lit "--") = false
     end
  /\ _skip_whitespace content p = p.
Proof.
  cbv zeta. split; [apply skip_whitespace_ge |].
  apply (skip_whitespace_stops content (len content - pos) pos). lia.
Qed.

(** ** String literals *)

Lemma string_loop_escaped (quote : ascii) (post : text) :
  quote = dquote \/ quote = squote ->
  forall body pos acc,
    string_loop (escaped quote body ++ quote :: post) pos quote acc
    = Ok (string_of_list_ascii (acc ++ body),
          pos + len (escaped quote body) + 1).
Proof.
  intros Hq. induction body as [| c body IH]; intros pos acc.
  - cbn [escaped flat_map app string_loop]. unfold ceqb.
    rewrite Ascii.eqb_refl, app_nil_r. cbn [len List.length]. f_equal. f_equal. lia.
  - cbn [escaped flat_map]. fold (escaped quote body).
    destruct (ceqb c quote || ceqb c "\") eqn:E.
    + cbn [app string_loop].
      assert (Hbq : ceqb "\" quote = false)
        by (destruct Hq; subst quote; reflexivity).
      rewrite Hbq. cbn [ceqb]. unfold ceqb at 1. rewrite Ascii.eqb_refl.
      rewrite IH.
      assert (Hu : unescape quote c = c).
      { apply orb_true_iff in E as [E | E]; apply Ascii.eqb_eq in E; subst c;
          destruct Hq; subst quote; reflexivity. }
      rewrite Hu, <- app_assoc. cbn [app len List.length]. unfold len.
      f_equal. f_equal. lia.
    + apply orb_false_iff in E as [E1 E2].
      cbn [app string_loop]. rewrite E1, E2, IH, <- app_assoc.
      cbn [app len List.length]. unfold len. f_equal. f_equal. lia.
Qed.

Lemma string_loop_unterminated (quote : ascii) :
  quote = dquote \/ quote = squote ->
  forall body pos acc,
    string_loop (escaped quote body) pos quote acc = Raise LuaParseError.
Proof.
  intros Hq. induction body as [| c body IH]; intros pos acc; [reflexivity |].
  cbn [escaped flat_map]. fold (escaped quote body).
  destruct (ceqb c quote || ceqb c "\") eqn:E.
  - cbn [app string_loop].
    assert (Hbq : ceqb "\" quote = false)
      by (destruct Hq; subst quote; reflexivity).
    rewrite Hbq. unfold ceqb at 1. rewrite Ascii.eqb_refl. apply IH.
  - apply orb_false_iff in E as [E1 E2].
    cbn [app string_loop]. rewrite E1, E2. apply IH.
Qed.

Lemma char_at_app (pre rest : text) (c : ascii) :
  char_at (pre ++ c :: rest) (len pre) = Some c.
Proof.
  unfold char_at, len. rewrite nth_error_app2 by lia.
  rewrite Nat.sub_diag. reflexivity.
Qed.

Lemma tail_from_app (pre rest : text) (c : ascii) :
  tail_from (pre ++ c :: rest) (len pre + 1) = rest.
Proof.
  unfold tail_from, len. rewrite skipn_app.
  rewrite skipn_all2 by lia.
  replace (List.length pre + 1 - List.length pre) with 1 by lia.
  reflexivity.
Qed.

(** X21.  [_parse_string] reads back every string written between quotes
    with a backslash before each quote and backslash of its own: it returns
    the string and the position after the closing quote, wherever the
    literal stands in the text.  Without the closing quote it raises
    [LuaParseError]. *)
Theorem parse_string_reads_back
        (quote : ascii) (pre body post : text) :
  quote = dquote \/ quote = squote ->
  _parse_string (pre ++ quoted_literal quote body ++ post) (len pre) quote
  = Ok (string_of_list_ascii body, len pre + len (quoted_literal quote body))
  /\ _parse_string (pre ++ quote :: escaped quote body) (len pre) quote
     = Raise LuaParseError.
Proof.
  intros Hq. unfold _parse_string, quoted_literal. split.
  - cbn [app]. rewrite char_at_app, tail_from_app. unfold ceqb at 1.
    rewrite Ascii.eqb_refl, <- app_assoc. cbn [app].
    rewrite (string_loop_escaped quote post Hq). cbn [app].
    f_equal. f_equal. unfold len. cbn [List.length]. rewrite length_app.
    cbn [List.length]. lia.
  - rewrite char_at_app, tail_from_app. unfold ceqb at 1.
    rewrite Ascii.eqb_refl. apply string_loop_unterminated. exact Hq.
Qed.

End LexerFacts.

Section ParserBounds.
Import Py Watcher.

Lemma take_while_length p (s : text) :
  List.length (take_while p s) <= List.length s.
Proof.
  induction s as [| c s IH]; [reflexivity |].
  cbn [take_while]. destruct (p c); cbn [List.length]; lia.
Qed.

Lemma optional_length p (s : text) :
  List.length (fst (optional p s)) + List.length (snd (optional p s))
  = List.length s.
Proof.
  unfold optional. destruct s as [| c r]; [reflexivity |].
  destruct (p c); reflexivity.
Qed.

Lemma match_hex_length s t : match_hex s = Some t -> List.length t <= List.length s.
Proof.
  unfold match_hex. destruct s as [| z [| x r]]; try discriminate.
  destruct (ceqb z "0" && ceqb x "x"); [| discriminate].
  pose proof (take_while_length is_hex_digit r) as H.
  destruct (take_while is_hex_digit r); [discriminate |].
  intros [= <-]. cbn [List.length] in *. lia.
Qed.

Lemma match_exponent_length s : List.length (match_exponent s) <= List.length s.
Proof.
  unfold match_exponent. destruct s as [| e r]; [reflexivity |].
  destruct (is_e e); [| cbn; lia].
  pose proof (optional_length is_sign r) as Ho.
  destruct (optional is_sign r) as [sg r1]. cbn [fst snd] in Ho.
  pose proof (take_while_length is_digit r1) as Ht.
  destruct (take_while is_digit r1) as [| d ds]; [cbn; lia |].
  cbn [List.length] in *. rewrite length_app. cbn [List.length]. lia.
Qed.

Lemma match_decimal_length s t :
  match_decimal s = Some t -> List.length t <= List.length s.
Proof.
  unfold match_decimal.
  pose proof (take_while_length is_digit s) as Hd.
  destruct (take_while is_digit s) as [| d ds] eqn:Eds; [discriminate |].
  set (s1 := skipn (List.length (d :: ds)) s).
  assert (H1 : List.length s1 = List.length s - List.length (d :: ds))
    by apply length_skipn.
  pose proof (optional_length is_dot s1) as Ho.
  destruct (optional is_dot s1) as [dot s2]. cbn [fst snd] in Ho.
  pose proof (take_while_length is_digit s2) as Hf.
  set (fs := take_while is_digit s2) in *.
  pose proof (match_exponent_length (skipn (List.length fs) s2)) as He.
  rewrite length_skipn in He.
  intros [= <-]. cbn [List.length] in *. rewrite !length_app. lia.
Qed.

Lemma match_number_length s t :
  match_number s = Some t -> List.length t <= List.length s.
Proof.
  unfold match_number.
  pose proof (optional_length is_minus s) as Ho.
  destruct (optional is_minus s) as [sg s1]. cbn [fst snd] in Ho.
  destruct (match_hex s1) as [h |] eqn:Eh.
  - intros [= <-]. apply match_hex_length in Eh. rewrite length_app. lia.
  - destruct (match_decimal s1) as [d |] eqn:Ed; [| discriminate].
    intros [= <-]. apply match_decimal_length in Ed. rewrite length_app. lia.
Qed.

Lemma match_identifier_length s t :
  match_identifier s = Some t -> List.length t <= List.length s.
Proof.
  unfold match_identifier. destruct s as [| c r]; [discriminate |].
  destruct (is_ident_start c); [| discriminate].
  intros [= <-]. pose proof (take_while_length is_ident_char r).
  cbn [List.length]. lia.
Qed.

Lemma match_token_length s t :
  match_token s = Some t -> List.length t <= List.length s.
Proof.
  unfold match_token.
  destruct (match_number s) as [n |] eqn:En;
    [intros [= <-]; apply match_number_length; exact En |].
  destruct (starts_with (lit "true") s) eqn:E1;
    [intros [= <-]; apply (starts_with_length _ _ E1) |].
  destruct (starts_with (lit "false") s) eqn:E2;
    [intros [= <-]; apply (starts_with_length _ _ E2) |].
  destruct (starts_with (lit "nil") s) eqn:E3;
    [intros [= <-]; apply (starts_with_length _ _ E3) |].
  apply match_identifier_length.
Qed.

Lemma string_loop_bound (rest : text) (pos : nat) (quote : ascii)
      (acc : text) (s : string) (p : nat) :
  string_loop rest pos quote acc = Ok (s, p) -> p <= pos + List.length rest.
Proof.
  remember (List.length rest) as n eqn:En.
  revert rest pos acc En.
  induction n as [n IH] using lt_wf_ind. intros rest pos acc En H.
  destruct rest as [| c rest]; [discriminate |].
  cbn [string_loop] in H. cbn [List.length] in En.
  destruct (ceqb c quote); [injection H as _ <-; lia |].
  destruct (ceqb c "\").
  - destruct rest as [| c' rest]; [discriminate |]. cbn [List.length] in En.
    apply (IH (List.length rest)) in H; [lia | lia | reflexivity].
  - apply (IH (List.length rest)) in H; [lia | lia | reflexivity].
Qed.

Lemma parse_string_bound content pos quote s p :
  _parse_string content pos quote = Ok (s, p) -> p <= len content.
Proof.
  unfold _parse_string.
  destruct (char_at content pos) as [c |] eqn:Ec; [| discriminate].
  apply char_at_some in Ec.
  destruct (ceqb c quote); [| discriminate].
  intros H. apply string_loop_bound in H.
  unfold tail_from in H. rewrite length_skipn in H. unfold len in *. lia.
Qed.

Lemma parse_long_string_bound content pos s p :
  _parse_long_string content pos = Ok (s, p) -> p <= len content.
Proof.
  unfold _parse_long_string.
  destruct (teqb (slice content pos (pos + 2)) (lit "[[")); [| discriminate].
  destruct (find content (lit "]]") (pos + 2)) as [e |] eqn:Ef; [| discriminate].
  apply find_bounds in Ef. cbn [len lit list_ascii_of_string List.length] in Ef.
  intros [= _ <-]. unfold len in *. lia.
Qed.

Lemma char_is_true content pos c :
  char_is content pos c = true -> char_at content pos = Some c.
Proof.
  unfold char_is. destruct (char_at content pos) as [x |]; [| discriminate].
  unfold ceqb. intros H. apply Ascii.eqb_eq in H. congruence.
Qed.

(** Where a table ends. *)
Lemma parse_table_bounds fuel content start v p :
  _parse_table fuel content start = Ok (v, p) ->
  start < p <= len content
  /\ char_is content start "{" = true
  /\ char_is content (p - 1) "}" = true.
Proof.
  intros H. pose proof (parse_table_progress _ _ _ _ _ H) as Hp.
  destruct fuel as [| fuel]; [discriminate |].
  cbn [_parse_table] in H.
  destruct (char_at content start) as [c |] eqn:Ec; [| discriminate].
  destruct (ceqb c "{") eqn:Eb; [| discriminate].
  destruct (table_loop fuel content (start + 1) initial_state [])
    as [[[st seen] pos] | |]; try discriminate.
  cbn [bind] in H. unfold missing in H.
  destruct (char_is content pos "}") eqn:Eclose; [| discriminate].
  cbn [negb] in H.
  destruct (finish_table st) as [value | |]; try discriminate.
  cbn [bind] in H. injection H as _ <-.
  pose proof (char_at_some _ _ _ (char_is_true _ _ _ Eclose)) as Hpos.
  replace (pos + 1 - 1) with pos by lia.
  repeat split; [lia | lia | | exact Eclose].
  unfold char_is. rewrite Ec. exact Eb.
Qed.

(** X22.  A value that [_parse_value] returns was read from the text: the
    position returned lies after the position given and within the text.
    A table that [_parse_table] returns starts with the opening brace at
    the position given and ends with a closing brace just before the
    position returned. *)
Theorem parsed_value_lies_within_text (fuel : nat) (content : text) :
  (forall pos v p,
      _parse_value fuel content pos = Ok (v, p) -> pos < p <= len content)
  /\ (forall start v p,
         _parse_table fuel content start = Ok (v, p) ->
         start < p <= len content
         /\ char_is content start "{" = true
         /\ char_is content (p - 1) "}" = true).
Proof.
  split; [| intros start v p; apply parse_table_bounds].
  intros pos v p H.
  split; [apply (proj1 (parser_progress fuel) content pos v p H) |].
  destruct fuel as [| fuel]; [discriminate |].
  cbn [_parse_value] in H.
  set (pos1 := _skip_whitespace content pos) in *.
  destruct (char_at content pos1) as [c |] eqn:Ec; [| discriminate].
  pose proof (char_at_some _ _ _ Ec) as Hpos1.
  destruct (ceqb c "{"); [apply parse_table_bounds in H; lia |].
  destruct (ceqb c dquote).
  { destruct (_parse_string content pos1 dquote) as [[s q] | |] eqn:Es;
      try discriminate.
    cbn [bind] in H. injection H as _ <-.
    apply (parse_string_bound _ _ _ _ _ Es). }
  destruct (ceqb c squote).
  { destruct (_parse_string content pos1 squote) as [[s q] | |] eqn:Es;
      try discriminate.
    cbn [bind] in H. injection H as _ <-.
    apply (parse_string_bound _ _ _ _ _ Es). }
  destruct (teqb (slice content pos1 (pos1 + 2)) (lit "[[")).
  { destruct (_parse_long_string content pos1) as [[s q] | |] eqn:Es;
      try discriminate.
    cbn [bind] in H. injection H as _ <-.
    apply (parse_long_string_bound _ _ _ _ Es). }
  destruct (match_token (tail_from content pos1)) as [token |] eqn:Et;
    [| discriminate].
  apply match_token_length in Et. unfold tail_from in Et.
  rewrite length_skipn in Et. unfold len in *.
  destruct (teqb token (lit "true")); [injection H as _ <-; lia |].
  destruct (teqb token (lit "false")); [injection H as _ <-; lia |].
  destruct (teqb token (lit "nil")); [injection H as _ <-; lia |].
  destruct (match_number token).
  - destruct (number_of_token token); try discriminate.
    cbn [bind] in H. injection H as _ <-. lia.
  - injection H as _ <-. lia.
Qed.

End ParserBounds.

Section NumberLiterals.
Import Py Watcher.

Lemma take_while_forallb p (s : text) : forallb p (take_while p s) = true.
Proof.
  induction s as [| c s IH]; [reflexivity |].
  cbn [take_while]. destruct (p c) eqn:E; [| reflexivity].
  cbn [forallb]. rewrite E, IH. reflexivity.
Qed.

Lemma take_while_rest p (s : text) :
  take_while p (skipn (List.length (take_while p s)) s) = [].
Proof.
  induction s as [| c s IH]; [reflexivity |].
  cbn [take_while]. destruct (p c) eqn:E; cbn [List.length skipn].
  - exact IH.
  - cbn [take_while]. rewrite E. reflexivity.
Qed.

Lemma take_while_app p (a b : text) :
  forallb p a = true -> take_while p (a ++ b) = a ++ take_while p b.
Proof.
  induction a as [| c a IH]; intros H; [reflexivity |].
  cbn [forallb] in H. apply andb_prop in H as [Hc H].
  cbn [app take_while]. rewrite Hc, (IH H). reflexivity.
Qed.

Lemma skipn_exact {A} (a b : list A) : skipn (List.length a) (a ++ b) = b.
Proof. induction a as [| x a IH]; [reflexivity | exact IH]. Qed.

Lemma contains_app p (a b : text) :
  contains p (a ++ b) = contains p a || contains p b.
Proof.
  induction a as [| c a IH]; [reflexivity |].
  cbn [app contains]. rewrite IH, orb_assoc. reflexivity.
Qed.

Lemma digit_cases (c : ascii) :
  is_digit c = true ->
  is_minus c = false /\ is_dot c = false /\ is_sign c = false
  /\ is_e c = false /\ is_e (lower c) = false /\ ceqb "x" c = false.
Proof.
  destruct c as [[] [] [] [] [] [] [] []]; vm_compute;
    intros H; try discriminate H; repeat split; reflexivity.
Qed.

Lemma e_cases (c : ascii) :
  is_e c = true ->
  is_digit c = false /\ is_dot c = false /\ ceqb "x" c = false
  /\ is_e (lower c) = true.
Proof.
  destruct c as [[] [] [] [] [] [] [] []]; vm_compute;
    intros H; try discriminate H; repeat split; reflexivity.
Qed.

Lemma dot_cases (c : ascii) : is_dot c = true -> c = "."%char.
Proof. unfold is_dot, ceqb. apply Ascii.eqb_eq. Qed.

Lemma minus_cases (c : ascii) : is_minus c = true -> c = "-"%char.
Proof. unfold is_minus, ceqb. apply Ascii.eqb_eq. Qed.

Lemma digits_no_dot_no_e (ds : text) :
  forallb is_digit ds = true ->
  contains is_dot ds = false /\ contains is_e (map lower ds) = false.
Proof.
  induction ds as [| c ds IH]; intros H; [split; reflexivity |].
  cbn [forallb] in H. apply andb_prop in H as [Hc H].
  destruct (digit_cases c Hc) as (_ & Hd & _ & _ & He & _).
  destruct (IH H) as [H1 H2].
  cbn [map contains]. rewrite Hd, He, H1, H2. split; reflexivity.
Qed.

(** What [optional] splits off. *)
Lemma optional_cases p (s : text) :
  s = fst (optional p s) ++ snd (optional p s)
  /\ ((fst (optional p s) = [] /\ optional p (snd (optional p s)) = ([], snd (optional p s)))
      \/ exists c, fst (optional p s) = [c] /\ p c = true).
Proof.
  unfold optional. destruct s as [| c r]; [split; [reflexivity | left; split; reflexivity] |].
  destruct (p c) eqn:E; cbn [fst snd].
  - split; [reflexivity | right; exists c; split; [reflexivity | exact E]].
  - split; [reflexivity | left]. rewrite E. split; reflexivity.
Qed.

(** The shape of an exponent that [match_exponent] accepts. *)
Lemma match_exponent_shape (s : text) :
  match_exponent s = []
  \/ exists e sgn es,
      match_exponent s = e :: sgn ++ es
      /\ is_e e = true
      /\ (sgn = [] \/ exists c, sgn = [c] /\ is_sign c = true)
      /\ es <> [] /\ forallb is_digit es = true.
Proof.
  unfold match_exponent. destruct s as [| e r]; [left; reflexivity |].
  destruct (is_e e) eqn:Ee; [| left; reflexivity].
  destruct (optional_cases is_sign r) as (_ & Hsg).
  destruct (optional is_sign r) as [sgn r1]. cbn [fst snd] in Hsg.
  pose proof (take_while_forallb is_digit r1) as Hd.
  destruct (take_while is_digit r1) as [| d es] eqn:Ees; [left; reflexivity |].
  right. exists e, sgn, (d :: es).
  repeat split; [exact Ee | | discriminate | exact Hd].
  destruct Hsg as [[Hsg _] | Hsg]; [left; exact Hsg | right; exact Hsg].
Qed.

(** The shape of a token that [match_decimal] accepts: digits, then
    perhaps a dot and digits, then perhaps an exponent. *)
Lemma match_decimal_shape (s t : text) :
  match_decimal s = Some t ->
  exists ds dot fs ex,
    t = ds ++ dot ++ fs ++ ex
    /\ ds <> [] /\ forallb is_digit ds = true
    /\ (dot = [] \/ dot = ["."%char])
    /\ forallb is_digit fs = true
    /\ (dot = [] -> fs = [])
    /\ (ex = []
        \/ exists e sgn es,
            ex = e :: sgn ++ es
            /\ is_e e = true
            /\ (sgn = [] \/ exists c, sgn = [c] /\ is_sign c = true)
            /\ es <> [] /\ forallb is_digit es = true).
Proof.
  unfold match_decimal.
  pose proof (take_while_forallb is_digit s) as Hds.
  pose proof (take_while_rest is_digit s) as Hrest.
  destruct (take_while is_digit s) as [| d ds] eqn:Eds; [discriminate |].
  set (s1 := skipn (List.length (d :: ds)) s) in *.
  destruct (optional_cases is_dot s1) as (_ & Hdot).
  destruct (optional is_dot s1) as [dot s2] eqn:Eo. cbn [fst snd] in Hdot.
  intros [= <-].
  exists (d :: ds), dot, (take_while is_digit s2),
    (match_exponent (skipn (List.length (take_while is_digit s2)) s2)).
  split; [reflexivity |].
  split; [discriminate |].
  split; [exact Hds |].
  split.
  { destruct Hdot as [[Hdot _] | (c & Hdot & Hc)]; [left; exact Hdot |].
    right. rewrite Hdot, (dot_cases c Hc). reflexivity. }
  split; [apply take_while_forallb |].
  split; [| apply match_exponent_shape].
  intros Hnil. subst dot.
  assert (Es2 : s2 = s1).
  { unfold optional in Eo. destruct s1 as [| c r]; [congruence |].
    destruct (is_dot c); congruence. }
  rewrite Es2. exact Hrest.
Qed.

Lemma sign_then_digit (sgn es : text) :
  (sgn = [] \/ exists c, sgn = [c] /\ is_sign c = true) ->
  es <> [] -> forallb is_digit es = true ->
  optional is_sign (sgn ++ es) = (sgn, es).
Proof.
  intros Hsgn Hne Hes. destruct es as [| d es]; [congruence |].
  cbn [forallb] in Hes. apply andb_prop in Hes as [Hd _].
  destruct (digit_cases d Hd) as (_ & _ & Hs & _).
  destruct Hsgn as [-> | (c & -> & Hc)]; cbn [app optional].
  - rewrite Hs. reflexivity.
  - rewrite Hc. reflexivity.
Qed.

(** [float] accepts every decimal token, with or without a minus sign. *)
Lemma py_float_decimal (sg ds dot fs ex : text) :
  (sg = [] \/ sg = ["-"%char]) ->
  ds <> [] -> forallb is_digit ds = true ->
  (dot = [] \/ dot = ["."%char]) ->
  forallb is_digit fs = true ->
  (dot = [] -> fs = []) ->
  (ex = []
   \/ exists e sgn es,
       ex = e :: sgn ++ es
       /\ is_e e = true
       /\ (sgn = [] \/ exists c, sgn = [c] /\ is_sign c = true)
       /\ es <> [] /\ forallb is_digit es = true) ->
  exists f, py_float (sg ++ ds ++ dot ++ fs ++ ex) = Ok f.
Proof.
  intros Hsg Hne Hds Hdot Hfs Hnofs Hex.
  assert (Hhead : take_while is_digit ex = [] /\ optional is_dot ex = ([], ex)).
  { destruct Hex as [-> | (e & sgn & es & -> & He & _)]; [split; reflexivity |].
    destruct (e_cases e He) as (Hd & Hp & _).
    cbn [take_while optional]. rewrite Hd, Hp. split; reflexivity. }
  destruct Hhead as [Hex_digits Hex_dot].
  assert (Hsplit : optional is_minus (sg ++ ds ++ dot ++ fs ++ ex)
                   = (sg, ds ++ dot ++ fs ++ ex)).
  { destruct Hsg as [-> | ->]; [| reflexivity].
    destruct ds as [| d ds]; [congruence |].
    cbn [forallb] in Hds. apply andb_prop in Hds as [Hd _].
    destruct (digit_cases d Hd) as (Hm & _).
    cbn [app optional]. rewrite Hm. reflexivity. }
  assert (Hint : take_while is_digit (ds ++ dot ++ fs ++ ex) = ds).
  { rewrite (take_while_app _ _ _ Hds).
    destruct Hdot as [-> | ->].
    - rewrite (Hnofs eq_refl). cbn [app]. rewrite Hex_digits, app_nil_r.
      reflexivity.
    - cbn [app take_while]. change (is_digit ".") with false.
      rewrite app_nil_r. reflexivity. }
  assert (Hpoint : optional is_dot (dot ++ fs ++ ex) = (dot, fs ++ ex)).
  { destruct Hdot as [-> | ->]; [| reflexivity].
    rewrite (Hnofs eq_refl). cbn [app]. exact Hex_dot. }
  assert (Hfrac : take_while is_digit (fs ++ ex) = fs).
  { rewrite (take_while_app _ _ _ Hfs), Hex_digits, app_nil_r. reflexivity. }
  unfold py_float. rewrite Hsplit, Hint, skipn_exact, Hpoint, Hfrac, skipn_exact.
  assert (Hnil : is_nil ds && is_nil fs = false)
    by (destruct ds; [congruence | reflexivity]).
  rewrite Hnil.
  destruct Hex as [-> | (e & sgn & es & -> & He & Hsgn & Hes & Hdigits)];
    [eexists; reflexivity |].
  rewrite (sign_then_digit sgn es Hsgn Hes Hdigits), He, Hdigits.
  assert (Hes' : negb (is_nil es) = true)
    by (destruct es; [congruence | reflexivity]).
  rewrite Hes'. eexists. reflexivity.
Qed.

(** No decimal token starts like a hexadecimal literal. *)
Lemma decimal_not_hex (ds rest : text) :
  ds <> [] -> forallb is_digit ds = true ->
  (forall c r, rest = c :: r -> ceqb "x" c = false) ->
  starts_with (lit "0x") (ds ++ rest) = false
  /\ starts_with (lit "-0x") (ds ++ rest) = false
  /\ starts_with (lit "0x") ("-"%char :: ds ++ rest) = false
  /\ starts_with (lit "-0x") ("-"%char :: ds ++ rest) = false.
Proof.
  intros Hne Hds Hrest. destruct ds as [| d ds]; [congruence |].
  cbn [forallb] in Hds. apply andb_prop in Hds as [Hd Hds].
  destruct (digit_cases d Hd) as (Hm & _).
  assert (Hc : forall c r, ds ++ rest = c :: r -> ceqb "x" c = false).
  { intros c r E. destruct ds as [| d' ds'].
    - exact (Hrest c r E).
    - cbn [app] in E. injection E as <- _.
      cbn [forallb] in Hds. apply andb_prop in Hds as [Hd' _].
      apply (digit_cases d' Hd'). }
  assert (Hminus : ceqb "-" d = false).
  { unfold is_minus, ceqb in *. rewrite Ascii.eqb_sym. exact Hm. }
  cbn [app]. destruct (ds ++ rest) as [| c r] eqn:E;
    cbn [lit list_ascii_of_string starts_with];
    change (ceqb "0" "-") with false; change (ceqb "-" "-") with true;
    rewrite ?(Hc c r eq_refl), ?Hminus, ?andb_false_r; cbn [andb];
    rewrite ?andb_false_r; repeat split; reflexivity.
Qed.

(** The number branch on a signed hexadecimal literal. *)
Lemma signed_hex_literal_number (sg hs : text) :
  (sg = [] \/ sg = ["-"%char]) ->
  hs <> [] -> forallb is_hex_digit hs = true ->
  hex_with_e (sg ++ lit "0x" ++ hs) = contains is_e hs
  /\ if contains is_e hs
     then number_of_token (sg ++ lit "0x" ++ hs) = Raise ValueError
     else exists v, number_of_token (sg ++ lit "0x" ++ hs) = Ok v.
Proof.
  intros Hsg Hne Hhex.
  destruct Hsg as [-> | ->].
  - cbn [app]. split.
    + unfold hex_with_e.
      change (lit "0x" ++ hs) with ("0"%char :: "x"%char :: hs).
      change (starts_with (lit "0x") ("0"%char :: "x"%char :: hs)) with true.
      cbn [orb andb map contains].
      change (is_e (lower "0")) with false. change (is_e (lower "x")) with false.
      cbn [orb]. apply hex_digits_lower_e. exact Hhex.
    + rewrite (hex_literal_number hs Hne Hhex).
      destruct (contains is_e hs); [reflexivity | eexists; reflexivity].
  - change (["-"%char] ++ lit "0x" ++ hs)
      with ("-"%char :: "0"%char :: "x"%char :: hs).
    split.
    + unfold hex_with_e.
      change (starts_with (lit "0x") ("-"%char :: "0"%char :: "x"%char :: hs))
        with false.
      change (starts_with (lit "-0x") ("-"%char :: "0"%char :: "x"%char :: hs))
        with true.
      cbn [orb andb map contains].
      change (is_e (lower "-")) with false.
      change (is_e (lower "0")) with false. change (is_e (lower "x")) with false.
      cbn [orb]. apply hex_digits_lower_e. exact Hhex.
    + unfold number_of_token. cbn [map contains].
      change (is_dot "-") with false.
      change (is_dot "0") with false. change (is_dot "x") with false.
      change (is_e (lower "-")) with false.
      change (is_e (lower "0")) with false. change (is_e (lower "x")) with false.
      rewrite (hex_digits_no_dot hs Hhex), (hex_digits_lower_e hs Hhex).
      cbn [orb].
      destruct (contains is_e hs).
      * unfold py_float. cbn [optional].
        change (is_minus "-") with true. cbv iota.
        cbn [take_while]. change (is_digit "0") with true.
        change (is_digit "x") with false. cbv iota.
        cbn [List.length skipn optional take_while].
        change (is_dot "x") with false. cbv iota.
        cbn [take_while]. change (is_digit "x") with false. cbv iota.
        cbn [List.length skipn is_nil andb].
        destruct (optional is_sign hs) as [esg es].
        change (is_e "x") with false. reflexivity.
      * change (starts_with (lit "0x") ("-"%char :: "0"%char :: "x"%char :: hs))
          with false.
        change (starts_with (lit "-0x") ("-"%char :: "0"%char :: "x"%char :: hs))
          with true.
        cbn [orb]. unfold py_int16. cbn [optional].
        change (is_minus "-") with true. cbv iota.
        change (starts_with (lit "0x") ("0"%char :: "x"%char :: hs)) with true.
        cbn [skipn]. rewrite Hhex.
        destruct hs; [congruence |]. eexists. reflexivity.
Qed.

Lemma match_hex_shape (s t : text) :
  match_hex s = Some t ->
  exists hs, t = lit "0x" ++ hs /\ hs <> [] /\ forallb is_hex_digit hs = true.
Proof.
  unfold match_hex. destruct s as [| z [| x r]]; try discriminate.
  destruct (ceqb z "0" && ceqb x "x") eqn:E; [| discriminate].
  apply andb_prop in E as [Ez Ex]. unfold ceqb in *.
  apply Ascii.eqb_eq in Ez, Ex. subst z x.
  pose proof (take_while_forallb is_hex_digit r) as Hh.
  destruct (take_while is_hex_digit r) as [| h hs]; [discriminate |].
  intros [= <-]. exists (h :: hs). repeat split; [discriminate | exact Hh].
Qed.

(** The number branch on a signed decimal token. *)
Lemma signed_decimal_number (sg t : text) (s : text) :
  (sg = [] \/ sg = ["-"%char]) ->
  match_decimal s = Some t ->
  hex_with_e (sg ++ t) = false
  /\ exists v, number_of_token (sg ++ t) = Ok v.
Proof.
  intros Hsg Ht.
  destruct (match_decimal_shape s t Ht)
    as (ds & dot & fs & ex & -> & Hne & Hds & Hdot & Hfs & Hnofs & Hex).
  assert (Hx : forall c r, dot ++ fs ++ ex = c :: r -> ceqb "x" c = false).
  { intros c r E. destruct Hdot as [-> | ->].
    - rewrite (Hnofs eq_refl) in E. cbn [app] in E.
      destruct Hex as [-> | (e & sgn & es & -> & He & _)]; [discriminate |].
      injection E as <- _. apply (e_cases e He).
    - injection E as <- _. reflexivity. }
  destruct (decimal_not_hex ds (dot ++ fs ++ ex) Hne Hds Hx)
    as (N1 & N2 & N3 & N4).
  assert (Hnothex : starts_with (lit "0x") (sg ++ ds ++ dot ++ fs ++ ex)
                    || starts_with (lit "-0x") (sg ++ ds ++ dot ++ fs ++ ex)
                    = false).
  { destruct Hsg as [-> | ->]; cbn [app].
    - rewrite N1, N2. reflexivity.
    - rewrite N3, N4. reflexivity. }
  split; [unfold hex_with_e; rewrite Hnothex; reflexivity |].
  unfold number_of_token. rewrite Hnothex.
  destruct (contains is_dot (sg ++ ds ++ dot ++ fs ++ ex)
            || contains is_e (map lower (sg ++ ds ++ dot ++ fs ++ ex))) eqn:Efloat.
  - destruct (py_float_decimal sg ds dot fs ex Hsg Hne Hds Hdot Hfs Hnofs Hex)
      as (f & Ef).
    rewrite Ef. eexists. reflexivity.
  - (* neither a dot nor an exponent: an integer *)
    apply orb_false_iff in Efloat as [Enodot Enoe].
    assert (Edot : dot = []).
    { destruct Hdot as [-> | ->]; [reflexivity |].
      rewrite !contains_app in Enodot. cbn [contains] in Enodot.
      change (is_dot ".") with true in Enodot.
      rewrite orb_true_r in Enodot. cbn [orb] in Enodot.
      rewrite !orb_true_r in Enodot. discriminate. }
    subst dot. rewrite (Hnofs eq_refl) in *. cbn [app] in *.
    assert (Eex : ex = []).
    { destruct Hex as [-> | (e & sgn & es & -> & He & _)]; [reflexivity |].
      rewrite !map_app, !contains_app in Enoe. cbn [map contains] in Enoe.
      rewrite (proj2 (proj2 (proj2 (e_cases e He)))) in Enoe.
      cbn [orb] in Enoe. rewrite !orb_true_r in Enoe. discriminate. }
    subst ex. rewrite app_nil_r.
    unfold py_int.
    assert (Hsplit : optional is_minus (sg ++ ds) = (sg, ds)).
    { destruct Hsg as [-> | ->]; [| reflexivity].
      destruct ds as [| d ds']; [congruence |].
      cbn [forallb] in Hds. apply andb_prop in Hds as [Hd _].
      destruct (digit_cases d Hd) as (Hm & _).
      cbn [app optional]. rewrite Hm. reflexivity. }
    rewrite Hsplit, Hds.
    assert (Hnn : negb (is_nil ds) = true)
      by (destruct ds; [congruence | reflexivity]).
    rewrite Hnn. cbn [andb bind]. eexists. reflexivity.
Qed.

(** X23.  The conversion of a number token raises for one kind of token
    only: a hexadecimal literal with an [e] or [E] among its digits, which
    goes to [float] and ends in [ValueError].  Every other token of the
    number expression, decimal or hexadecimal, signed or not, with or
    without fraction and exponent, is converted (the interpreter's limit on
    the length of decimal integer strings aside, which is not modelled). *)
Theorem number_literals_convert (s token : text) :
  match_number s = Some token ->
  (hex_with_e token = true /\ number_of_token token = Raise ValueError)
  \/ (hex_with_e token = false /\ exists v, number_of_token token = Ok v).
Proof.
  unfold match_number.
  destruct (optional_cases is_minus s) as (_ & Hsg).
  destruct (optional is_minus s) as [sg s1]. cbn [fst snd] in Hsg.
  assert (Hsign : sg = [] \/ sg = ["-"%char]).
  { destruct Hsg as [[Hsg _] | (c & Hsg & Hc)]; [left; exact Hsg |].
    right. rewrite Hsg, (minus_cases c Hc). reflexivity. }
  clear Hsg.
  destruct (match_hex s1) as [t |] eqn:Eh.
  - intros [= <-].
    destruct (match_hex_shape s1 t Eh) as (hs & -> & Hne & Hhex).
    destruct (signed_hex_literal_number sg hs Hsign Hne Hhex) as [Hw Hn].
    rewrite Hw. destruct (contains is_e hs).
    + left. split; [reflexivity | exact Hn].
    + right. split; [reflexivity | exact Hn].
  - destruct (match_decimal s1) as [t |] eqn:Ed; [| discriminate].
    intros [= <-]. right. apply (signed_decimal_number sg t s1 Hsign Ed).
Qed.

End NumberLiterals.

Section ParseResult.
Import Py Watcher.

Lemma assoc_set_keys {V : Type} (d : list (string * V)) k v :
  keys (assoc_set String.eqb d k v)
  = if existsb (String.eqb k) (keys d) then keys d else keys d ++ [k].
Proof.
  induction d as [| [k' v'] rest IH]; [reflexivity |].
  cbn [assoc_set keys map fst existsb].
  rewrite (String.eqb_sym k k').
  destruct (String.eqb k' k); cbn [orb map fst]; [reflexivity |].
  fold (keys rest). fold (keys (assoc_set String.eqb rest k v)). rewrite IH.
  destruct (existsb (String.eqb k) (keys rest)); reflexivity.
Qed.

Lemma assoc_set_distinct {V : Type} (d : list (string * V)) k v :
  NoDup (keys d) -> NoDup (keys (assoc_set String.eqb d k v)).
Proof.
  intros H. rewrite assoc_set_keys.
  destruct (existsb (String.eqb k) (keys d)) eqn:E; [exact H |].
  apply NoDup_app; [exact H | repeat constructor; intros [] |].
  intros name Hin [<- | []].
  assert (Hex : existsb (String.eqb k) (keys d) = true)
    by (apply existsb_exists; exists k; split; [exact Hin | apply String.eqb_refl]).
  congruence.
Qed.

(** What the scan collects, it has read. *)
Lemma parse_loop_origin (content : text) (fuel : nat) :
  forall pos acc r,
    parse_loop fuel content pos acc = Ok r ->
    (NoDup (keys acc) -> NoDup (keys r))
    /\ forall name value,
        In (name, value) r ->
        In (name, value) acc
        \/ exists at_ ident table_start match_end end_pos,
            pos <= at_
            /\ assignment_search content at_
               = Some (ident, table_start, match_end)
            /\ name = string_of_list_ascii ident
            /\ _parse_table (enough content) content table_start
               = Ok (value, end_pos).
Proof.
  induction fuel as [| fuel IH]; intros pos acc r H; [discriminate |].
  cbn [parse_loop] in H.
  destruct (pos <? len content);
    [| injection H as <-; split; [tauto | intros; left; assumption]].
  destruct (assignment_search content pos) as [[[ident ts] me] |] eqn:Es;
    [| injection H as <-; split; [tauto | intros; left; assumption]].
  pose proof (assignment_search_bounds _ _ _ _ _ Es) as [Hts Hme].
  destruct (_parse_table (enough content) content ts) as [[v e] | ex |] eqn:Et.
  - pose proof (parse_table_progress _ _ _ _ _ Et) as He.
    destruct (IH _ _ _ H) as [Hnd Hin]. split.
    + intros Hacc. apply Hnd. apply assoc_set_distinct. exact Hacc.
    + intros name value Hr.
      destruct (Hin name value Hr) as [Hold | (at_ & i & t & m & p & Hat & Hrest)].
      * apply assoc_set_in in Hold as [Hold | [-> ->]]; [left; exact Hold |].
        right. exists pos, ident, ts, me, e.
        repeat split; [lia | exact Es | exact Et].
      * right. exists at_, i, t, m, p. split; [lia | exact Hrest].
  - destruct ex; try discriminate.
    destruct (IH _ _ _ H) as [Hnd Hin]. split; [exact Hnd |].
    intros name value Hr.
    destruct (Hin name value Hr) as [Hold | (at_ & i & t & m & p & Hat & Hrest)];
      [left; exact Hold |].
    right. exists at_, i, t, m, p. split; [lia | exact Hrest].
  - discriminate.
Qed.

(** X24.  [parse] invents nothing: every variable of the mapping it returns
    is the name of an assignment that the scan found in the text, its value
    is what [_parse_table] returned for the table of that assignment, and
    no variable occurs twice. *)
Theorem parse_returns_assigned_tables
        (content : text) (r : list (string * pyval)) :
  parse content = Ok r ->
  NoDup (keys r)
  /\ forall name value,
      In (name, value) r ->
      exists at_ ident table_start match_end end_pos,
        assignment_search content at_ = Some (ident, table_start, match_end)
        /\ name = string_of_list_ascii ident
        /\ _parse_table (enough content) content table_start
           = Ok (value, end_pos).
Proof.
  intros H. unfold parse, parse_from in H.
  destruct (parse_loop_origin content _ _ _ _ H) as [Hnd Hin].
  split; [apply Hnd; constructor |].
  intros name value Hr.
  destruct (Hin name value Hr) as [[] | (at_ & i & t & m & p & _ & Hrest)].
  exists at_, i, t, m, p. exact Hrest.
Qed.

End ParseResult.

Section ParserFactsExamples.
Import Py Watcher Examples.

(** The literal for the text [say "hi"] after the seven characters of
    [name = ]: the two quotes of the body are escaped. *)
Lemma parse_string_reads_back_witness :
  _parse_string (lit "name = " ++ quoted_literal dquote quotation ++ lit " }")
                (len (lit "name = ")) dquote
  = Ok (string_of_list_ascii quotation,
        len (lit "name = ") + len (quoted_literal dquote quotation))
  /\ _parse_string (lit "name = " ++ dquote :: escaped dquote quotation)
                   (len (lit "name = ")) dquote
     = Raise LuaParseError.
Proof.
  apply (parse_string_reads_back dquote (lit "name = ") quotation (lit " }")).
  left. reflexivity.
Defined.

Lemma parsed_value_lies_within_text_witness :
  0 < 16 <= len mixed_table
  /\ char_is mixed_table 0 "{" = true
  /\ char_is mixed_table (16 - 1) "}" = true.
Proof.
  apply (proj2 (parsed_value_lies_within_text (enough mixed_table) mixed_table)
               0 (VList [VStr "a"; VStr "b"]) 16).
  vm_compute. reflexivity.
Defined.

Lemma number_literals_convert_witness :
  (hex_with_e (lit "-1.5e3") = true
   /\ number_of_token (lit "-1.5e3") = Raise ValueError)
  \/ (hex_with_e (lit "-1.5e3") = false
      /\ exists v, number_of_token (lit "-1.5e3") = Ok v).
Proof.
  apply (number_literals_convert (lit "-1.5e3, ") (lit "-1.5e3")).
  vm_compute. reflexivity.
Defined.

Lemma parse_returns_assigned_tables_witness :
  NoDup (keys [("b"%string, VList [VInt 1])])
  /\ forall name value,
      In (name, value) [("b"%string, VList [VInt 1])] ->
      exists at_ ident table_start match_end end_pos,
        assignment_search broken_file at_ = Some (ident, table_start, match_end)
        /\ name = string_of_list_ascii ident
        /\ _parse_table (enough broken_file) broken_file table_start
           = Ok (value, end_pos).
Proof.
  apply (parse_returns_assigned_tables broken_file).
  vm_compute. reflexivity.
Defined.

End ParserFactsExamples.

(* ===================================================================== *)
(** * The cache of known combat runs                                      *)
(* ===================================================================== *)

Section RunCacheFacts.
Import Py Watcher.

Variable iteration : list pyval -> list pyval.

Lemma trim_bounded (cache : list pyval) :
  (forall s, List.length (iteration s) = List.length s) ->
  (Z.of_nat (List.length (trim iteration cache)) <= MAX_CACHED_RUNS)%Z.
Proof.
  intros Hlen. unfold trim.
  destruct (Z.ltb_spec MAX_CACHED_RUNS (Z.of_nat (List.length cache)));
    [| assumption].
  cbv zeta. rewrite length_skipn, Hlen. unfold MAX_CACHED_RUNS in *. lia.
Qed.

Lemma trim_room (cache : list pyval) :
  (Z.of_nat (List.length cache) <= MAX_CACHED_RUNS)%Z ->
  trim iteration cache = cache.
Proof.
  intros H. unfold trim.
  destruct (Z.ltb_spec MAX_CACHED_RUNS (Z.of_nat (List.length cache)));
    [lia | reflexivity].
Qed.

Lemma process_runs_bounded (runs : list pyval) :
  (forall s, List.length (iteration s) = List.length s) ->
  forall cache detected detected' cache',
    (Z.of_nat (List.length cache) <= MAX_CACHED_RUNS)%Z ->
    process_runs iteration runs cache detected = Ok (detected', cache') ->
    (Z.of_nat (List.length cache') <= MAX_CACHED_RUNS)%Z.
Proof.
  intros Hlen. induction runs as [| run runs IH];
    intros cache detected detected' cache' Hc H.
  - injection H as _ <-. exact Hc.
  - cbn [process_runs] in H.
    destruct run as [| b | z | f | s | items | run_data];
      try (apply (IH _ _ _ _ Hc H)).
    cbv zeta in H.
    destruct (negb (truthy (run_id_of run_data))); [apply (IH _ _ _ _ Hc H) |].
    destruct (set_contains cache (run_id_of run_data)) as [[|] | |];
      try discriminate; cbn [bind] in H.
    + apply (IH _ _ _ _ Hc H).
    + apply (IH _ _ _ _ (trim_bounded _ Hlen) H).
Qed.

(** X25.  The cache of known run ids never outgrows [MAX_CACHED_RUNS]:
    when it holds no more than that many ids before
    [_process_combat_runs], it holds no more afterwards, in whatever order
    the set is iterated when it is trimmed. *)
Theorem run_cache_stays_bounded
        (sv_data : pydict) (cache cache' : list pyval)
        (detected : list pydict) :
  (forall s, List.length (iteration s) = List.length s) ->
  (Z.of_nat (List.length cache) <= MAX_CACHED_RUNS)%Z ->
  _process_combat_runs iteration sv_data cache = Ok (detected, cache') ->
  (Z.of_nat (List.length cache') <= MAX_CACHED_RUNS)%Z.
Proof.
  intros Hlen Hc H. unfold _process_combat_runs in H.
  exact (process_runs_bounded _ Hlen _ _ _ _ Hc H).
Qed.

Lemma key_eqb_refl (v : pyval) : hashable v = true -> key_eqb v v = true.
Proof.
  destruct v as [| b | z | f | s | items | items]; try discriminate; intros _.
  - reflexivity.
  - unfold key_eqb, num_of, num_eqb. apply Qeq_bool_iff. reflexivity.
  - unfold key_eqb, num_of, num_eqb. apply Qeq_bool_iff. reflexivity.
  - unfold key_eqb, num_of, num_eqb. destruct f as [q | sgn].
    + apply Qeq_bool_iff. reflexivity.
    + destruct sgn; reflexivity.
  - unfold key_eqb. apply String.eqb_refl.
Qed.

Lemma passed_over_later cache added run :
  passed_over cache run -> passed_over (cache ++ added) run.
Proof.
  destruct run as [| b | z | f | s | items | run_data]; try exact (fun H => H).
  cbn [passed_over]. intros [H | H]; [left; exact H | right].
  unfold set_contains in *. destruct (hashable (run_id_of run_data));
    [| discriminate].
  injection H as H. rewrite existsb_app, H. reflexivity.
Qed.

Lemma process_runs_passes_over (runs : list pyval) :
  forall cache detected,
    Forall (passed_over cache) runs ->
    process_runs iteration runs cache detected = Ok (detected, cache).
Proof.
  induction runs as [| run runs IH]; intros cache detected H; [reflexivity |].
  apply Forall_cons_iff in H as [Hrun H].
  cbn [process_runs].
  destruct run as [| b | z | f | s | items | run_data]; try (apply IH; exact H).
  cbv zeta. cbn [passed_over] in Hrun. destruct Hrun as [Hrun | Hrun].
  - rewrite Hrun. cbn [negb]. apply IH. exact H.
  - destruct (negb (truthy (run_id_of run_data))); [apply IH; exact H |].
    rewrite Hrun. cbn [bind]. apply IH. exact H.
Qed.

Lemma process_runs_with_room (runs : list pyval) :
  forall cache detected detected' cache',
    (Z.of_nat (List.length cache + List.length runs) <= MAX_CACHED_RUNS)%Z ->
    process_runs iteration runs cache detected = Ok (detected', cache') ->
    (exists added, cache' = cache ++ added)
    /\ Forall (passed_over cache') runs
    /\ exists new_runs,
        detected' = detected ++ new_runs
        /\ Forall (fun run_data =>
                     truthy (run_id_of run_data) = true
                     /\ existsb (key_eqb (run_id_of run_data)) cache = false)
                  new_runs.
Proof.
  induction runs as [| run runs IH];
    intros cache detected detected' cache' Hroom H.
  - injection H as <- <-. split; [exists []; rewrite app_nil_r; reflexivity |].
    split; [constructor |]. exists []. rewrite app_nil_r.
    split; [reflexivity | constructor].
  - cbn [List.length] in Hroom. cbn [process_runs] in H.
    assert (Hskip : process_runs iteration runs cache detected
                    = Ok (detected', cache') ->
                    passed_over cache run ->
                    (exists added, cache' = cache ++ added)
                    /\ Forall (passed_over cache') (run :: runs)
                    /\ exists new_runs,
                        detected' = detected ++ new_runs
                        /\ Forall (fun run_data =>
                                     truthy (run_id_of run_data) = true
                                     /\ existsb (key_eqb (run_id_of run_data))
                                                cache = false)
                                  new_runs).
    { intros H' Hrun. destruct (IH cache detected detected' cache') as
          ((added & Hadd) & Hall & Hnew); [lia | exact H' |].
      split; [exists added; exact Hadd |]. split; [| exact Hnew].
      constructor; [| exact Hall]. rewrite Hadd.
      apply passed_over_later. exact Hrun. }
    destruct run as [| b | z | f | s | items | run_data];
      try (apply Hskip; [exact H | exact I]).
    cbv zeta in H.
    destruct (truthy (run_id_of run_data)) eqn:Etruthy; cbn [negb] in H;
      [| apply Hskip; [exact H | left; exact Etruthy]].
    destruct (set_contains cache (run_id_of run_data)) as [[|] | |] eqn:Eknown;
      try discriminate; cbn [bind] in H;
      [apply Hskip; [exact H | right; exact Eknown] |].
    rewrite trim_room in H by (rewrite length_app; cbn [List.length]; lia).
    destruct (IH (cache ++ [run_id_of run_data]) (detected ++ [run_data])
                 detected' cache') as ((added & Hadd) & Hall & new_runs & Hd & Hnew);
      [rewrite length_app; cbn [List.length]; lia | exact H |].
    unfold set_contains in Eknown.
    destruct (hashable (run_id_of run_data)) eqn:Ehash; [| discriminate].
    injection Eknown as Eknown.
    split; [exists ([run_id_of run_data] ++ added); rewrite Hadd, <- app_assoc;
            reflexivity |].
    split.
    + constructor; [| exact Hall]. cbn [passed_over]. right.
      unfold set_contains. rewrite Ehash, Hadd, !existsb_app. cbn [existsb].
      rewrite (key_eqb_refl _ Ehash), orb_true_r. reflexivity.
    + exists (run_data :: new_runs). split; [rewrite Hd, <- app_assoc; reflexivity |].
      constructor; [split; [exact Etruthy | exact Eknown] |].
      eapply Forall_impl; [| exact Hnew]. cbv beta. intros rd [Ht Hex].
      split; [exact Ht |]. rewrite existsb_app in Hex.
      apply orb_false_iff in Hex. tauto.
Qed.

(** X26.  While the cache has room for the runs of the data, so that
    nothing is trimmed, [_process_combat_runs] detects a run only when its
    id is truthy and not in the cache, and processing the same data again
    detects nothing and leaves the cache as it is. *)
Theorem combat_runs_are_detected_once
        (sv_data : pydict) (cache cache' : list pyval)
        (detected : list pydict) :
  (Z.of_nat (List.length cache + List.length (combat_runs_of sv_data))
   <= MAX_CACHED_RUNS)%Z ->
  _process_combat_runs iteration sv_data cache = Ok (detected, cache') ->
  Forall (fun run_data =>
            truthy (run_id_of run_data) = true
            /\ existsb (key_eqb (run_id_of run_data)) cache = false)
         detected
  /\ _process_combat_runs iteration sv_data cache' = Ok ([], cache').
Proof.
  intros Hroom H. unfold _process_combat_runs in *.
  destruct (process_runs_with_room _ _ _ _ _ Hroom H)
    as (_ & Hall & new_runs & Hd & Hnew).
  cbn [app] in Hd. subst new_runs.
  split; [exact Hnew | apply process_runs_passes_over; exact Hall].
Qed.

End RunCacheFacts.

Section RunCacheExamples.
Import Py Watcher Examples.

Lemma run_cache_stays_bounded_witness :
  (Z.of_nat (List.length [VStr "r1"; VStr "r2"]) <= MAX_CACHED_RUNS)%Z.
Proof.
  apply (run_cache_stays_bounded (fun s => s) saved_runs []
                                 [VStr "r1"; VStr "r2"] [first_run; second_run]).
  - reflexivity.
  - vm_compute. discriminate.
  - vm_compute. reflexivity.
Defined.

Lemma combat_runs_are_detected_once_witness :
  Forall (fun run_data =>
            truthy (run_id_of run_data) = true
            /\ existsb (key_eqb (run_id_of run_data)) [] = false)
         [first_run; second_run]
  /\ _process_combat_runs (fun s => s) saved_runs [VStr "r1"; VStr "r2"]
     = Ok ([], [VStr "r1"; VStr "r2"]).
Proof.
  apply (combat_runs_are_detected_once (fun s => s) saved_runs []).
  - vm_compute. discriminate.
  - vm_compute. reflexivity.
Defined.

End RunCacheExamples.

(* ===================================================================== *)
(** * Termination of the parser and the shape of the retry delay          *)
(* ===================================================================== *)

Section Termination.
Import Py Watcher.

(** X27.  The table parser ends on every text: with the fuel
    [enough content], three rounds for each character, [_parse_table]
    reaches a result or an exception from any position, and more fuel
    gives the same outcome; so does [parse_table_string].  (The depth of
    the recursion, which the interpreter limits, is not modelled.) *)
Theorem table_parser_terminates (content : text) (start fuel : nat) :
  _parse_table (enough content) content start <> OutOfFuel
  /\ (enough content <= fuel ->
      _parse_table fuel content start
      = _parse_table (enough content) content start)
  /\ parse_table_string content <> OutOfFuel.
Proof.
  split; [apply parse_table_fuel | split; [apply parse_table_enough |]].
  unfold parse_table_string.
  destruct (starts_with (lit "{") (strip content)); [| discriminate].
  pose proof (parse_table_fuel (strip content) 0) as H.
  destruct (_parse_table (enough (strip content)) (strip content) 0)
    as [[value p] | e |]; [discriminate | discriminate | congruence].
Qed.

End Termination.

Section BackoffShape.
Import Sync Examples.
Local Open Scope Q_scope.

(** X28.  With a base delay that is not negative the jitter only adds to
    the delay: the computed backoff is at least the exponential delay
    capped at [max_retry_delay], and once the exponential delay has reached
    [max_retry_delay] the backoff is [max_retry_delay] itself, whatever the
    clock hash. *)
Theorem backoff_keeps_the_capped_delay
        (config : SyncConfig) (attempt : nat) (h : Z) :
  0 <= base_retry_delay config ->
  py_min (base_retry_delay config * inject_Z (2 ^ Z.of_nat attempt))
         (max_retry_delay config)
  <= _calculate_backoff config attempt h
  /\ (max_retry_delay config
      <= base_retry_delay config * inject_Z (2 ^ Z.of_nat attempt) ->
      _calculate_backoff config attempt h == max_retry_delay config).
Proof.
  intros Hbase. unfold _calculate_backoff.
  pose proof (pow2_positive attempt) as Hpow.
  destruct (jitter_share_bounds h) as [L U].
  set (A := inject_Z (2 ^ Z.of_nat attempt)) in *.
  set (m := inject_Z (h mod 100)) in *.
  set (base := base_retry_delay config) in *.
  assert (HX : 0 <= base * A) by (apply Qmult_le_0_compat; lra).
  assert (HJ : 0 <= base * A * m) by (apply Qmult_le_0_compat; lra).
  assert (Hsum : base * A <= base * A + base * A * (25 # 100) * m / 100).
  { setoid_replace (base * A + base * A * (25 # 100) * m / 100)
      with (base * A + base * A * m * (1 # 400)) by field.
    lra. }
  split; [apply py_min_mono; exact Hsum |].
  intros Hcap. unfold py_min.
  destruct (Qlt_le_dec (max_retry_delay config)
                       (base * A + base * A * (25 # 100) * m / 100));
    [reflexivity | lra].
Qed.

Lemma backoff_keeps_the_capped_delay_witness :
  _calculate_backoff default_config 6 42 == max_retry_delay default_config.
Proof.
  refine (proj2 (backoff_keeps_the_capped_delay default_config 6 42 _) _);
    unfold Qle; simpl; lia.
Defined.

End BackoffShape.

(* ===================================================================== *)
(** * Failures of single requests and of single runs                      *)
(* ===================================================================== *)

Section Isolation.
Import Py Sync.
Context {runtime : Runtime}.

Variable ok : SyncItem -> bool.
Variable why : SyncItem -> option string.
Variable fails : string -> option sync_exn.

Lemma stored_status_kept_by_results b rs p j :
  stored_status (queue p) j <> None ->
  stored_status (queue (fold_left (apply_result b) rs p)) j <> None.
Proof.
  intros H. rewrite stored_status_apply_results.
  destruct (stored_status (queue p) j); [discriminate | contradiction].
Qed.

(** The loop over groups of which each holds items of its own type, when
    a request either raises a [SyncError] or brings one result per item. *)
Lemma process_groups_isolates (b : backend) :
  (forall t type_items,
      respond b t type_items
      = match fails t with
        | Some e => Failure e
        | None => Results (map (verdict ok why) type_items)
        end) ->
  (forall t e, fails t = Some e -> is_sync_error e = true) ->
  forall groups p,
    Forall (fun g => Forall (fun item => item_type item = fst g) (snd g))
           groups ->
    NoDup (map id (List.concat (map snd groups))) ->
    (forall item, In item (List.concat (map snd groups)) ->
                  stored_status (queue p) (id item) <> None) ->
    exists p',
      process_groups b groups p = (p', None)
      /\ (forall item,
             In item (List.concat (map snd groups)) ->
             stored_status (queue p') (id item)
             = Some match fails (item_type item) with
                    | Some _ => status_value FAILED
                    | None => verdict_status (ok item)
                    end)
      /\ (forall j,
             ~ In j (map id (List.concat (map snd groups))) ->
             stored_status (queue p') j = stored_status (queue p) j).
Proof.
  intros Hb Hsync. induction groups as [| [t its] rest IH];
    intros p Htypes Hnd Hstored.
  - exists p. split; [reflexivity | split; [intros item [] | reflexivity]].
  - apply Forall_cons_iff in Htypes as [Ht Htypes]. cbn [fst snd] in Ht.
    cbn [map snd List.concat] in *.
    rewrite map_app in Hnd.
    pose proof (NoDup_app_remove_l _ _ Hnd) as Hnd_rest.
    pose proof (NoDup_app_remove_r _ _ Hnd) as Hnd_its.
    assert (Hapart : forall j, In j (map id its) ->
                               ~ In j (map id (List.concat (map snd rest)))).
    { intros j H1 H2. revert Hnd H1 H2. clear.
      induction (map id its) as [| x l IHl]; intros Hnd H1 H2; [contradiction |].
      cbn [app] in Hnd. apply NoDup_cons_iff in Hnd as [Hx Hnd].
      destruct H1 as [-> | H1]; [apply Hx; apply in_or_app; right; exact H2 |].
      exact (IHl Hnd H1 H2). }
    cbn [process_groups]. rewrite Hb.
    (* the store after this group *)
    assert (Hgroup : exists p1,
               match fails t with
               | Some e =>
                   (if is_sync_error e
                    then process_groups b rest
                           (fold_left (fail_item b (str_of_exn e)) its p)
                    else (p, Some e))
                   = process_groups b rest p1
               | None =>
                   process_groups b rest
                     (fold_left (apply_result b) (map (verdict ok why) its) p)
                   = process_groups b rest p1
               end
               /\ (forall item, In item its ->
                                stored_status (queue p1) (id item)
                                = Some match fails t with
                                       | Some _ => status_value FAILED
                                       | None => verdict_status (ok item)
                                       end)
               /\ (forall j, ~ In j (map id its) ->
                             stored_status (queue p1) j
                             = stored_status (queue p) j)
               /\ (forall j, stored_status (queue p) j <> None ->
                             stored_status (queue p1) j <> None)).
    { destruct (fails t) as [e |] eqn:Ef.
      - exists (fold_left (fail_item b (str_of_exn e)) its p).
        rewrite (Hsync t e Ef).
        destruct (fold_fail_item b (str_of_exn e) its p) as (_ & _ & _ & H4).
        cbv zeta in H4.
        split; [reflexivity | split; [| split]].
        + intros item Hitem. rewrite H4.
          destruct (stored_status (queue p) (id item)) eqn:E;
            [| exfalso; apply (Hstored item); [apply in_or_app; left; exact Hitem
                                               | exact E]].
          assert (Hex : existsb (fun item0 => String.eqb (id item) (id item0)) its
                        = true)
            by (apply existsb_exists; exists item; split;
                [exact Hitem | apply String.eqb_refl]).
          rewrite Hex. reflexivity.
        + intros j Hj. rewrite H4.
          destruct (stored_status (queue p) j); [| reflexivity].
          assert (Hex : existsb (fun item0 => String.eqb j (id item0)) its = false).
          { apply not_true_iff_false. intros Hex.
            apply existsb_exists in Hex as (x & Hx & Ex).
            apply String.eqb_eq in Ex. apply Hj. subst j. apply in_map. exact Hx. }
          rewrite Hex. reflexivity.
        + intros j Hj. rewrite H4.
          destruct (stored_status (queue p) j); [discriminate | contradiction].
      - exists (fold_left (apply_result b) (map (verdict ok why) its) p).
        split; [reflexivity | split; [| split]].
        + intros item Hitem. rewrite stored_status_apply_results.
          destruct (stored_status (queue p) (id item)) eqn:E;
            [| exfalso; apply (Hstored item); [apply in_or_app; left; exact Hitem
                                               | exact E]].
          cbn [option_map]. f_equal.
          apply status_after_verdicts; [exact Hnd_its | exact Hitem].
        + intros j Hj. rewrite stored_status_apply_results.
          destruct (stored_status (queue p) j); [| reflexivity].
          cbn [option_map]. f_equal. apply status_after_not_mentioned. exact Hj.
        + intros j Hj. apply stored_status_kept_by_results. exact Hj. }
    destruct Hgroup as (p1 & Hrun & Hits & Hothers & Hkept).
    destruct (IH p1 Htypes Hnd_rest) as (p' & Hrest & Hin & Hout).
    { intros item Hitem. apply Hkept. apply Hstored.
      apply in_or_app. right. exact Hitem. }
    exists p'. split; [| split].
    + destruct (fails t); rewrite Hrun; exact Hrest.
    + intros item Hitem. apply in_app_or in Hitem as [Hitem | Hitem].
      * rewrite Hout by (apply Hapart; apply in_map; exact Hitem).
        rewrite (Hits item Hitem).
        rewrite Forall_forall in Ht. rewrite (Ht item Hitem). reflexivity.
      * apply Hin. exact Hitem.
    + intros j Hj. rewrite Hout, Hothers; [reflexivity | |];
        intros H; apply Hj; rewrite map_app; apply in_or_app; tauto.
Qed.

(** X29.  A [SyncError] from the request of one item type touches the items
    of that type only.  When the requests of some types raise a
    [SyncError] and the others bring one result per item, each item of the
    batch ends as failed if the request of its type raised, and with the
    status of its own result otherwise; and [_process_upload_batch] returns
    its [SyncResult]. *)
Theorem upload_batch_isolates_failures
        (b : backend) (store : sync_queue) (items : list SyncItem) :
  (forall t type_items,
      respond b t type_items
      = match fails t with
        | Some e => Failure e
        | None => Results (map (verdict ok why) type_items)
        end) ->
  (forall t e, fails t = Some e -> is_sync_error e = true) ->
  NoDup (map id items) ->
  (forall item, In item items -> stored_status store (id item) <> None) ->
  (forall item,
      In item items ->
      stored_status (fst (_process_upload_batch b store items)) (id item)
      = Some match fails (item_type item) with
             | Some _ => status_value FAILED
             | None => verdict_status (ok item)
             end)
  /\ exists result, snd (_process_upload_batch b store items) = inl result.
Proof.
  intros Hb Hsync Hnd Hstored.
  destruct items as [| it0 rest];
    [split; [intros item [] | eexists; reflexivity] |].
  unfold _process_upload_batch.
  remember (it0 :: rest) as items eqn:Eitems.
  destruct (grouping_is_partition items) as (_ & Hgroups & _ & Hperm).
  destruct (process_groups_isolates b Hb Hsync (group_by_type items)
              {| queue := store; readings := 0; processed := 0; failed := 0;
                 error_log := [] |})
    as (p' & Hrun & Hin & _).
  - eapply Forall_impl; [| exact Hgroups]. cbv beta. intros g [Hg _].
    rewrite Hg. apply Forall_forall. intros item Hitem.
    apply filter_In in Hitem as [_ Hitem]. apply String.eqb_eq. exact Hitem.
  - apply (Permutation_NoDup (l := map id items)); [| exact Hnd].
    apply Permutation_map. symmetry. exact Hperm.
  - intros item Hitem. cbn [queue]. apply Hstored.
    apply (Permutation_in _ Hperm). exact Hitem.
  - rewrite Hrun. cbn [fst snd]. split; [| eexists; reflexivity].
    intros item Hitem. apply Hin.
    apply (Permutation_in (l := items)); [symmetry; exact Hperm | exact Hitem].
Qed.

End Isolation.

Section RunFailure.
Import Py Watcher.

Variable iteration : list pyval -> list pyval.

Lemma process_runs_unhashable (run_data : pydict) :
  truthy (run_id_of run_data) = true ->
  hashable (run_id_of run_data) = false ->
  forall runs cache detected,
    In (VDict run_data) runs ->
    process_runs iteration runs cache detected = Raise TypeError.
Proof.
  intros Ht Hh. induction runs as [| run runs IH]; intros cache detected Hin;
    [contradiction |].
  destruct Hin as [-> | Hin].
  - cbn [process_runs]. cbv zeta. rewrite Ht. cbn [negb].
    unfold set_contains. rewrite Hh. reflexivity.
  - cbn [process_runs].
    destruct run as [| b | z | f | s | items | rd]; try (apply IH; exact Hin).
    cbv zeta. destruct (negb (truthy (run_id_of rd))); [apply IH; exact Hin |].
    unfold set_contains. destruct (hashable (run_id_of rd)); [| reflexivity].
    cbn [bind]. destruct (existsb (key_eqb (run_id_of rd)) cache);
      apply IH; exact Hin.
Qed.

(** X30.  A combat run whose id is a table with entries cannot be looked up
    in the cache of known ids: with such a run anywhere in the data,
    [_process_combat_runs] ends in [TypeError], whatever the cache holds, so
    the runs after it are not looked at. *)
Theorem run_with_table_id_aborts_the_pass
        (sv_data : pydict) (cache : list pyval) (run_data : pydict) :
  In (VDict run_data) (combat_runs_of sv_data) ->
  truthy (run_id_of run_data) = true ->
  hashable (run_id_of run_data) = false ->
  _process_combat_runs iteration sv_data cache = Raise TypeError.
Proof.
  intros Hin Ht Hh. unfold _process_combat_runs.
  apply (process_runs_unhashable run_data Ht Hh). exact Hin.
Qed.

End RunFailure.

Section IsolationExamples.
Import Py Watcher Sync Examples.

Lemma upload_batch_isolates_failures_witness :
  (forall item,
      In item mixed_batch ->
      stored_status (fst (_process_upload_batch moody_server mixed_store mixed_batch))
                    (id item)
      = Some match snapshots_fail (item_type item) with
             | Some _ => status_value FAILED
             | None => verdict_status (accepted item)
             end)
  /\ exists result,
      snd (_process_upload_batch moody_server mixed_store mixed_batch) = inl result.
Proof.
  apply (upload_batch_isolates_failures
           (runtime := text_runtime) accepted complaint snapshots_fail
           moody_server mixed_store mixed_batch).
  - reflexivity.
  - intros t e. unfold snapshots_fail.
    destruct (String.eqb t "build_snapshot"); [| discriminate].
    intros [= <-]. reflexivity.
  - repeat (constructor; [cbn; intuition discriminate |]). constructor.
  - intros item Hin.
    repeat (destruct Hin as [<- | Hin]; [vm_compute; discriminate |]).
    contradiction.
Defined.

Lemma run_with_table_id_aborts_the_pass_witness :
  _process_combat_runs (fun s => s) tabled_runs [] = Raise TypeError.
Proof.
  apply (run_with_table_id_aborts_the_pass
           (fun s => s) tabled_runs [] [(VStr "run_id", VList [VInt 1])]).
  - right. left. reflexivity.
  - reflexivity.
  - reflexivity.
Defined.

End IsolationExamples.
